(** * Gowanus BID data preparation: a shallow embedding and its properties

    The repository holds two one-shot Python scripts:

    - [1_BID_data/generate_deckgl_data.py] parses BID boundary polygons from
      WKT text, computes their bounding box, pages through a parcel API,
      assigns every parcel to a BID by ray casting and exports JSON;
    - [1_BID_data/generate_brooklyn_bids_table.py] renders BID statistics as
      HTML tables; its compact currency formatter is modelled here.

    Python values are modelled as follows.

    - A Python [float] is an IEEE 754 binary64 number: Rocq's primitive
      [float], whose operations are specified by [SpecFloat] through the
      axioms of [FloatAxioms].  Literals such as [0.002] denote the same
      binary64 value in both languages.
    - A Python [str] that is scanned character by character is a
      [list ascii]: a sequence of code points below 256.
    - An exception is the [Raise] case of [result].
    - A [dict] is an association list in insertion order, keys unique. *)

From Stdlib Require Import ZArith List String Ascii Bool Lia.
From Stdlib Require Import DecimalString.
From Stdlib Require Import Floats.
Import ListNotations.

Set Warnings "-inexact-float,-register-all".

(** ** The Python runtime the scripts rely on *)

Module Py.

(** The exceptions that the modelled code can meet. *)
Inductive exn : Set :=
| ValueError
| TypeError
| OverflowError
| ZeroDivisionError
| IndexError
| AttributeError
| HTTPError.

Inductive result (A : Type) : Type :=
| Ok (a : A)
| Raise (e : exn).

Arguments Ok {A} a.
Arguments Raise {A} e.

Definition bind {A B : Type} (m : result A) (k : A -> result B) : result B :=
  match m with
  | Ok a => k a
  | Raise e => Raise e
  end.

Definition is_ok {A : Type} (m : result A) : bool :=
  match m with
  | Ok _ => true
  | Raise _ => false
  end.

Declare Scope py_scope.
Delimit Scope py_scope with py.
Notation "x <- m ;; k" := (bind m (fun x => k))
  (at level 61, m at next level, right associativity) : py_scope.

(** *** Text *)

Definition str : Set := list ascii.

(** A literal of the source, as a sequence of characters. *)
Definition lit (s : string) : str := list_ascii_of_string s.

Definition ch (s : string) : ascii :=
  match s with
  | String c _ => c
  | EmptyString => Ascii.zero
  end.

(** [str.isspace] on the code points below 256: U+0009..U+000D,
    U+001C..U+0020, U+0085 and U+00A0. *)
Definition is_space (c : ascii) : bool :=
  let n := N_of_ascii c in
  ((9 <=? n) && (n <=? 13) || (28 <=? n) && (n <=? 32)
   || (n =? 133) || (n =? 160))%N.

Fixpoint lstrip (s : str) : str :=
  match s with
  | [] => []
  | c :: s' => if is_space c then lstrip s' else s
  end.

Definition rstrip (s : str) : str := rev (lstrip (rev s)).

(** [s.strip()] *)
Definition strip (s : str) : str := rstrip (lstrip s).

(** [s.upper()], on the ASCII letters.  The scripts only compare the result
    with an ASCII word, and no other code point below 256 is mapped by
    Python onto a letter of that word. *)
Definition upper_char (c : ascii) : ascii :=
  let n := N_of_ascii c in
  if ((97 <=? n) && (n <=? 122))%N then ascii_of_N (n - 32) else c.

Definition upper (s : str) : str := map upper_char s.

Fixpoint startswith (s p : str) : bool :=
  match p, s with
  | [], _ => true
  | _ :: _, [] => false
  | a :: p', c :: s' => Ascii.eqb c a && startswith s' p'
  end.

Definition endswith (s p : str) : bool := startswith (rev s) (rev p).

(** [s[lo:hi]] for indices that are not negative.  A slice written with a
    negative bound in the source, [s[1:-1]] or [s[:-1]], is taken with the
    bound [length s - 1], which is what Python computes. *)
Definition slice (s : str) (lo hi : nat) : str := firstn (hi - lo) (skipn lo s).

(** [s.split(sep)] for a separator of one character. *)
Fixpoint split_on (sep : ascii) (s : str) : list str :=
  match s with
  | [] => [[]]
  | c :: s' =>
      if Ascii.eqb c sep then [] :: split_on sep s'
      else match split_on sep s' with
           | h :: t => (c :: h) :: t
           | [] => [[c]]
           end
  end.

(** [s.split()]: the maximal runs of characters that are not white space. *)
Fixpoint split_ws (s : str) : list str :=
  match s with
  | [] => []
  | c :: s' =>
      if is_space c then split_ws s'
      else match s' with
           | [] => [[c]]
           | c' :: _ =>
               if is_space c' then [c] :: split_ws s'
               else match split_ws s' with
                    | h :: t => (c :: h) :: t
                    | [] => [[c]]
                    end
           end
  end.

(** *** Floating-point numbers *)

Open Scope float_scope.

(** [a / b] on floats raises when the divisor compares equal to zero. *)
Definition truediv (a b : float) : result float :=
  if b =? 0 then Raise ZeroDivisionError else Ok (a / b).

(** The builtins [min(a, b)] and [max(a, b)]: the first argument is kept
    unless the second one is strictly smaller (larger). *)
Definition min2 (a b : float) : float := if b <? a then b else a.
Definition max2 (a b : float) : float := if a <? b then b else a.

(** Zeros and finite numbers: what is neither an infinity nor a NaN. *)
Definition finite_sf (x : spec_float) : bool :=
  match x with
  | S754_zero _ | S754_finite _ _ _ => true
  | _ => false
  end.

Definition finite (x : float) : bool := finite_sf (Prim2SF x).

(** [a > b] *)
Definition gt (a b : float) : bool := b <? a.
(** [a >= b] *)
Definition ge (a b : float) : bool := b <=? a.

Close Scope float_scope.

(** **** [float(s)] for a string

    The grammar is the one of the language reference: an optional sign, then
    [inf], [infinity], [nan] (in any case) or a decimal number with an
    optional exponent; underscores may separate digits; white space around
    the whole is ignored.  The value is the decimal number rounded to the
    nearest binary64 number, ties to even; a number too large becomes an
    infinity. *)

(** The white space that [float] ignores around the number: U+0009..U+000D
    and U+0020, and the spaces U+0085 and U+00A0, which it reads as U+0020.
    The separators U+001C..U+001F, which [str.strip] removes, are not white
    space for [float]: a text that starts or ends with one is no number. *)
Definition is_float_space (c : ascii) : bool :=
  let n := N_of_ascii c in
  ((9 <=? n) && (n <=? 13) || (n =? 32) || (n =? 133) || (n =? 160))%N.

Fixpoint float_lstrip (s : str) : str :=
  match s with
  | [] => []
  | c :: s' => if is_float_space c then float_lstrip s' else s
  end.

Definition float_strip (s : str) : str :=
  rev (float_lstrip (rev (float_lstrip s))).

Definition is_digit (c : ascii) : bool :=
  let n := N_of_ascii c in ((48 <=? n) && (n <=? 57))%N.

Definition digit_val (c : ascii) : Z := Z.of_N (N_of_ascii c) - 48.

(** After a digit: more digits, each possibly preceded by one underscore.
    Returns the digits read and the text that follows them. *)
Fixpoint digits_tail (s : str) : str * str :=
  match s with
  | c :: s' =>
      if is_digit c then
        let '(ds, r) := digits_tail s' in (c :: ds, r)
      else if Ascii.eqb c (ch "_") then
        match s' with
        | d :: s'' =>
            if is_digit d then
              let '(ds, r) := digits_tail s'' in (d :: ds, r)
            else ([], s)
        | [] => ([], s)
        end
      else ([], s)
  | [] => ([], [])
  end.

(** [digitpart]: at least one digit. *)
Definition digitpart (s : str) : option (str * str) :=
  match s with
  | c :: s' =>
      if is_digit c then
        let '(ds, r) := digits_tail s' in Some (c :: ds, r)
      else None
  | [] => None
  end.

Definition digits_value (ds : str) : Z :=
  fold_left (fun acc c => 10 * acc + digit_val c)%Z ds 0%Z.

(** [number]: [digitpart] with an optional point, or an optional
    [digitpart], a point and a [digitpart].  Returns the digits before and
    after the point. *)
Definition number (s : str) : option (str * str * str) :=
  match digitpart s with
  | Some (ip, r) =>
      match r with
      | c :: r' =>
          if Ascii.eqb c (ch ".") then
            match digitpart r' with
            | Some (fp, r'') => Some (ip, fp, r'')
            | None => Some (ip, [], r')
            end
          else Some (ip, [], r)
      | [] => Some (ip, [], [])
      end
  | None =>
      match s with
      | c :: r' =>
          if Ascii.eqb c (ch ".") then
            match digitpart r' with
            | Some (fp, r'') => Some ([], fp, r'')
            | None => None
            end
          else None
      | [] => None
      end
  end.

Definition signed (s : str) : bool * str :=
  match s with
  | c :: s' =>
      if Ascii.eqb c (ch "-") then (true, s')
      else if Ascii.eqb c (ch "+") then (false, s')
      else (false, s)
  | [] => (false, [])
  end.

(** The exponent part, when there is one; [None] when the text is not a
    well-formed end of a number. *)
Definition exponent (s : str) : option Z :=
  match s with
  | [] => Some 0%Z
  | c :: s' =>
      if Ascii.eqb (upper_char c) (ch "E") then
        let '(neg, r) := signed s' in
        match digitpart r with
        | Some (ds, []) =>
            Some (if neg then (- digits_value ds)%Z else digits_value ds)
        | _ => None
        end
      else None
  end.

(** The binary64 number nearest to [(-1)^neg * m * 10^e]. *)
Definition of_decimal (neg : bool) (m e : Z) : float :=
  match m with
  | Z0 => SF2Prim (S754_zero neg)
  | Zneg _ => nan
  | Zpos _ =>
      if (0 <=? e)%Z then
        SF2Prim (binary_normalize prec emax
                   (if neg then (- (m * 10 ^ e))%Z else (m * 10 ^ e)%Z) 0 false)
      else
        let '(q, e', l) := SFdiv_core_binary prec emax m 0 (10 ^ (- e)) 0 in
        SF2Prim (binary_round_aux prec emax neg q e' l)
  end.

Definition float_of_str (s : str) : result float :=
  let '(neg, body) := signed (float_strip s) in
  let word := upper body in
  if list_eq_dec ascii_dec word (lit "INF") then
    Ok (if neg then neg_infinity else infinity)
  else if list_eq_dec ascii_dec word (lit "INFINITY") then
    Ok (if neg then neg_infinity else infinity)
  else if list_eq_dec ascii_dec word (lit "NAN") then Ok nan
  else
    match number body with
    | Some (ip, fp, r) =>
        match exponent r with
        | Some e =>
            Ok (of_decimal neg (digits_value (ip ++ fp)%list)
                  (e - Z.of_nat (List.length fp)))
        | None => Raise ValueError
        end
    | None => Raise ValueError
    end.

(** **** [float(v)] and [int(x)] on other values *)

(** What [json.loads] can return: the values of a fetched row. *)
Inductive json : Type :=
| JNull
| JBool (b : bool)
| JInt (z : Z)
| JFloat (f : float)
| JStr (s : str)
| JArr (items : list json)
| JObj (members : list (str * json)).

(** [float(n)] for an integer: the nearest binary64 number, ties to even;
    an integer beyond the largest float raises [OverflowError]. *)
Definition float_of_int (z : Z) : result float :=
  match binary_normalize prec emax z 0 false with
  | S754_infinity _ => Raise OverflowError
  | sf => Ok (SF2Prim sf)
  end.

Definition float_of (v : json) : result float :=
  match v with
  | JNull => Raise TypeError
  | JBool b => Ok (if b then 1%float else 0%float)
  | JInt z => float_of_int z
  | JFloat f => Ok f
  | JStr s => float_of_str s
  | JArr _ => Raise TypeError
  | JObj _ => Raise TypeError
  end.

(** [int(x)] for a float: truncation towards zero. *)
Definition int_of_float (x : float) : result Z :=
  match Prim2SF x with
  | S754_nan => Raise ValueError
  | S754_infinity _ => Raise OverflowError
  | S754_zero _ => Ok 0%Z
  | S754_finite s m e =>
      let a := if (0 <=? e)%Z then (Zpos m * 2 ^ e)%Z
               else (Zpos m / 2 ^ (- e))%Z in
      Ok (if s then (- a)%Z else a)
  end.

(** Truth value of an object, as [or] tests it. *)
Definition truthy (v : json) : bool :=
  match v with
  | JNull => false
  | JBool b => b
  | JInt z => negb (z =? 0)%Z
  | JFloat f => negb (f =? 0)%float
  | JStr s => negb (Nat.eqb (List.length s) 0)
  | JArr l => negb (Nat.eqb (List.length l) 0)
  | JObj l => negb (Nat.eqb (List.length l) 0)
  end.

(** *** Dictionaries *)

Definition str_eqb (a b : str) : bool :=
  if list_eq_dec ascii_dec a b then true else false.

Section Dict.
Context {V : Type}.

Definition dict : Type := list (str * V).

Definition keys (d : dict) : list str := map fst d.

(** [d.get(k)] *)
Fixpoint get (d : dict) (k : str) : option V :=
  match d with
  | [] => None
  | (k', v) :: d' => if str_eqb k k' then Some v else get d' k
  end.

(** [d.get(k, default)] *)
Definition get_default (d : dict) (k : str) (default : V) : V :=
  match get d k with
  | Some v => v
  | None => default
  end.

(** [d[k] = v]: a key already present keeps its place. *)
Fixpoint set (d : dict) (k : str) (v : V) : dict :=
  match d with
  | [] => [(k, v)]
  | (k', v') :: d' =>
      if str_eqb k k' then (k, v) :: d' else (k', v') :: set d' k v
  end.
End Dict.

Arguments dict V : clear implicits.

(** [x in names] *)
Definition mem (x : str) (names : list str) : bool := existsb (str_eqb x) names.

End Py.

(** ** [generate_deckgl_data.py] *)

Module Deckgl.
Import Py.
Local Open Scope py_scope.

(** *** Config *)

Definition PAGE_SIZE : Z := 50000.

Definition BROOKLYN_BIDS : list str :=
  map lit
    [ "86th Street Bay Ridge"; "Atlantic Avenue"; "Bay Ridge 5th Avenue";
      "Bed-Stuy Gateway"; "Brighton Beach";
      "Church Flatbush Community Alliance"; "Court-Livingston-Schermerhorn";
      "Cypress Hills Fulton"; "DUMBO"; "East Brooklyn";
      "Flatbush-Nostrand Junction"; "Fulton Area Business (FAB) Alliance";
      "Fulton Mall Improvement Association"; "Gowanus BID (Proposed)";
      "Graham Avenue"; "Grand Street"; "Kings Highway"; "MetroTech";
      "Montague Street"; "Myrtle Avenue Brooklyn Partnership";
      "North Flatbush"; "Park Slope 5th Avenue"; "Pitkin Avenue";
      "Sunset Park" ]%string.

Definition gray : list Z := [128; 128; 128]%Z.

Definition BID_COLORS : dict (list Z) :=
  map (fun name => (name, gray)) BROOKLYN_BIDS.

(** A coordinate pair [(lon, lat)], a ring of them, and the mapping from a
    BID name to its exterior rings. *)
Definition coord : Set := float * float.
Definition ring : Set := list coord.
Definition boundaries : Type := dict (list ring).

Definition GOWANUS_BOUNDARY : ring :=
  [ (-73.98871236113611, 40.6852235692749);
    (-73.98656632686861, 40.684387901353176);
    (-73.98699969227908, 40.683765500363144);
    (-73.98645689115888, 40.68355803207488);
    (-73.98666481900734, 40.68325429733605);
    (-73.98500577364807, 40.68259869031278);
    (-73.98436666910332, 40.6835430943332);
    (-73.9820772740561, 40.68265014324907);
    (-73.98185949699375, 40.6829862461299);
    (-73.97982727586435, 40.68216797788509);
    (-73.98387639712381, 40.67614435139574);
    (-73.98570616219023, 40.67397312303486);
    (-73.98800431209425, 40.67508032553716);
    (-73.98874190877774, 40.674180621155706);
    (-73.9903232547831, 40.674983217807416);
    (-73.99044582277797, 40.67536168816061);
    (-73.99097986904138, 40.67549199434205);
    (-73.99192101614494, 40.674349109154754);
    (-73.99482325116658, 40.67583311313964);
    (-73.99534854257324, 40.675454645462594);
    (-73.99649542881106, 40.67406691226546);
    (-73.99776488304373, 40.674704343540796);
    (-73.99649105138268, 40.67744655650161);
    (-73.99458577567648, 40.67657344282233);
    (-73.9937551586398, 40.67783165243714);
    (-73.991865203933, 40.67694775436462);
    (-73.99042393563609, 40.67867819171676);
    (-73.98827461829725, 40.68186174712512);
    (-73.99042393563607, 40.68269744671996);
    (-73.98871236113611, 40.6852235692749) ]%float.

(** *** Step A: boundaries from the WKT column *)

Definition lparen : ascii := ch "(".
Definition rparen : ascii := ch ")".
Definition comma : ascii := ch ",".

(** The first loop of [parse_wkt_multipolygon]: the top-level groups of
    [inner].  [rest] is what remains to be read, [i] the index of its first
    character, [start] is [None] for the source's [start is None]. *)
Fixpoint scan_polygons (inner rest : str) (i : nat) (depth : Z)
    (start : option nat) (polygons : list str) : list str :=
  match rest with
  | [] => polygons
  | c :: rest' =>
      if Ascii.eqb c lparen then
        scan_polygons inner rest' (S i) (depth + 1)
          (if (depth =? 0)%Z then Some i else start) polygons
      else if Ascii.eqb c rparen then
        let depth := (depth - 1)%Z in
        match (depth =? 0)%Z, start with
        | true, Some st =>
            let block := slice inner st (i + 1) in
            scan_polygons inner rest' (S i) depth None (polygons ++ [block])
        | _, _ => scan_polygons inner rest' (S i) depth start polygons
        end
      else scan_polygons inner rest' (S i) depth start polygons
  end.

(** The inner loop up to its [break]: the text between the parentheses of
    the first group of [poly_block] that closes, if one does. *)
Fixpoint scan_ring (poly_block rest : str) (i : nat) (ring_depth : Z)
    (ring_start : option nat) : option str :=
  match rest with
  | [] => None
  | c :: rest' =>
      if Ascii.eqb c lparen then
        scan_ring poly_block rest' (S i) (ring_depth + 1)
          (if (ring_depth =? 0)%Z then Some i else ring_start)
      else if Ascii.eqb c rparen then
        let ring_depth := (ring_depth - 1)%Z in
        match (ring_depth =? 0)%Z, ring_start with
        | true, Some st => Some (slice poly_block (st + 1) i)
        | _, _ => scan_ring poly_block rest' (S i) ring_depth ring_start
        end
      else scan_ring poly_block rest' (S i) ring_depth ring_start
  end.

(** The loop over [ring_str.split(",")]. *)
Fixpoint parse_pairs (pairs : list str) (coords : ring) : result ring :=
  match pairs with
  | [] => Ok coords
  | item :: pairs' =>
      match split_ws (strip item) with
      | p0 :: p1 :: _ =>
          x <- float_of_str p0 ;;
          y <- float_of_str p1 ;;
          parse_pairs pairs' (coords ++ [(x, y)])
      | _ => parse_pairs pairs' coords
      end
  end.

Definition strip_block (poly_block : str) : str :=
  let poly_block := strip poly_block in
  let poly_block :=
    if startswith poly_block [lparen]
    then slice poly_block 1 (List.length poly_block) else poly_block in
  if endswith poly_block [rparen]
  then slice poly_block 0 (List.length poly_block - 1) else poly_block.

(** The loop over [polygons]. *)
Fixpoint parse_blocks (polygons : list str) (acc : list ring)
    : result (list ring) :=
  match polygons with
  | [] => Ok acc
  | poly_block :: polygons' =>
      let poly_block := strip_block poly_block in
      match scan_ring poly_block poly_block 0 0 None with
      | Some ring_str =>
          coords <- parse_pairs (split_on comma ring_str) [] ;;
          parse_blocks polygons'
            (match coords with [] => acc | _ :: _ => acc ++ [coords] end)
      | None => parse_blocks polygons' acc
      end
  end.

Definition strip_wrapper (wkt : str) : str :=
  let inner := strip wkt in
  let inner :=
    if startswith (upper inner) (lit "MULTIPOLYGON")
    then strip (skipn 12 inner) else inner in
  if startswith inner [lparen] && endswith inner [rparen]
  then strip (slice inner 1 (List.length inner - 1)) else inner.

Definition parse_wkt_multipolygon (wkt : str) : result (list ring) :=
  let inner := strip_wrapper wkt in
  parse_blocks (scan_polygons inner inner 0 0 None []) [].

(** A row of [csv.DictReader]: column name to cell.  A cell holds the text
    of its field, or [None] where the line has fewer fields than the
    header. *)
Definition cell : Set := option str.
Definition csv_row : Type := dict cell.

(** [v.strip()] for the value of a cell: [None] has no such method. *)
Definition cell_strip (v : cell) : result str :=
  match v with
  | Some s => Ok (strip s)
  | None => Raise AttributeError
  end.

(** [parse_wkt_multipolygon(v)] for the value of a cell: the first
    statement of the function is [wkt.strip()]. *)
Definition parse_wkt_cell (v : cell) : result (list ring) :=
  match v with
  | Some wkt => parse_wkt_multipolygon wkt
  | None => Raise AttributeError
  end.

Fixpoint load_rows (rows : list csv_row) (bid_set : list str)
    (bs : boundaries) : result boundaries :=
  match rows with
  | [] => Ok bs
  | row :: rows' =>
      name <- cell_strip (get_default row (lit "F_ALL_BI_2") (Some [])) ;;
      if mem name bid_set then
        let wkt := get_default row (lit "the_geom") (Some []) in
        rings <- parse_wkt_cell wkt ;;
        load_rows rows' bid_set
          (match rings with [] => bs | _ :: _ => set bs name rings end)
      else load_rows rows' bid_set bs
  end.

(** [load_bid_boundaries], on the rows that the CSV reader yields. *)
Definition load_bid_boundaries (rows : list csv_row) (bid_names : list str)
    : result boundaries :=
  load_rows rows bid_names [].

(** The four running extremes of [bounding_box]. *)
Record extremes : Set := mk_extremes {
  min_lon : float;
  min_lat : float;
  max_lon : float;
  max_lat : float
}.

Definition extremes_init : extremes :=
  mk_extremes infinity infinity neg_infinity neg_infinity.

Definition extend (e : extremes) (c : coord) : extremes :=
  let '(lon, lat) := c in
  mk_extremes (min2 (min_lon e) lon) (min2 (min_lat e) lat)
              (max2 (max_lon e) lon) (max2 (max_lat e) lat).

Definition extend_ring (e : extremes) (r : ring) : extremes :=
  fold_left extend r e.

Definition extend_rings (e : extremes) (rings : list ring) : extremes :=
  fold_left extend_ring rings e.

Definition all_extremes (bs : boundaries) : extremes :=
  fold_left (fun e kv => extend_rings e (snd kv)) bs extremes_init.

Definition buf : float := 0.002.

(** The buffer as a specification float: its mantissa, at exponent [-61]. *)
Definition buf_m : positive := 4611686018427388.
Definition buf_sf : spec_float := S754_finite false buf_m (-61).

Definition bounding_box (bs : boundaries) : float * float * float * float :=
  let e := all_extremes bs in
  (min_lon e - buf, min_lat e - buf, max_lon e + buf, max_lat e + buf)%float.

(** *** Step B: the paginated fetch *)

(** A fetched row: a JSON object. *)
Definition pluto_row : Type := dict json.

(** The API, seen from the loop: the only request parameter that changes
    is [$offset], and every offset is requested at most once; the answer is
    the decoded page, or an HTTP error that [raise_for_status] raises. *)
Definition server : Type := Z -> result (list pluto_row).

(** The state of the [while True] loop, with the offsets requested so far. *)
Record fetch_state : Type := mk_fetch {
  all_rows : list pluto_row;
  offset : Z;
  requests : list Z
}.

(** One turn of the loop: [inl] when it goes round again, [inr] when it
    leaves through a [break] or an exception. *)
Definition fetch_step (srv : server) (st : fetch_state)
    : fetch_state + (result (list pluto_row) * list Z) :=
  let reqs := requests st ++ [offset st] in
  match srv (offset st) with
  | Raise e => inr (Raise e, reqs)
  | Ok batch =>
      match batch with
      | [] => inr (Ok (all_rows st), reqs)
      | _ :: _ =>
          let rows := all_rows st ++ batch in
          if (Z.of_nat (List.length batch) <? PAGE_SIZE)%Z
          then inr (Ok rows, reqs)
          else inl (mk_fetch rows (offset st + PAGE_SIZE) reqs)
      end
  end.

(** At most [fuel] turns; [None] when the loop is still running then. *)
Fixpoint fetch_loop (fuel : nat) (srv : server) (st : fetch_state)
    : option (result (list pluto_row) * list Z) :=
  match fuel with
  | O => None
  | S fuel' =>
      match fetch_step srv st with
      | inl st' => fetch_loop fuel' srv st'
      | inr out => Some out
      end
  end.

Definition fetch_pluto (fuel : nat) (srv : server)
    : option (result (list pluto_row) * list Z) :=
  fetch_loop fuel srv (mk_fetch [] 0 []).

(** A source of rows that answers a request with the [PAGE_SIZE] rows that
    start at the offset, in a fixed order. *)
Definition paged (source : list pluto_row) : server :=
  fun off => Ok (firstn (Z.to_nat PAGE_SIZE) (skipn (Z.to_nat off) source)).

(** *** Step C: point in polygon *)

(** The test of one edge, from vertex [j] to vertex [i].  The right operand
    of [and] is evaluated only when the left one is true. *)
Definition crosses (lon lat : float) (vi vj : coord) : result bool :=
  let '(xi, yi) := vi in
  let '(xj, yj) := vj in
  if negb (Bool.eqb (gt yi lat) (gt yj lat)) then
    q <- truediv ((xj - xi) * (lat - yi))%float (yj - yi)%float ;;
    Ok (lon <? q + xi)%float
  else Ok false.

(** The loop [for i in range(n)], with the running [j] and [inside]. *)
Fixpoint ring_loop (lon lat : float) (r : ring) (idx : list nat) (j : nat)
    (inside : bool) : result bool :=
  match idx with
  | [] => Ok inside
  | i :: idx' =>
      match nth_error r i, nth_error r j with
      | Some vi, Some vj =>
          c <- crosses lon lat vi vj ;;
          ring_loop lon lat r idx' i (if c then negb inside else inside)
      | _, _ => Raise IndexError
      end
  end.

(** [j] starts at [n - 1]; for an empty ring the loop body never reads it. *)
Definition point_in_ring (lon lat : float) (r : ring) : result bool :=
  let n := List.length r in
  ring_loop lon lat r (seq 0 n) (n - 1) false.

Fixpoint in_rings (lon lat : float) (rings : list ring) : result bool :=
  match rings with
  | [] => Ok false
  | r :: rings' =>
      b <- point_in_ring lon lat r ;;
      if b then Ok true else in_rings lon lat rings'
  end.

(** [None] is Python's [None]. *)
Fixpoint find_bid (lon lat : float) (bs : boundaries) : result (option str) :=
  match bs with
  | [] => Ok None
  | (name, rings) :: bs' =>
      b <- in_rings lon lat rings ;;
      if b then Ok (Some name) else find_bid lon lat bs'
  end.

(** *** Step D: assembling and exporting *)

Record feature : Type := mk_feature {
  feature_name : str;
  feature_color : list Z;
  feature_coordinates : list (list (list (list float)))
}.

Definition feature_of (kv : str * list ring) : feature :=
  let '(name, rings) := kv in
  mk_feature name (get_default BID_COLORS name gray)
    (map (fun r : ring => [map (fun c : coord => [fst c; snd c]) r]) rings).

(** The [features] of the collection, in the order of the mapping. *)
Definition build_geojson_boundaries (bs : boundaries) : list feature :=
  map feature_of bs.

Record parcel : Type := mk_parcel {
  p_lat : float;
  p_lon : float;
  p_assesstot : json;
  p_assessland : json;
  p_address : json;
  p_bbl : json;
  p_bid_name : option str;
  p_bldgclass : json;
  p_landuse : json;
  p_yearbuilt : json;
  p_numfloors : json;
  p_lotarea : json;
  p_color : list Z
}.

(** [row.get(key, 0) or 0] *)
Definition get_or_zero (row : pluto_row) (key : string) : json :=
  let v := get_default row (lit key) (JInt 0) in
  if truthy v then v else JInt 0.

(** [try: x = compute() except (ValueError, TypeError): pass], for a
    variable that held [0] before. *)
Definition or_zero (m : result json) : result json :=
  match m with
  | Ok v => Ok v
  | Raise ValueError => Ok (JInt 0)
  | Raise TypeError => Ok (JInt 0)
  | Raise e => Raise e
  end.

Definition float_field (row : pluto_row) (key : string) : result json :=
  or_zero (f <- float_of (get_or_zero row key) ;; Ok (JFloat f)).

Definition int_field (row : pluto_row) (key : string) : result json :=
  or_zero (f <- float_of (get_or_zero row key) ;;
           n <- int_of_float f ;; Ok (JInt n)).

(** The head of the loop body: [None] for a row that [continue] skips,
    the coordinates for a row that goes on to [find_bid]. *)
Definition row_coords (row : pluto_row) : result (option coord) :=
  match float_of (get_default row (lit "longitude") (JInt 0)) with
  | Raise ValueError => Ok None
  | Raise TypeError => Ok None
  | Raise e => Raise e
  | Ok lon =>
      match float_of (get_default row (lit "latitude") (JInt 0)) with
      | Raise ValueError => Ok None
      | Raise TypeError => Ok None
      | Raise e => Raise e
      | Ok lat =>
          if (lon =? 0)%float || (lat =? 0)%float then Ok None
          else Ok (Some (lon, lat))
      end
  end.

(** The body of [for row in raw_lots]: the record appended, if any. *)
Definition row_parcel (bs : boundaries) (row : pluto_row)
    : result (option parcel) :=
  c <- row_coords row ;;
  match c with
  | None => Ok None
  | Some (lon, lat) =>
      bid_name <- find_bid lon lat bs ;;
      match bid_name with
      | None => Ok None
      | Some name =>
          assesstot <- float_field row "assesstot" ;;
          assessland <- float_field row "assessland" ;;
          numfloors <- float_field row "numfloors" ;;
          yearbuilt <- int_field row "yearbuilt" ;;
          lotarea <- float_field row "lotarea" ;;
          Ok (Some (mk_parcel lat lon assesstot assessland
                      (get_default row (lit "address") (JStr []))
                      (get_default row (lit "bbl") (JStr []))
                      bid_name
                      (get_default row (lit "bldgclass") (JStr []))
                      (get_default row (lit "landuse") (JStr []))
                      yearbuilt numfloors lotarea
                      (get_default BID_COLORS name gray)))
      end
  end.

Fixpoint assemble (bs : boundaries) (raw_lots : list pluto_row)
    (parcels : list parcel) : result (list parcel) :=
  match raw_lots with
  | [] => Ok parcels
  | row :: rest =>
      p <- row_parcel bs row ;;
      assemble bs rest
        (match p with Some x => parcels ++ [x] | None => parcels end)
  end.

(** The exported document. *)
Record output : Type := mk_output {
  parcels : list parcel;
  bid_boundaries : list feature
}.

(** Step A of [main]: the boundaries of the CSV, then the Gowanus one. *)
Definition load_stage (rows : list csv_row) : result boundaries :=
  bs <- load_bid_boundaries rows BROOKLYN_BIDS ;;
  Ok (set bs (lit "Gowanus BID (Proposed)") [GOWANUS_BOUNDARY]).

(** [main], from the rows of the CSV and the rows that the fetch returned
    to the document written. *)
Definition main (rows : list csv_row) (raw_lots : list pluto_row)
    : result output :=
  bs <- load_stage rows ;;
  ps <- assemble bs raw_lots [] ;;
  Ok (mk_output ps (build_geojson_boundaries bs)).

(** *** The tally of [main] *)

(** [bid_counts[bid_name] = bid_counts.get(bid_name, 0) + 1] *)
Definition count_bid (bid_counts : dict Z) (bid_name : str) : dict Z :=
  set bid_counts bid_name (get_default bid_counts bid_name 0 + 1)%Z.

(** The loop [for row in raw_lots] with its two accumulators, [parcels] and
    [bid_counts].  A record that is appended carries the name that
    [find_bid] gave, which is the key counted. *)
Fixpoint assemble_counts (bs : boundaries) (raw_lots : list pluto_row)
    (parcels : list parcel) (bid_counts : dict Z)
    : result (list parcel * dict Z) :=
  match raw_lots with
  | [] => Ok (parcels, bid_counts)
  | row :: rest =>
      p <- row_parcel bs row ;;
      match p with
      | Some x =>
          assemble_counts bs rest (parcels ++ [x])
            (match p_bid_name x with
             | Some bid_name => count_bid bid_counts bid_name
             | None => bid_counts
             end)
      | None => assemble_counts bs rest parcels bid_counts
      end
  end.

End Deckgl.

(** ** [generate_brooklyn_bids_table.py] *)

Module BidsTable.
Import Py.
Local Open Scope string_scope.

(** The decimal digits of a natural number. *)
Definition decimal (n : N) : string := NilZero.string_of_uint (N.to_uint n).

Fixpoint zeros (k : nat) : string :=
  match k with
  | O => ""
  | S k' => "0" ++ zeros k'
  end.

(** [m * 2^e * 10^d] rounded to an integer, ties to even. *)
Definition scaled_round (m : positive) (e : Z) (d : nat) : N :=
  let num := (Zpos m * 10 ^ Z.of_nat d)%Z in
  if (0 <=? e)%Z then Z.to_N (num * 2 ^ e)
  else
    let den := (2 ^ (- e))%Z in
    let q := (num / den)%Z in
    let r := (num mod den)%Z in
    let up :=
      match (2 * r ?= den)%Z with
      | Gt => true
      | Eq => Z.odd q
      | Lt => false
      end in
    Z.to_N (if up then q + 1 else q)%Z.

(** The digits of [n / 10^d] with [d] decimals. *)
Definition fixed_digits (n : N) (d : nat) : string :=
  let ds := decimal n in
  let ds := zeros (S d - String.length ds) ++ ds in
  let k := (String.length ds - d)%nat in
  match d with
  | O => ds
  | S _ => substring 0 k ds ++ "." ++ substring k d ds
  end.

(** The format [f'{x:.<d>f}'] of a float: the exact value of [x] rounded
    to [d] decimals, ties to even. *)
Definition format_fixed (d : nat) (x : float) : string :=
  match Prim2SF x with
  | S754_nan => "nan"
  | S754_infinity s => if s then "-inf" else "inf"
  | S754_zero s => (if s then "-" else "") ++ fixed_digits 0 d
  | S754_finite s m e =>
      (if s then "-" else "") ++ fixed_digits (scaled_round m e d) d
  end.

(** [format_currency]: a missing value is the float NaN of the data frame,
    for which [pd.isna] holds. *)
Definition format_currency (val : float) : string :=
  if is_nan val || (val =? 0)%float then "—"
  else if ge val 1000000 then "$" ++ format_fixed 1 (val / 1000000)%float ++ "M"
  else if ge val 1000 then "$" ++ format_fixed 0 (val / 1000)%float ++ "K"
  else "$" ++ format_fixed 0 val.

(** [format_currency_large]: one decimal for the thousands too. *)
Definition format_currency_large (val : float) : string :=
  if is_nan val || (val =? 0)%float then "—"
  else if ge val 1000000 then "$" ++ format_fixed 1 (val / 1000000)%float ++ "M"
  else if ge val 1000 then "$" ++ format_fixed 1 (val / 1000)%float ++ "K"
  else "$" ++ format_fixed 0 val.

(** The digits of the format [f'{n:,}'], last digit first: a comma after
    every third digit that has a digit after it.  [k] is the number of
    digits written since the last comma. *)
Fixpoint commas_rev (ds : list ascii) (k : nat) : list ascii :=
  match ds with
  | [] => []
  | d :: ds' =>
      if Nat.eqb k 3 then ch "," :: d :: commas_rev ds' 1
      else d :: commas_rev ds' (S k)
  end.

(** [f'{n:,}'] for an integer. *)
Definition format_grouped (n : Z) : string :=
  (if (n <? 0)%Z then "-" else "")
  ++ string_of_list_ascii
       (rev (commas_rev (rev (list_ascii_of_string (decimal (Z.abs_N n)))) 0)).

(** [format_number]: the value is a float of the data frame; [int(val)]
    truncates it. *)
Definition format_number (val : float) : result string :=
  if is_nan val || (val =? 0)%float then Ok "—"
  else match int_of_float val with
       | Ok n => Ok (format_grouped n)
       | Raise e => Raise e
       end.

End BidsTable.

(** ** What the properties are stated with *)

Module Spec.
Import Py Deckgl.
Local Open Scope py_scope.

(** *** Text *)

(** White space only. *)
Definition blank (s : str) : Prop := Forall (fun c => is_space c = true) s.

(** A word: characters that are not white space, at least one. *)
Definition word (t : str) : Prop :=
  t <> [] /\ Forall (fun c => is_space c = false) t.

(** *** The text of a multipolygon

    Well-known text in two dimensions, with optional white space wherever
    the format allows it: a keyword, then the word EMPTY or the polygon
    parts between parentheses; a part is the word EMPTY or its rings
    between parentheses, the exterior one first; a ring is its points
    between parentheses; a point is two numbers.  Each relation gives the
    text together with what it denotes. *)

(** A character of a number: no white space, parenthesis or comma. *)
Definition token_char (c : ascii) : Prop :=
  is_space c = false /\ c <> lparen /\ c <> rparen /\ c <> comma.

(** A number: a text of such characters that [float] reads as [x]. *)
Definition number_text (t : str) (x : float) : Prop :=
  t <> [] /\ Forall token_char t /\ float_of_str t = Ok x.

Inductive point_text : str -> coord -> Prop :=
| point_intro (w0 a w1 b w2 : str) (x y : float) :
    blank w0 -> number_text a x -> blank w1 -> w1 <> [] ->
    number_text b y -> blank w2 ->
    point_text (w0 ++ a ++ w1 ++ b ++ w2) (x, y).

Inductive points_text : str -> ring -> Prop :=
| points_one (s : str) (c : coord) : point_text s c -> points_text s [c]
| points_cons (s t : str) (c : coord) (r : ring) :
    point_text s c -> points_text t r ->
    points_text (s ++ comma :: t) (c :: r).

Inductive ring_text : str -> ring -> Prop :=
| ring_intro (s : str) (r : ring) :
    points_text s r -> ring_text (lparen :: s ++ [rparen]) r.

(** The interior rings of a part, each after a comma. *)
Inductive holes_text : str -> Prop :=
| holes_nil (w : str) : blank w -> holes_text w
| holes_cons (w w' s t : str) (r : ring) :
    blank w -> blank w' -> ring_text s r -> holes_text t ->
    holes_text (w ++ comma :: w' ++ s ++ t).

(** A polygon part, with its exterior ring. *)
Inductive polygon_text : str -> ring -> Prop :=
| polygon_intro (w s t : str) (r : ring) :
    blank w -> ring_text s r -> holes_text t ->
    polygon_text (lparen :: w ++ s ++ t ++ [rparen]) r.

(** The word EMPTY, in any case. *)
Definition empty_word (t : str) : Prop := upper t = lit "EMPTY".

(** A part: a polygon with its exterior ring, or the word EMPTY, which
    denotes no polygon. *)
Inductive part_text : str -> option ring -> Prop :=
| part_polygon (s : str) (r : ring) :
    polygon_text s r -> part_text s (Some r)
| part_empty (t : str) : empty_word t -> part_text t None.

(** The parts in order, each with its exterior ring if it has one. *)
Inductive parts_text : str -> list (option ring) -> Prop :=
| parts_one (s : str) (p : option ring) :
    part_text s p -> parts_text s [p]
| parts_cons (s w w' t : str) (p : option ring) (ps : list (option ring)) :
    part_text s p -> blank w -> blank w' -> parts_text t ps ->
    parts_text (s ++ w ++ comma :: w' ++ t) (p :: ps).

Inductive multipolygon_text : str -> list (option ring) -> Prop :=
| multipolygon_intro (w0 kw w1 w2 s w3 w4 : str) (ps : list (option ring)) :
    blank w0 -> upper kw = lit "MULTIPOLYGON" -> blank w1 -> blank w2 ->
    parts_text s ps -> blank w3 -> blank w4 ->
    multipolygon_text
      (w0 ++ kw ++ w1 ++ lparen :: w2 ++ s ++ w3 ++ rparen :: w4) ps
| multipolygon_empty (w0 kw w1 t w2 : str) :
    blank w0 -> upper kw = lit "MULTIPOLYGON" -> blank w1 -> w1 <> [] ->
    empty_word t -> blank w2 ->
    multipolygon_text (w0 ++ kw ++ w1 ++ t ++ w2) [].

(** The exterior rings of the parts that have one, in order. *)
Definition exterior_rings (ps : list (option ring)) : list ring :=
  flat_map (fun p : option ring => match p with Some r => [r] | None => [] end)
    ps.

(** No parenthesis. *)
Definition plain (s : str) : Prop :=
  Forall (fun c => c <> lparen /\ c <> rparen) s.

(** Parentheses that match. *)
Inductive nest : str -> Prop :=
| nest_nil : nest []
| nest_char (c : ascii) (s : str) :
    c <> lparen -> c <> rparen -> nest s -> nest (c :: s)
| nest_group (s t : str) :
    nest s -> nest t -> nest (lparen :: s ++ rparen :: t).

(** The text of the first group of a block, as the second loop takes it. *)
Definition block_ring (b : str) : option str :=
  let pb := strip_block b in scan_ring pb pb 0 0 None.

(** The ring texts of the blocks that have one. *)
Definition texts_of (blocks : list str) : list str :=
  flat_map (fun b => match block_ring b with Some t => [t] | None => [] end)
    blocks.

(** The ring texts whose items the parser converts, in order. *)
Definition exterior_texts (wkt : str) : list str :=
  let inner := strip_wrapper wkt in
  texts_of (scan_polygons inner inner 0 0 None []).

(** An item with fewer than two fields, or whose first two fields are
    float literals. *)
Definition item_ok (item : str) : Prop :=
  match split_ws (strip item) with
  | p0 :: p1 :: _ =>
      (exists x, float_of_str p0 = Ok x) /\ (exists y, float_of_str p1 = Ok y)
  | _ => True
  end.

(** *** Boundaries and their box *)

(** Every coordinate pair of every ring of the mapping, in order. *)
Definition coords_of (bs : boundaries) : list coord :=
  flat_map (fun kv : str * list ring => List.concat (snd kv)) bs.

Definition finite_coord (c : coord) : Prop :=
  finite (fst c) = true /\ finite (snd c) = true.

(** All four components of a box are finite numbers. *)
Definition finite_box (b : float * float * float * float) : Prop :=
  let '(w, s, e, n) := b in
  finite w = true /\ finite s = true /\ finite e = true /\ finite n = true.

(** Every value of the mapping is a list of rings that is not empty, and
    none of its rings is empty. *)
Definition well_formed (kv : str * list ring) : Prop :=
  snd kv <> [] /\ Forall (fun r : ring => r <> []) (snd kv).

(** *** Pages *)

(** The page size as a count of rows. *)
Definition page : nat := Z.to_nat PAGE_SIZE.

(** [n] offsets from [off], one page apart. *)
Fixpoint offsets (n : nat) (off : Z) : list Z :=
  match n with
  | O => []
  | S n' => off :: offsets n' (off + PAGE_SIZE)
  end.

(** *** Points and parcels *)

(** The ring contains the point under the ray-cast test. *)
Definition contains (lon lat : float) (r : ring) : Prop :=
  point_in_ring lon lat r = Ok true.

(** Some exterior ring of the boundary contains the point. *)
Definition covers (lon lat : float) (rings : list ring) : Prop :=
  Exists (contains lon lat) rings.

(** The ring has an edge whose two endpoints are at latitude [lat]: vertex
    [i] and the vertex before it, the last one for [i = 0]. *)
Definition horizontal_edge_at (lat : float) (r : ring) : Prop :=
  exists i vi vj,
    nth_error r i = Some vi
    /\ nth_error r (if Nat.eqb i 0 then List.length r - 1 else i - 1) = Some vj
    /\ (snd vi =? lat)%float = true /\ (snd vj =? lat)%float = true.

Definition outside (lon lat : float) (kv : str * list ring) : Prop :=
  ~ covers lon lat (snd kv).

(** What the loop body appends: a record of the row's coordinates, named
    after the first boundary that covers them. *)
Definition assigned (bs : boundaries) (p : parcel) : Prop :=
  exists name,
    p_bid_name p = Some name
    /\ find_bid (p_lon p) (p_lat p) bs = Ok (Some name).

(** The value read for a coordinate field: a missing field reads as [0]. *)
Definition lon_field (row : pluto_row) : json :=
  get_default row (lit "longitude") (JInt 0).

Definition lat_field (row : pluto_row) : json :=
  get_default row (lit "latitude") (JInt 0).

(** [float(v)] raises one of the two exceptions that the loop catches. *)
Definition unparseable (v : json) : Prop :=
  float_of v = Raise ValueError \/ float_of v = Raise TypeError.

(** *** Edges and crossings *)

(** The edge test as a boolean: what [crosses] returns. *)
Definition crossing (lon lat : float) (vi vj : coord) : bool :=
  negb (Bool.eqb (gt (snd vi) lat) (gt (snd vj) lat))
  && (lon <? (fst vj - fst vi) * (lat - snd vi) / (snd vj - snd vi)
             + fst vi)%float.

(** The vertices of [r], each paired with the one that the loop holds as
    [ring[j]] when it reaches it; [a] is the one held at the start. *)
Definition edges_from (a : coord) (r : ring) : list (coord * coord) :=
  combine r (a :: r).

(** The pairs [(ring[i], ring[j])] that the loop of [point_in_ring] visits:
    each vertex with the one before it, the first one with the last. *)
Definition ring_edges (r : ring) : list (coord * coord) :=
  edges_from (last r (0, 0)%float) r.

(** The flag [inside] after the edges [es]. *)
Definition toggles (lon lat : float) (es : list (coord * coord))
    (inside : bool) : bool :=
  fold_left
    (fun b e => if crossing lon lat (fst e) (snd e) then negb b else b)
    es inside.

(** *** Records and features *)

(** The record that the loop body appends for a row, if any. *)
Definition emitted (bs : boundaries) (row : pluto_row) : list parcel :=
  match row_parcel bs row with
  | Ok (Some p) => [p]
  | _ => []
  end.

(** The record carries the name. *)
Definition named (name : str) (p : parcel) : bool :=
  match p_bid_name p with
  | Some n => str_eqb n name
  | None => false
  end.

(** Reading a GeoJSON position, and the exterior rings of the coordinates
    of a [MultiPolygon]. *)
Definition position_coord (pos : list float) : coord :=
  (nth 0 pos 0%float, nth 1 pos 0%float).

Definition coordinates_rings (polys : list (list (list (list float))))
    : list ring :=
  map (fun poly => map position_coord (hd [] poly)) polys.

(** *** Rows of the CSV *)

(** The two cells that [load_bid_boundaries] reads in a row: a column that
    the header lacks reads as the empty text. *)
Definition name_cell (row : csv_row) : cell :=
  get_default row (lit "F_ALL_BI_2") (Some []).

Definition row_geom (row : csv_row) : cell :=
  get_default row (lit "the_geom") (Some []).

(** The name of the row, white space around it removed. *)
Definition row_name (row : csv_row) : result str := cell_strip (name_cell row).

(** The row is one of the target set. *)
Definition selected (bid_names : list str) (row : csv_row) : result bool :=
  name <- row_name row ;; Ok (mem name bid_names).

(** The row stops the loader: its name cell is missing, or it is of the
    target set and its geometry cell is missing or holds a text on which
    the parser raises. *)
Definition stops (bid_names : list str) (row : csv_row) : Prop :=
  name_cell row = None
  \/ (selected bid_names row = Ok true
      /\ (row_geom row = None
          \/ exists wkt,
               row_geom row = Some wkt
               /\ parse_wkt_multipolygon wkt = Raise ValueError)).

(** The line of the row was too short for one of the two columns. *)
Definition short (row : csv_row) : Prop :=
  name_cell row = None \/ row_geom row = None.

(** What the tally holds while the loop runs: distinct names, each with
    the number of records so far that carry it. *)
Definition tally_ok (ps : list parcel) (bid_counts : dict Z) : Prop :=
  NoDup (keys bid_counts)
  /\ Forall (fun kv : str * Z => (1 <= snd kv)%Z) bid_counts
  /\ (forall name,
         get_default bid_counts name 0%Z
         = Z.of_nat (List.length (filter (named name) ps)))
  /\ fold_right Z.add 0%Z (map snd bid_counts) = Z.of_nat (List.length ps).

(** *** Pages served *)

(** The rows that the server gives at an offset; none when it fails. *)
Definition served (srv : server) (off : Z) : list pluto_row :=
  match srv off with
  | Ok batch => batch
  | Raise _ => []
  end.

(** *** Grouped digits *)

Definition is_comma (c : ascii) : bool := Ascii.eqb c (ch ",").

(** The text without its commas. *)
Definition ungroup (s : string) : string :=
  string_of_list_ascii
    (filter (fun c => negb (is_comma c)) (list_ascii_of_string s)).

(** The character at place [i] of the text counted from its end, the last
    one being at place 0. *)
Definition from_end (s : string) (i : nat) : option ascii :=
  nth_error (rev (list_ascii_of_string s)) i.

End Spec.

(** ** Sample inputs *)

Module Samples.
Import Py Deckgl.

Definition unit_square : ring := [(0, 0); (0, 1); (1, 1); (1, 0)]%float.

(** One ring spanning longitudes [-74.0, -73.9] and latitudes
    [40.6, 40.7]. *)
Definition span_example : boundaries :=
  [(lit "A", [[(-74.0, 40.6); (-73.9, 40.7)]%float])].

Definition dumbo_row : csv_row :=
  [(lit "F_ALL_BI_2", Some (lit " DUMBO "));
   (lit "the_geom",
    Some (lit "MULTIPOLYGON (((-73.99 40.70, -73.98 40.70, -73.98 40.71, -73.99 40.70)))"))].

(** A geometry whose numbers are beyond the floats. *)
Definition huge_row : csv_row :=
  [(lit "F_ALL_BI_2", Some (lit "DUMBO"));
   (lit "the_geom", Some (lit "MULTIPOLYGON (((1e999 40.70, inf 40.71)))"))].

(** A line that stops before the column of the names: the reader gives
    [None] for the cell. *)
Definition short_row : csv_row :=
  [(lit "the_geom", Some (lit "MULTIPOLYGON EMPTY"));
   (lit "F_ALL_BI_2", None)].

(** A parcel inside the Gowanus boundary and one far to the east of it; no
    CSV row at all. *)
Definition sample_lots : list pluto_row :=
  [ [(lit "bbl", JStr (lit "3004250001"));
     (lit "longitude", JStr (lit "-73.9885"));
     (lit "latitude", JStr (lit "40.6790"))];
    [(lit "longitude", JStr (lit "-73.5"));
     (lit "latitude", JStr (lit "40.6790"))] ].

(** A source of 120001 rows. *)
Definition source_120001 : list pluto_row := repeat [] (Z.to_nat 120001).

(** Two parts; the second one has an interior ring. *)
Definition two_parts : str :=
  lit "MULTIPOLYGON (((1 2, 3 4)), ((5 6), (7 8)))".

(** Two parts, the first of which is empty. *)
Definition empty_part : str :=
  lit "MULTIPOLYGON (EMPTY, ((1 2, 3 4, 5 6, 1 2)))".

(** One part with three numbers per point, as the tag announces. *)
Definition tagged : str :=
  lit "MULTIPOLYGON Z (((1 2 3, 4 5 6, 7 8 9, 1 2 3)))".

(** An item of one field, an empty ring and a lone word are skipped. *)
Definition sloppy : str := lit "MULTIPOLYGON(((1 2, 3)), (()), ((x)))".

(** A lot inside the Gowanus boundary whose year of construction reads as
    an infinity. *)
Definition endless_lot : pluto_row :=
  [(lit "longitude", JStr (lit "-73.9885"));
   (lit "latitude", JStr (lit "40.6790"));
   (lit "yearbuilt", JStr (lit "inf"))].

(** The mapping of a run without a CSV row: the Gowanus boundary alone. *)
Definition gowanus_only : boundaries :=
  [(lit "Gowanus BID (Proposed)", [GOWANUS_BOUNDARY])].

(** A server that ignores the offset and always answers with a full
    page. *)
Definition stuck_server : server := fun _ => Ok (repeat [] (Z.to_nat PAGE_SIZE)).

(** A server that gives one full page and then fails. *)
Definition failing_server : server :=
  fun off => if (off =? 0)%Z then Ok (repeat [] (Z.to_nat PAGE_SIZE))
             else Raise HTTPError.

End Samples.

(** ** Facts on the runtime model *)

Module PyFacts.
Import Py.
Local Open Scope py_scope.

(** Splitting a successful [bind]. *)
Lemma bind_ok {A B : Type} (m : result A) (k : A -> result B) (b : B) :
  bind m k = Ok b -> exists a, m = Ok a /\ k a = Ok b.
Proof. destruct m as [a|e]; simpl; [eauto|discriminate]. Qed.

Ltac bind_inv H :=
  let a := fresh "a" in
  let Ha := fresh "Ha" in
  apply bind_ok in H; destruct H as (a & Ha & H).

Lemma str_eqb_eq (a b : str) : str_eqb a b = true <-> a = b.
Proof.
  unfold str_eqb. destruct (list_eq_dec ascii_dec a b); split; intros H;
    try reflexivity; try assumption; try discriminate. contradiction.
Qed.

Lemma mem_In (x : str) (l : list str) : mem x l = true <-> In x l.
Proof.
  unfold mem. rewrite existsb_exists. split.
  - intros (y & Hy & E). apply str_eqb_eq in E. subst. exact Hy.
  - intros H. exists x. split; [exact H|apply str_eqb_eq; reflexivity].
Qed.

Lemma keys_set {V : Type} (d : dict V) (k : str) (v : V) :
  keys (set d k v) = if mem k (keys d) then keys d else keys d ++ [k].
Proof.
  induction d as [|[k' v'] d IH]; simpl; [reflexivity|].
  destruct (str_eqb k k') eqn:E; simpl.
  - apply str_eqb_eq in E. subst. reflexivity.
  - unfold keys in *. rewrite IH. unfold mem.
    destruct (existsb (str_eqb k) (map fst d)); reflexivity.
Qed.

Lemma NoDup_keys_set {V : Type} (d : dict V) (k : str) (v : V) :
  NoDup (keys d) -> NoDup (keys (set d k v)).
Proof.
  intros H. rewrite keys_set. destruct (mem k (keys d)) eqn:E; [exact H|].
  apply NoDup_app; [exact H|repeat constructor; simpl; tauto|].
  intros x Hx [<-|[]]. apply mem_In in Hx. congruence.
Qed.

Lemma In_keys_set {V : Type} (d : dict V) (k : str) (v : V) :
  In k (keys (set d k v)).
Proof.
  rewrite keys_set. destruct (mem k (keys d)) eqn:E.
  - apply mem_In. exact E.
  - apply in_or_app. right. left. reflexivity.
Qed.

Lemma Forall_set {V : Type} (P : str * V -> Prop) (d : dict V) (k : str)
    (v : V) :
  Forall P d -> P (k, v) -> Forall P (set d k v).
Proof.
  induction d as [|[k' v'] d IH]; intros Hd Hkv; simpl.
  - constructor; [exact Hkv|constructor].
  - inversion Hd; subst. destruct (str_eqb k k').
    + constructor; assumption.
    + constructor; [assumption|apply IH; assumption].
Qed.

Lemma NoDup_map_unique {A B : Type} (f : A -> B) (l : list A) (x y : A) :
  NoDup (map f l) -> In x l -> In y l -> f x = f y -> x = y.
Proof.
  induction l as [|a l IH]; simpl; intros Hnd Hx Hy E; [contradiction|].
  inversion Hnd as [|? ? Hnot Hnd']; subst.
  destruct Hx as [->|Hx], Hy as [->|Hy]; auto.
  - exfalso. apply Hnot. rewrite E. apply in_map. exact Hy.
  - exfalso. apply Hnot. rewrite <- E. apply in_map. exact Hx.
Qed.

End PyFacts.

(** ** Facts on binary64 arithmetic *)

Module FloatFacts.
Import Py Deckgl.

(** Comparison of the specification floats. *)

Lemma SFcompare_antisym (x y : spec_float) :
  SFcompare y x = option_map CompOpp (SFcompare x y).
Proof.
  destruct x as [sx|sx| |sx mx ex], y as [sy|sy| |sy my ey]; simpl;
    try reflexivity;
    try (destruct sx; reflexivity);
    try (destruct sy; reflexivity);
    try (destruct sx, sy; reflexivity).
  destruct sx, sy; simpl; try reflexivity;
    rewrite (Z.compare_antisym ex ey);
    destruct (ex ?= ey)%Z; simpl; try reflexivity;
    rewrite !Pos.compare_cont_spec; simpl;
    rewrite (Pos.compare_antisym mx my);
    destruct (mx ?= my)%positive; reflexivity.
Qed.

Lemma SFltb_trans (x y z : spec_float) :
  SFltb x y = true -> SFltb y z = true -> SFltb x z = true.
Proof.
  unfold SFltb.
  destruct x as [sx|sx| |sx mx ex], y as [sy|sy| |sy my ey],
    z as [sz|sz| |sz mz ez]; simpl;
    try discriminate;
    try (destruct sx; simpl; try discriminate; try reflexivity);
    try (destruct sy; simpl; try discriminate; try reflexivity);
    try (destruct sz; simpl; try discriminate; try reflexivity).
  all: destruct (Z.compare_spec ex ey), (Z.compare_spec ey ez),
         (Z.compare_spec ex ez); simpl; try discriminate; try reflexivity;
       try lia; subst;
       rewrite ?Pos.compare_cont_spec; simpl;
       destruct (Pos.compare_spec mx my), (Pos.compare_spec my mz),
         (Pos.compare_spec mx mz); simpl; try discriminate; try reflexivity;
       try lia.
Qed.

(** Shifting and rounding of mantissas. *)

Lemma digits2_bounds (m : positive) :
  (2 ^ (Zpos (digits2_pos m) - 1) <= Zpos m < 2 ^ Zpos (digits2_pos m))%Z.
Proof.
  induction m as [m IH|m IH|]; simpl digits2_pos.
  - rewrite Pos2Z.inj_succ.
    replace (Z.succ (Zpos (digits2_pos m)) - 1)%Z
      with (Z.succ (Zpos (digits2_pos m) - 1))%Z by lia.
    rewrite !Z.pow_succ_r by lia. lia.
  - rewrite Pos2Z.inj_succ.
    replace (Z.succ (Zpos (digits2_pos m)) - 1)%Z
      with (Z.succ (Zpos (digits2_pos m) - 1))%Z by lia.
    rewrite !Z.pow_succ_r by lia. lia.
  - simpl. lia.
Qed.

Lemma digits2_unique (m : positive) (d : Z) :
  (2 ^ (d - 1) <= Zpos m < 2 ^ d)%Z -> (0 < d)%Z -> Zpos (digits2_pos m) = d.
Proof.
  intros [Hlo Hhi] Hd.
  destruct (digits2_bounds m) as [Hlo' Hhi'].
  destruct (Z.lt_trichotomy (Zpos (digits2_pos m)) d) as [H|[H|H]]; auto.
  - assert (2 ^ Zpos (digits2_pos m) <= 2 ^ (d - 1))%Z
      by (apply Z.pow_le_mono_r; lia). lia.
  - assert (2 ^ d <= 2 ^ (Zpos (digits2_pos m) - 1))%Z
      by (apply Z.pow_le_mono_r; lia). lia.
Qed.

Lemma iter_pos_nat {A : Type} (f : A -> A) (p : positive) (x : A) :
  iter_pos f p x = Nat.iter (Pos.to_nat p) f x.
Proof.
  revert x. induction p as [p IH|p IH|]; intro x; simpl iter_pos.
  - rewrite !IH, Pos2Nat.inj_xI. simpl.
    rewrite <- Nat.iter_swap, Nat.add_0_r, Nat.iter_add. reflexivity.
  - rewrite !IH, Pos2Nat.inj_xO. simpl.
    rewrite Nat.add_0_r, Nat.iter_add. reflexivity.
  - reflexivity.
Qed.

Lemma shr_1_m (r : shr_record) :
  (0 <= shr_m r)%Z -> shr_m (shr_1 r) = (shr_m r / 2)%Z.
Proof.
  destruct r as [m r s]; simpl. intros Hm.
  destruct m as [|p|p]; try lia; [reflexivity|].
  destruct p as [p|p|]; simpl shr_m.
  - rewrite Pos2Z.inj_xI.
    apply Z.div_unique with (r := 1%Z); lia.
  - rewrite Pos2Z.inj_xO.
    apply Z.div_unique with (r := 0%Z); lia.
  - reflexivity.
Qed.

Lemma shr_1_r (r : shr_record) :
  (0 <= shr_m r)%Z -> shr_r (shr_1 r) = Z.odd (shr_m r).
Proof.
  destruct r as [m r s]; simpl. intros Hm.
  destruct m as [|p|p]; try lia; [reflexivity|].
  destruct p; reflexivity.
Qed.

Lemma shr_iter_m (n : nat) (r : shr_record) :
  (0 <= shr_m r)%Z ->
  shr_m (Nat.iter n shr_1 r) = (shr_m r / 2 ^ Z.of_nat n)%Z.
Proof.
  intros Hm. induction n as [|n IH].
  - simpl. rewrite Z.div_1_r. reflexivity.
  - rewrite Nat2Z.inj_succ, Z.pow_succ_r by lia. simpl Nat.iter.
    rewrite shr_1_m, IH.
    + rewrite Z.div_div by (try apply Z.pow_pos_nonneg; lia).
      f_equal. lia.
    + rewrite IH. apply Z.div_pos; [lia|apply Z.pow_pos_nonneg; lia].
Qed.

Lemma shr_iter_r (n : nat) (r : shr_record) :
  (0 <= shr_m r)%Z ->
  shr_r (Nat.iter (S n) shr_1 r) = Z.testbit (shr_m r) (Z.of_nat n).
Proof.
  intros Hm. simpl Nat.iter.
  rewrite shr_1_r, shr_iter_m by
    (try rewrite shr_iter_m by lia;
     try (apply Z.div_pos; [lia|apply Z.pow_pos_nonneg; lia]); lia).
  rewrite Z.testbit_odd, Z.shiftr_div_pow2 by lia. reflexivity.
Qed.

Lemma shr_record_of_loc_m (m : Z) (l : location) :
  shr_m (shr_record_of_loc m l) = m.
Proof. destruct l as [|[ | | ]]; reflexivity. Qed.

(** What [shr] leaves of a positive mantissa. *)
Lemma shr_m_spec (r : shr_record) (e n : Z) :
  (0 <= shr_m r)%Z ->
  shr_m (fst (shr r e n)) = (shr_m r / 2 ^ Z.max 0 n)%Z
  /\ snd (shr r e n) = (e + Z.max 0 n)%Z.
Proof.
  intros Hm. destruct n as [|p|p]; simpl.
  - rewrite Z.div_1_r. split; [reflexivity|lia].
  - rewrite iter_pos_nat, shr_iter_m by lia.
    rewrite positive_nat_Z. split; [reflexivity|lia].
  - rewrite Z.div_1_r. split; [reflexivity|lia].
Qed.

Lemma shr_r_spec (r : shr_record) (e : Z) (p : positive) :
  (0 <= shr_m r)%Z ->
  shr_r (fst (shr r e (Zpos p))) = Z.testbit (shr_m r) (Zpos p - 1).
Proof.
  intros Hm. unfold shr. cbn [fst]. rewrite iter_pos_nat.
  destruct (Pos2Nat.is_succ p) as [n Hn].
  assert (Hp : (Zpos p - 1 = Z.of_nat n)%Z)
    by (rewrite <- (positive_nat_Z p), Hn; lia).
  rewrite Hn, Hp. apply shr_iter_r. exact Hm.
Qed.

Lemma fexp64 (e : Z) : fexp prec emax e = Z.max (e - 53) (-1074).
Proof. reflexivity. Qed.

Lemma pow2_pos (n : Z) : (0 <= n -> 0 < 2 ^ n)%Z.
Proof. intros. apply Z.pow_pos_nonneg; lia. Qed.

Lemma Zdigits2_pos_bounds (m : Z) :
  (0 < m)%Z -> (2 ^ (Zdigits2 m - 1) <= m < 2 ^ Zdigits2 m)%Z /\ (0 < Zdigits2 m)%Z.
Proof.
  destruct m as [|p|p]; try lia. intros _. simpl Zdigits2.
  split; [apply digits2_bounds|lia].
Qed.

Lemma Zdigits2_le (m : Z) (d : Z) :
  (0 < m)%Z -> (m < 2 ^ d)%Z -> (Zdigits2 m <= d)%Z.
Proof.
  intros Hm Hd. destruct (Zdigits2_pos_bounds m Hm) as [[Hlo _] Hpos].
  destruct (Z_lt_le_dec d (Zdigits2 m)) as [H|H]; [|exact H].
  assert (d < 0 \/ 0 <= d)%Z as [Hneg|Hnn] by lia.
  - rewrite Z.pow_neg_r in Hd by lia. lia.
  - assert (2 ^ d <= 2 ^ (Zdigits2 m - 1))%Z by (apply Z.pow_le_mono_r; lia).
    lia.
Qed.

(** The first step of a rounding: the mantissa is shifted to the exponent
    that [fexp] asks for, and stays positive. *)
Lemma shr_fexp_facts (m e : Z) (l : location) (mrs : shr_record) (e' : Z) :
  (0 < m)%Z -> (-1074 <= e)%Z ->
  shr_fexp prec emax m e l = (mrs, e') ->
  let n := Z.max 0 (fexp prec emax (Zdigits2 m + e) - e) in
  e' = (e + n)%Z /\ shr_m mrs = (m / 2 ^ n)%Z /\ (0 < shr_m mrs)%Z
  /\ (shr_m mrs < 2 ^ (Zdigits2 m - n))%Z.
Proof.
  intros Hm He H n. unfold shr_fexp in H.
  pose proof (shr_m_spec (shr_record_of_loc m l) e
                (fexp prec emax (Zdigits2 m + e) - e)) as Hs.
  rewrite shr_record_of_loc_m in Hs. specialize (Hs ltac:(lia)).
  rewrite H in Hs. simpl fst in Hs. simpl snd in Hs. fold n in Hs.
  destruct Hs as [Hs1 Hs2].
  destruct (Zdigits2_pos_bounds m Hm) as [[Hlo Hhi] Hd].
  assert (Hn : (0 <= n <= Zdigits2 m - 1)%Z)
    by (unfold n; rewrite fexp64; lia).
  assert (H2n : (0 < 2 ^ n)%Z) by (apply pow2_pos; lia).
  repeat split; auto.
  - rewrite Hs1. apply Z.div_str_pos. split; [lia|].
    apply Z.le_trans with (2 ^ (Zdigits2 m - 1))%Z; [|lia].
    apply Z.pow_le_mono_r; lia.
  - rewrite Hs1. apply Z.div_lt_upper_bound; [lia|].
    rewrite <- Z.pow_add_r by lia.
    replace (n + (Zdigits2 m - n))%Z with (Zdigits2 m) by lia. lia.
Qed.

Lemma rne_bounds (m : Z) (l : location) :
  (m <= round_nearest_even m l <= m + 1)%Z.
Proof.
  destruct l as [|[ | | ]]; simpl; try lia.
  destruct (Z.even m); lia.
Qed.

Lemma rne_low (m : Z) (r : shr_record) :
  shr_r r = false -> round_nearest_even m (loc_of_shr_record r) = m.
Proof.
  destruct r as [m' [|] [|]]; simpl; intros H; try discriminate; reflexivity.
Qed.

(** A rounding of a positive mantissa never yields a zero or a NaN. *)
Lemma binary_round_aux_nonzero (s : bool) (m e : Z) (l : location) :
  (0 < m)%Z -> (-1074 <= e)%Z ->
  match binary_round_aux prec emax s m e l with
  | S754_finite s' _ _ => s' = s
  | S754_infinity s' => s' = s
  | _ => False
  end.
Proof.
  intros Hm He. unfold binary_round_aux.
  destruct (shr_fexp prec emax m e l) as [mrs' e'] eqn:E1.
  destruct (shr_fexp_facts _ _ _ _ _ Hm He E1) as (He' & Hm1 & Hpos1 & _).
  pose proof (rne_bounds (shr_m mrs') (loc_of_shr_record mrs')) as Hr.
  destruct (shr_fexp prec emax _ e' loc_Exact) as [mrs'' e''] eqn:E2.
  apply shr_fexp_facts in E2; [|lia|lia].
  destruct E2 as (_ & _ & Hpos2 & _).
  destruct (shr_m mrs''); try lia.
  destruct (e'' <=? emax - prec)%Z; reflexivity.
Qed.

(** When the rounded mantissa does not reach [2^53] in the last binade, or
    the number is below that binade, the rounding is finite. *)
Lemma binary_round_aux_finite (s : bool) (m e : Z) (l : location) :
  (0 < m)%Z -> (-1074 <= e)%Z ->
  let F := fexp prec emax (Zdigits2 m + e) in
  (e <= F)%Z ->
  (F <= 970
   \/ F = 971
      /\ round_nearest_even (m / 2 ^ (F - e))
           (loc_of_shr_record (fst (shr_fexp prec emax m e l))) < 2 ^ 53)%Z ->
  exists m' e', binary_round_aux prec emax s m e l = S754_finite s m' e'.
Proof.
  intros Hm He F HeF Hcase. unfold binary_round_aux.
  destruct (shr_fexp prec emax m e l) as [mrs' e'] eqn:E1.
  destruct (shr_fexp_facts _ _ _ _ _ Hm He E1) as (He' & Hm1 & Hpos1 & Hlt1).
  fold F in He', Hm1, Hlt1.
  replace (Z.max 0 (F - e)) with (F - e)%Z in * by lia.
  replace (e + (F - e))%Z with F in He' by lia. subst e'.
  simpl fst in Hcase.
  pose proof (rne_bounds (shr_m mrs') (loc_of_shr_record mrs')) as Hr.
  set (m2 := round_nearest_even (shr_m mrs') (loc_of_shr_record mrs')) in *.
  assert (HF : (-1074 <= F)%Z) by (unfold F; rewrite fexp64; lia).
  assert (Hm1' : (shr_m mrs' < 2 ^ 53)%Z).
  { eapply Z.lt_le_trans; [exact Hlt1|].
    apply Z.pow_le_mono_r; [lia|]. unfold F. rewrite fexp64. lia. }
  assert (Hm2 : (0 < m2 <= 2 ^ 53)%Z) by lia.
  assert (Hd2 : (Zdigits2 m2 <= 54)%Z).
  { apply Zdigits2_le; [lia|]. change (2 ^ 54)%Z with (2 * 2 ^ 53)%Z. lia. }
  destruct (shr_fexp prec emax m2 F loc_Exact) as [mrs'' e''] eqn:E2.
  destruct (shr_fexp_facts _ _ _ _ _ (proj1 Hm2) HF E2) as (He'' & _ & Hpos2 & _).
  assert (Hfin : (e'' <= 971)%Z).
  { rewrite He'', fexp64. destruct Hcase as [Hc|[Hc Hc2]]; [lia|].
    rewrite <- Hm1 in Hc2. fold m2 in Hc2.
    assert (Zdigits2 m2 <= 53)%Z by (apply Zdigits2_le; lia). lia. }
  destruct (shr_m mrs'') as [|q|q]; try lia.
  change (emax - prec)%Z with 971%Z.
  destruct (Z.leb_spec e'' 971); [|lia]. eauto.
Qed.

Lemma iter_xO (m d : positive) :
  Zpos (Pos.iter xO m d) = (Zpos m * 2 ^ Zpos d)%Z.
Proof.
  induction d as [|d IH] using Pos.peano_ind.
  - simpl. lia.
  - rewrite Pos.iter_succ, Pos2Z.inj_xO, IH, Pos2Z.inj_succ.
    rewrite Z.pow_succ_r by lia. lia.
Qed.

Lemma shl_align_spec (mx : positive) (ex ex' : Z) :
  snd (shl_align mx ex ex') = Z.min ex ex'
  /\ Zpos (fst (shl_align mx ex ex')) = (Zpos mx * 2 ^ (ex - Z.min ex ex'))%Z.
Proof.
  unfold shl_align. destruct (ex' - ex)%Z as [|d|d] eqn:E; simpl.
  - replace (Z.min ex ex') with ex by lia. rewrite Z.sub_diag. simpl. lia.
  - replace (Z.min ex ex') with ex by lia. rewrite Z.sub_diag. simpl. lia.
  - replace (Z.min ex ex') with ex' by lia.
    replace (ex - ex')%Z with (Zpos d) by lia. split; [reflexivity|apply iter_xO].
Qed.

Lemma digits2_shift (m m' : positive) (k : Z) :
  (0 <= k)%Z -> Zpos m' = (Zpos m * 2 ^ k)%Z ->
  Zpos (digits2_pos m') = (Zpos (digits2_pos m) + k)%Z.
Proof.
  intros Hk H. apply digits2_unique; [|lia].
  destruct (digits2_bounds m) as [Hlo Hhi]. rewrite H.
  replace (Zpos (digits2_pos m) + k - 1)%Z
    with ((Zpos (digits2_pos m) - 1) + k)%Z by lia.
  rewrite !Z.pow_add_r by lia.
  pose proof (pow2_pos k Hk). nia.
Qed.

(** [binary_round] is [binary_round_aux] on an aligned mantissa. *)
Lemma binary_round_aligned (s : bool) (p : positive) (e : Z) :
  (-1074 <= e)%Z ->
  exists (p' : positive) (e' : Z),
    binary_round prec emax s p e
    = binary_round_aux prec emax s (Zpos p') e' loc_Exact
    /\ e' = Z.min e (fexp prec emax (Zpos (digits2_pos p) + e))
    /\ Zpos p' = (Zpos p * 2 ^ (e - e'))%Z
    /\ (Zpos (digits2_pos p') + e' = Zpos (digits2_pos p) + e)%Z.
Proof.
  intros He. unfold binary_round.
  pose proof (shl_align_spec p e (fexp prec emax (Zpos (digits2_pos p) + e)))
    as [H1 H2].
  destruct (shl_align p e _) as [p' e'] eqn:E. simpl in H1, H2.
  exists p', e'. rewrite <- H1 in H2. repeat split; auto.
  rewrite (digits2_shift p p' (e - e')); [lia|lia|exact H2].
Qed.

Lemma binary_round_nonzero (s : bool) (p : positive) (e : Z) :
  (-1074 <= e)%Z ->
  match binary_round prec emax s p e with
  | S754_finite s' _ _ => s' = s
  | S754_infinity s' => s' = s
  | _ => False
  end.
Proof.
  intros He.
  destruct (binary_round_aligned s p e He) as (p' & e' & -> & He' & _).
  apply binary_round_aux_nonzero; [lia|]. rewrite He', fexp64. lia.
Qed.

Lemma binary_round_finite (s : bool) (p : positive) (e : Z) :
  (-1074 <= e)%Z ->
  (Zpos p < 2 ^ (1023 - e)
   \/ e <= 970 /\ Zpos p < 2 ^ (1024 - e)
      /\ (Zpos p / 2 ^ (971 - e) <= 2 ^ 53 - 2
          \/ Z.testbit (Zpos p) (970 - e) = false))%Z ->
  exists m' e', binary_round prec emax s p e = S754_finite s m' e'.
Proof.
  intros He Hcase.
  destruct (binary_round_aligned s p e He) as (p' & e' & -> & He' & Hp' & Hd).
  assert (HD : (Zpos (digits2_pos p) + e <= 1024)%Z).
  { change (Zpos (digits2_pos p)) with (Zdigits2 (Zpos p)).
    destruct Hcase as [H|(H1 & H & _)].
    - assert (Zdigits2 (Zpos p) <= 1023 - e)%Z
        by (apply Zdigits2_le; [lia|exact H]). lia.
    - assert (Zdigits2 (Zpos p) <= 1024 - e)%Z
        by (apply Zdigits2_le; [lia|exact H]). lia. }
  rewrite fexp64 in He'.
  apply binary_round_aux_finite; simpl Zdigits2; rewrite ?Hd, ?fexp64;
    try lia.
  destruct (Z_le_dec (Zpos (digits2_pos p) + e) 1023) as [Hs|Hs]; [left; lia|].
  right. split; [lia|].
  destruct Hcase as [H|(H1 & H & Hb)].
  { exfalso.
    assert (Zdigits2 (Zpos p) <= 1023 - e)%Z
      by (apply Zdigits2_le; [lia|exact H]).
    change (Zdigits2 (Zpos p)) with (Zpos (digits2_pos p)) in *. lia. }
  assert (Hee : e' = e) by lia. clear He'. subst e'.
  rewrite Z.sub_diag in Hp'. simpl in Hp'.
  assert (p' = p) by lia. subst p'.
  replace (Z.max (Zpos (digits2_pos p) + e - 53) (-1074) - e)%Z
    with (971 - e)%Z by lia.
  destruct Hb as [Hb|Hb].
  - pose proof (rne_bounds (Zpos p / 2 ^ (971 - e))
      (loc_of_shr_record (fst (shr_fexp prec emax (Zpos p) e loc_Exact)))).
    lia.
  - rewrite rne_low.
    + apply Z.div_lt_upper_bound; [apply pow2_pos; lia|].
      rewrite <- Z.pow_add_r by lia.
      replace (971 - e + 53)%Z with (1024 - e)%Z by lia. exact H.
    + unfold shr_fexp. simpl Zdigits2. rewrite fexp64.
      replace (Z.max (Zpos (digits2_pos p) + e - 53) (-1074) - e)%Z
        with (971 - e)%Z by lia.
      destruct (971 - e)%Z as [|q|q] eqn:Eq; try lia.
      rewrite shr_r_spec by (simpl; lia). simpl shr_m.
      rewrite <- Hb. f_equal. lia.
Qed.

Lemma binary_normalize_finite (z e : Z) :
  (-1074 <= e)%Z ->
  (Z.abs z < 2 ^ (1023 - e)
   \/ e <= 970 /\ Z.abs z < 2 ^ (1024 - e)
      /\ (Z.abs z / 2 ^ (971 - e) <= 2 ^ 53 - 2
          \/ Z.testbit (Z.abs z) (970 - e) = false))%Z ->
  finite_sf (binary_normalize prec emax z e false) = true.
Proof.
  intros He H. destruct z as [|p|p]; simpl binary_normalize.
  - reflexivity.
  - destruct (binary_round_finite false p e He H) as (m' & e' & ->).
    reflexivity.
  - destruct (binary_round_finite true p e He H) as (m' & e' & ->).
    reflexivity.
Qed.

Lemma bounded_facts (m : positive) (e : Z) :
  bounded prec emax m e = true ->
  (-1074 <= e <= 971)%Z /\ (Zpos m < 2 ^ 53)%Z
  /\ fexp prec emax (Zpos (digits2_pos m) + e) = e
  /\ (e = 971 -> 2 ^ 52 <= Zpos m)%Z.
Proof.
  unfold bounded, canonical_mantissa. intros H.
  apply andb_true_iff in H. destruct H as [H1 H2].
  apply Z.eqb_eq in H1. apply Z.leb_le in H2.
  change (emax - prec)%Z with 971%Z in H2.
  pose proof H1 as H1'. rewrite fexp64 in H1.
  destruct (digits2_bounds m) as [Hlo Hhi].
  repeat split; try lia; auto.
  - eapply Z.lt_le_trans; [exact Hhi|]. apply Z.pow_le_mono_r; lia.
  - intros ->. replace (Zpos (digits2_pos m)) with 53%Z in Hlo by lia.
    exact Hlo.
Qed.

Lemma buf_sum_small (m : positive) (e : Z) :
  (-1074 <= e <= 970)%Z -> (Zpos m < 2 ^ 53)%Z ->
  let ez := Z.min e (-61) in
  (Zpos m * 2 ^ (e - ez) + Zpos buf_m * 2 ^ (-61 - ez) < 2 ^ (1023 - ez))%Z.
Proof.
  intros He Hm ez.
  assert (Hb : (Zpos buf_m < 2 ^ 53)%Z) by reflexivity.
  destruct (Z_le_dec e (-61)) as [Hle|Hgt].
  - replace ez with e by lia. rewrite Z.sub_diag, Z.mul_1_r.
    replace (1023 - e)%Z with (1084 + (-61 - e))%Z by lia.
    rewrite Z.pow_add_r by lia.
    pose proof (pow2_pos (-61 - e) ltac:(lia)) as Ht.
    set (t := (2 ^ (-61 - e))%Z) in *.
    assert (2 ^ 54 <= 2 ^ 1084)%Z by (apply Z.pow_le_mono_r; lia).
    nia.
  - replace ez with (-61)%Z by lia.
    replace (-61 - -61)%Z with 0%Z by lia. rewrite Z.mul_1_r.
    replace (1023 - -61)%Z with 1084%Z by lia.
    replace (e - -61)%Z with (e + 61)%Z by lia.
    pose proof (pow2_pos (e + 61) ltac:(lia)) as Ht.
    destruct (Z_le_dec 53 (e + 61)) as [Hk|Hk].
    + assert (2 ^ 53 <= 2 ^ (e + 61))%Z by (apply Z.pow_le_mono_r; lia).
      assert (2 ^ 53 * 2 ^ (e + 61) <= 2 ^ 1084)%Z.
      { rewrite <- Z.pow_add_r by lia. apply Z.pow_le_mono_r; lia. }
      set (t := (2 ^ (e + 61))%Z) in *. nia.
    + assert (2 ^ (e + 61) <= 2 ^ 53)%Z by (apply Z.pow_le_mono_r; lia).
      assert (2 ^ 53 * 2 ^ 53 + 2 ^ 53 < 2 ^ 1084)%Z by reflexivity.
      set (t := (2 ^ (e + 61))%Z) in *. nia.
Qed.

Lemma buf_sum_finite (s sb : bool) (m : positive) (e : Z) :
  bounded prec emax m e = true ->
  let ez := Z.min e (-61) in
  finite_sf
    (binary_normalize prec emax
       (cond_Zopp s (Zpos (fst (shl_align m e ez)))
        + cond_Zopp sb (Zpos (fst (shl_align buf_m (-61) ez))))
       ez false) = true.
Proof.
  intros Hb ez.
  destruct (bounded_facts m e Hb) as (He & Hm & _ & Htop).
  destruct (shl_align_spec m e ez) as [_ HX].
  destruct (shl_align_spec buf_m (-61) ez) as [_ HY].
  replace (Z.min e ez) with ez in HX by lia.
  replace (Z.min (-61) ez) with ez in HY by lia.
  rewrite HX, HY. clear HX HY.
  set (X := (Zpos m * 2 ^ (e - ez))%Z).
  set (Y := (Zpos buf_m * 2 ^ (-61 - ez))%Z).
  assert (HXpos : (0 < X)%Z)
    by (unfold X; pose proof (pow2_pos (e - ez) ltac:(lia)); nia).
  assert (HYpos : (0 < Y)%Z)
    by (unfold Y; pose proof (pow2_pos (-61 - ez) ltac:(lia)); nia).
  apply binary_normalize_finite; [lia|].
  destruct (Z_le_dec e 970) as [Hsmall|Hbig].
  - left. pose proof (buf_sum_small m e ltac:(lia) Hm) as Hsum.
    cbv zeta in Hsum. fold ez in Hsum. fold X Y in Hsum.
    destruct s, sb; unfold cond_Zopp; lia.
  - right. assert (e = 971)%Z by lia. subst e. specialize (Htop eq_refl).
    assert (Hez : ez = (-61)%Z) by reflexivity.
    unfold X, Y in *. rewrite Hez in *. clear Hez.
    change (971 - -61)%Z with 1032%Z in *.
    change (-61 - -61)%Z with 0%Z in *.
    change (1024 - -61)%Z with 1085%Z.
    change (970 - -61)%Z with 1031%Z.
    rewrite Z.mul_1_r in *. clear X Y.
    assert (Hbm : (0 < Zpos buf_m < 2 ^ 53)%Z) by (split; reflexivity).
    assert (H1032 : (2 ^ 1032 = 2 ^ 53 * 2 ^ 979)%Z) by reflexivity.
    assert (H1085 : (2 ^ 1085 = 2 ^ 53 * 2 ^ 1032)%Z) by reflexivity.
    assert (Hp : (0 < 2 ^ 1032)%Z) by reflexivity.
    assert (Hp' : (1 <= 2 ^ 979)%Z) by (intro H; discriminate H).
    split; [lia|].
    set (P := (2 ^ 1032)%Z) in *.
    assert (Habs :
      (Z.abs (cond_Zopp s (Zpos m * P) + cond_Zopp sb (Zpos buf_m))
       = Zpos m * P + Zpos buf_m)%Z
      \/ Z.abs (cond_Zopp s (Zpos m * P) + cond_Zopp sb (Zpos buf_m))
         = (Zpos m * P - Zpos buf_m)%Z).
    { destruct s, sb; unfold cond_Zopp; [left|right|right|left]; nia. }
    destruct Habs as [-> | ->].
    + split; [nia|]. right.
      apply Z.testbit_false; [lia|].
      replace (Zpos m * P)%Z with ((2 * Zpos m) * 2 ^ 1031)%Z
        by (unfold P; change (2 ^ 1032)%Z with (2 * 2 ^ 1031)%Z; lia).
      rewrite Z.div_add_l by (intro H; discriminate H).
      rewrite Z.div_small by (split; [lia|];
        eapply Z.lt_trans; [apply Hbm|reflexivity]).
      rewrite Z.add_0_r, Z.mul_comm, Z.mod_mul by lia. reflexivity.
    + split; [nia|]. left.
      assert (Zpos m * P - Zpos buf_m < Zpos m * P)%Z by lia.
      assert ((Zpos m * P - Zpos buf_m) / P < Zpos m)%Z
        by (apply Z.div_lt_upper_bound; lia).
      lia.
Qed.

(** A finite float stays finite when the buffer is added or subtracted. *)
Lemma SF_buf_finite (x : spec_float) :
  valid_binary x = true -> finite_sf x = true ->
  finite_sf (SFadd prec emax x buf_sf) = true
  /\ finite_sf (SFsub prec emax x buf_sf) = true.
Proof.
  intros Hv Hf. destruct x as [s|s| |s m e]; try discriminate.
  - split; reflexivity.
  - simpl in Hv. split.
    + unfold SFadd, buf_sf. apply (buf_sum_finite s false m e Hv).
    + unfold SFsub, buf_sf.
      pose proof (buf_sum_finite s true m e Hv) as H.
      cbv zeta in *. unfold cond_Zopp at 2 in H.
      unfold cond_Zopp at 2. rewrite <- Z.add_opp_r. exact H.
Qed.

(** Two canonical mantissas that denote the same number are the same. *)
Lemma canonical_unique (mx my : positive) (ex ey : Z) :
  bounded prec emax mx ex = true -> bounded prec emax my ey = true ->
  (ex <= ey)%Z -> Zpos mx = (Zpos my * 2 ^ (ey - ex))%Z ->
  mx = my /\ ex = ey.
Proof.
  intros Hx Hy Hle H.
  destruct (bounded_facts mx ex Hx) as (_ & _ & Hcx & _).
  destruct (bounded_facts my ey Hy) as (_ & _ & Hcy & _).
  pose proof (digits2_shift my mx (ey - ex) ltac:(lia) H) as Hd.
  assert (Heq : ex = ey).
  { rewrite <- Hcx, <- Hcy. f_equal. lia. }
  subst ey. rewrite Z.sub_diag in H. simpl in H. split; [lia|reflexivity].
Qed.

(** A difference of two floats is a zero only when they are equal, or
    both zeros. *)
Lemma SFsub_zero (x y : spec_float) (s : bool) :
  valid_binary x = true -> valid_binary y = true ->
  SFsub prec emax x y = S754_zero s ->
  x = y \/ (exists sx sy, x = S754_zero sx /\ y = S754_zero sy).
Proof.
  intros Hx Hy H.
  destruct x as [sx|sx| |sx mx ex], y as [sy|sy| |sy my ey]; simpl in H;
    try discriminate;
    try (destruct sx, sy; discriminate).
  - right. eauto.
  - left. simpl in Hx, Hy.
    destruct (bounded_facts mx ex Hx) as (Hex & _).
    destruct (bounded_facts my ey Hy) as (Hey & _).
    destruct (shl_align_spec mx ex (Z.min ex ey)) as [_ HX].
    destruct (shl_align_spec my ey (Z.min ex ey)) as [_ HY].
    replace (Z.min ex (Z.min ex ey)) with (Z.min ex ey) in HX by lia.
    replace (Z.min ey (Z.min ex ey)) with (Z.min ex ey) in HY by lia.
    set (X := Zpos (fst (shl_align mx ex (Z.min ex ey)))) in *.
    set (Y := Zpos (fst (shl_align my ey (Z.min ex ey)))) in *.
    assert (HXp : (0 < X)%Z) by reflexivity.
    assert (HYp : (0 < Y)%Z) by reflexivity.
    destruct (cond_Zopp sx X - cond_Zopp sy Y)%Z as [|p|p] eqn:E;
      simpl binary_normalize in H.
    + assert (sx = sy /\ X = Y) as [-> HXY]
        by (destruct sx, sy; unfold cond_Zopp in E; split; try reflexivity; lia).
      rewrite HX, HY in HXY.
      destruct (Z_le_dec ex ey) as [Hle|Hle].
      * replace (Z.min ex ey) with ex in HXY by lia.
        rewrite Z.sub_diag, Z.mul_1_r in HXY.
        destruct (canonical_unique mx my ex ey Hx Hy Hle HXY) as [-> ->].
        reflexivity.
      * replace (Z.min ex ey) with ey in HXY by lia.
        rewrite Z.sub_diag, Z.mul_1_r in HXY. symmetry in HXY.
        destruct (canonical_unique my mx ey ex Hy Hx ltac:(lia) HXY) as [-> ->].
        reflexivity.
    + pose proof (binary_round_nonzero false p (Z.min ex ey) ltac:(lia)) as Hn.
      rewrite H in Hn. contradiction.
    + pose proof (binary_round_nonzero true p (Z.min ex ey) ltac:(lia)) as Hn.
      rewrite H in Hn. contradiction.
Qed.

(** The same facts on the primitive floats. *)

Local Open Scope float_scope.

Lemma ltb_trans (a b c : float) :
  (a <? b) = true -> (b <? c) = true -> (a <? c) = true.
Proof. rewrite !ltb_spec. apply SFltb_trans. Qed.

Lemma SFcompare_refl (x : spec_float) :
  SFcompare x x = Some Eq \/ SFcompare x x = None.
Proof.
  destruct x as [s|s| |s m e]; simpl; auto; left.
  - destruct s; reflexivity.
  - rewrite Z.compare_refl, Pos.compare_cont_spec, Pos.compare_refl.
    destruct s; reflexivity.
Qed.

Lemma ltb_irrefl (a : float) : (a <? a) = false.
Proof.
  rewrite ltb_spec. unfold SFltb.
  destruct (SFcompare_refl (Prim2SF a)) as [-> | ->]; reflexivity.
Qed.

Lemma ltb_leb_false (a b : float) : (a <? b) = true -> (b <=? a) = false.
Proof.
  rewrite ltb_spec, leb_spec. unfold SFltb, SFleb.
  rewrite (SFcompare_antisym (Prim2SF a) (Prim2SF b)).
  destruct (SFcompare (Prim2SF a) (Prim2SF b)) as [[ | | ]|];
    simpl; intros H; try discriminate; reflexivity.
Qed.

Lemma eqb_zero (x : float) :
  (x =? 0) = true -> exists s, Prim2SF x = S754_zero s.
Proof.
  rewrite eqb_spec. change (Prim2SF 0) with (S754_zero false).
  unfold SFeqb. destruct (Prim2SF x) as [s|s| |s m e]; simpl.
  - eauto.
  - destruct s; discriminate.
  - discriminate.
  - destruct s; discriminate.
Qed.

Lemma SFltb_zero_sign (c : spec_float) (s s' : bool) :
  SFltb c (S754_zero s) = SFltb c (S754_zero s').
Proof. destruct c as [sc|sc| |sc mc ec]; reflexivity. Qed.

(** The guard of the ray-cast test excludes a divisor equal to zero. *)
Lemma guard_divisor (yi yj lat : float) :
  Bool.eqb (gt yi lat) (gt yj lat) = false -> (yj - yi =? 0) = false.
Proof.
  intros Hg. destruct (yj - yi =? 0) eqn:E; [exfalso|reflexivity].
  apply eqb_zero in E. destruct E as [s E]. rewrite sub_spec in E.
  unfold gt in Hg. rewrite !ltb_spec in Hg.
  apply SFsub_zero in E; try apply Prim2SF_valid.
  destruct E as [E|(sx & sy & Ex & Ey)].
  - rewrite E, Bool.eqb_reflx in Hg. discriminate.
  - rewrite Ex, Ey, (SFltb_zero_sign _ sy sx), Bool.eqb_reflx in Hg.
    discriminate.
Qed.

Lemma finite_buf (x : float) :
  finite x = true ->
  finite (x - 0.002) = true /\ finite (x + 0.002) = true.
Proof.
  intros H. unfold finite in *. rewrite sub_spec, add_spec.
  change (Prim2SF 0.002) with buf_sf.
  destruct (SF_buf_finite (Prim2SF x) (Prim2SF_valid x) H). auto.
Qed.

Lemma finite_lt_infinity (x : float) : finite x = true -> (x <? infinity) = true.
Proof.
  unfold finite. rewrite ltb_spec. change (Prim2SF infinity) with (S754_infinity false).
  destruct (Prim2SF x); simpl; try discriminate; reflexivity.
Qed.

Lemma finite_gt_neg_infinity (x : float) :
  finite x = true -> (neg_infinity <? x) = true.
Proof.
  unfold finite. rewrite ltb_spec.
  change (Prim2SF neg_infinity) with (S754_infinity true).
  destruct (Prim2SF x); simpl; try discriminate; reflexivity.
Qed.

End FloatFacts.

(** ** Facts on strings *)

Module TextFacts.
Import Py Spec.

Lemma lstrip_blank (w s : str) : blank w -> lstrip (w ++ s) = lstrip s.
Proof.
  induction 1 as [|c w Hc _ IH]; simpl; [reflexivity|]. rewrite Hc. exact IH.
Qed.

Lemma lstrip_cons (c : ascii) (s : str) :
  is_space c = false -> lstrip (c :: s) = c :: s.
Proof. intros H. simpl. rewrite H. reflexivity. Qed.

Lemma blank_rev (w : str) : blank w -> blank (rev w).
Proof. unfold blank. apply Forall_rev. Qed.

Lemma rstrip_blank (s w : str) : blank w -> rstrip (s ++ w) = rstrip s.
Proof.
  intros H. unfold rstrip. rewrite rev_app_distr, lstrip_blank; auto.
  apply blank_rev. exact H.
Qed.

Lemma rstrip_snoc (s : str) (c : ascii) :
  is_space c = false -> rstrip (s ++ [c]) = s ++ [c].
Proof.
  intros H. unfold rstrip. rewrite rev_app_distr. simpl. rewrite H. simpl.
  rewrite rev_involutive. reflexivity.
Qed.

(** A text between non-blank characters, with blank margins. *)
Lemma strip_core (w w' mid : str) (c c' : ascii) :
  blank w -> blank w' -> is_space c = false -> is_space c' = false ->
  strip (w ++ (c :: mid ++ [c']) ++ w') = c :: mid ++ [c'].
Proof.
  intros Hw Hw' Hc Hc'. unfold strip.
  rewrite lstrip_blank by exact Hw. simpl app at 1.
  rewrite lstrip_cons by exact Hc.
  change (c :: (mid ++ [c']) ++ w') with ((c :: mid ++ [c']) ++ w').
  rewrite rstrip_blank by exact Hw'.
  change (c :: mid ++ [c']) with ((c :: mid) ++ [c']).
  apply rstrip_snoc. exact Hc'.
Qed.

(** What [strip] removes is blank. *)
Lemma lstrip_decompose (s : str) : exists w, blank w /\ s = w ++ lstrip s.
Proof.
  induction s as [|c s (w & Hw & IH)]; simpl.
  - exists []. split; [constructor|reflexivity].
  - destruct (is_space c) eqn:E.
    + exists (c :: w). split; [constructor; assumption|].
      simpl. f_equal. exact IH.
    + exists []. split; [constructor|reflexivity].
Qed.

Lemma rstrip_decompose (s : str) : exists w, blank w /\ s = rstrip s ++ w.
Proof.
  destruct (lstrip_decompose (rev s)) as (w & Hw & H).
  exists (rev w). split; [apply blank_rev; exact Hw|].
  unfold rstrip. rewrite <- rev_app_distr, <- H, rev_involutive. reflexivity.
Qed.

Lemma strip_decompose (s : str) :
  exists w w', blank w /\ blank w' /\ s = w ++ strip s ++ w'.
Proof.
  destruct (lstrip_decompose s) as (w & Hw & H).
  destruct (rstrip_decompose (lstrip s)) as (w' & Hw' & H').
  exists w, w'. unfold strip. rewrite <- H'. auto.
Qed.

Lemma split_ws_blank_l (w s : str) : blank w -> split_ws (w ++ s) = split_ws s.
Proof.
  induction 1 as [|c w Hc _ IH]; simpl; [reflexivity|]. rewrite Hc. exact IH.
Qed.

Lemma split_ws_blank (w : str) : blank w -> split_ws w = [].
Proof.
  intros H. rewrite <- (app_nil_r w), split_ws_blank_l by exact H. reflexivity.
Qed.

Lemma split_ws_blank_r (s w : str) : blank w -> split_ws (s ++ w) = split_ws s.
Proof.
  intros Hw. induction s as [|c s IH]; simpl.
  - apply split_ws_blank. exact Hw.
  - destruct (is_space c) eqn:Ec; [exact IH|].
    destruct s as [|c' s]; simpl app.
    + destruct w as [|d w]; [reflexivity|].
      inversion Hw as [|? ? Hd Hw']; subst. rewrite Hd.
      rewrite (split_ws_blank (d :: w) Hw). reflexivity.
    + simpl app in IH. rewrite IH. reflexivity.
Qed.

Lemma split_ws_strip (s : str) : split_ws (strip s) = split_ws s.
Proof.
  destruct (strip_decompose s) as (w & w' & Hw & Hw' & H).
  rewrite H at 2. rewrite split_ws_blank_l, split_ws_blank_r; auto.
Qed.

Lemma split_ws_word (t s : str) :
  word t -> match s with [] => True | c :: _ => is_space c = true end ->
  split_ws (t ++ s) = t :: split_ws s.
Proof.
  intros [Hne Ht] Hs. induction t as [|c t IH]; [contradiction|].
  inversion Ht as [|? ? Hc Ht']; subst. simpl. rewrite Hc.
  destruct t as [|c' t]; simpl app.
  - destruct s as [|d s]; [reflexivity|]. rewrite Hs. reflexivity.
  - inversion Ht' as [|? ? Hc' _]; subst. rewrite Hc'.
    simpl app in IH. rewrite IH; [reflexivity|discriminate|exact Ht'].
Qed.

(** Two words between blanks are the two fields that [split] finds. *)
Lemma split_ws_two (w0 a w1 b w2 : str) :
  blank w0 -> word a -> blank w1 -> w1 <> [] -> word b -> blank w2 ->
  split_ws (strip (w0 ++ a ++ w1 ++ b ++ w2)) = [a; b].
Proof.
  intros H0 Ha H1 Hne Hb H2.
  rewrite split_ws_strip, split_ws_blank_l by exact H0.
  rewrite split_ws_word; auto.
  - rewrite split_ws_blank_l by exact H1.
    rewrite split_ws_word; auto.
    + rewrite split_ws_blank by exact H2. reflexivity.
    + destruct w2 as [|d w2]; [exact I|]. inversion H2; assumption.
  - destruct w1 as [|d w1]; [contradiction|]. inversion H1; assumption.
Qed.

(** [split] on a separator that the first piece does not hold. *)
Lemma split_on_app (sep : ascii) (s t : str) :
  Forall (fun c => c <> sep) s ->
  split_on sep (s ++ sep :: t) = s :: split_on sep t.
Proof.
  induction 1 as [|c s Hc _ IH]; simpl.
  - rewrite Ascii.eqb_refl. reflexivity.
  - destruct (Ascii.eqb_spec c sep) as [E|_]; [contradiction|].
    rewrite IH. reflexivity.
Qed.

Lemma split_on_none (sep : ascii) (s : str) :
  Forall (fun c => c <> sep) s -> split_on sep s = [s].
Proof.
  induction 1 as [|c s Hc _ IH]; simpl; [reflexivity|].
  destruct (Ascii.eqb_spec c sep) as [E|_]; [contradiction|].
  rewrite IH. reflexivity.
Qed.

Lemma startswith_app (p s : str) : startswith (p ++ s) p = true.
Proof.
  induction p as [|c p IH]; simpl; [destruct s; reflexivity|].
  rewrite Ascii.eqb_refl. exact IH.
Qed.

Lemma endswith_snoc (s : str) (c : ascii) : endswith (s ++ [c]) [c] = true.
Proof.
  unfold endswith. rewrite rev_app_distr. simpl. rewrite Ascii.eqb_refl.
  destruct (rev s); reflexivity.
Qed.

(** The middle of a text, by its indices. *)
Lemma slice_middle (pre mid post : str) :
  slice (pre ++ mid ++ post) (List.length pre)
    (List.length pre + List.length mid) = mid.
Proof.
  unfold slice. rewrite skipn_app, skipn_all, Nat.sub_diag. simpl.
  replace (List.length pre + List.length mid - List.length pre)
    with (List.length mid) by lia.
  rewrite firstn_app, firstn_all, Nat.sub_diag. simpl. apply app_nil_r.
Qed.

Lemma slice_at (pre mid post : str) (lo hi : nat) :
  lo = List.length pre -> hi = lo + List.length mid ->
  slice (pre ++ mid ++ post) lo hi = mid.
Proof. intros -> ->. apply slice_middle. Qed.

End TextFacts.

(** ** Step A: the WKT parser *)

Module Wkt.
Import Py Deckgl Spec Samples PyFacts TextFacts.
Local Open Scope py_scope.

(** *** Scanning *)

(** Concatenations associated to the right. *)
Ltac norm_app :=
  repeat (rewrite <- app_assoc || rewrite <- app_comm_cons); cbn [app].

Lemma plain_nest (s : str) : plain s -> nest s.
Proof.
  induction 1 as [|c s [H1 H2] _ IH]; [apply nest_nil|].
  apply nest_char; assumption.
Qed.

Lemma nest_app (s t : str) : nest s -> nest t -> nest (s ++ t).
Proof.
  induction 1 as [|c s H1 H2 _ IH|s u Hs _ _ IHu]; intros Ht; simpl.
  - exact Ht.
  - apply nest_char; auto.
  - rewrite <- app_assoc. simpl. apply nest_group; auto.
Qed.

Lemma space_not_paren (c : ascii) :
  is_space c = true -> c <> lparen /\ c <> rparen /\ c <> comma.
Proof.
  intros H. repeat split; intros ->; discriminate H.
Qed.

Lemma blank_plain (w : str) : blank w -> plain w.
Proof.
  unfold blank, plain. apply Forall_impl. intros c H.
  destruct (space_not_paren c H) as (H1 & H2 & _). auto.
Qed.

Lemma plain_app (s t : str) : plain s -> plain t -> plain (s ++ t).
Proof. intros Hs Ht. apply Forall_app. auto. Qed.

Lemma eqb_lparen (c : ascii) : c <> lparen -> Ascii.eqb c lparen = false.
Proof. intros H. destruct (Ascii.eqb_spec c lparen); [contradiction|reflexivity]. Qed.

Lemma eqb_rparen (c : ascii) : c <> rparen -> Ascii.eqb c rparen = false.
Proof. intros H. destruct (Ascii.eqb_spec c rparen); [contradiction|reflexivity]. Qed.

Lemma scan_polygons_char (inner rest : str) (c : ascii) (i : nat) (depth : Z)
    (start : option nat) (acc : list str) :
  c <> lparen -> c <> rparen ->
  scan_polygons inner (c :: rest) i depth start acc
  = scan_polygons inner rest (S i) depth start acc.
Proof.
  intros H1 H2. simpl. rewrite (eqb_lparen c H1), (eqb_rparen c H2).
  reflexivity.
Qed.

Lemma scan_polygons_plain (inner g : str) :
  plain g ->
  forall rest i depth start acc,
    scan_polygons inner (g ++ rest) i depth start acc
    = scan_polygons inner rest (i + List.length g) depth start acc.
Proof.
  induction 1 as [|c g [H1 H2] _ IH]; intros rest i depth start acc.
  - simpl. rewrite Nat.add_0_r. reflexivity.
  - simpl app. rewrite scan_polygons_char, IH by assumption.
    simpl List.length. rewrite Nat.add_succ_r. reflexivity.
Qed.

(** Inside a group the scan only counts. *)
Lemma scan_polygons_nest (inner s : str) :
  nest s ->
  forall rest i depth start acc,
    (0 < depth)%Z ->
    scan_polygons inner (s ++ rest) i depth start acc
    = scan_polygons inner rest (i + List.length s) depth start acc.
Proof.
  induction 1 as [|c s H1 H2 _ IH|s t _ IHs _ IHt];
    intros rest i depth start acc Hd.
  - simpl. rewrite Nat.add_0_r. reflexivity.
  - simpl app. rewrite scan_polygons_char, IH by assumption.
    simpl List.length. rewrite Nat.add_succ_r. reflexivity.
  - simpl app. simpl scan_polygons at 1.
    change (Ascii.eqb lparen lparen) with true. cbv iota.
    destruct (Z.eqb_spec depth 0) as [E|_]; [lia|].
    rewrite <- app_assoc. rewrite IHs by lia.
    simpl app. simpl scan_polygons at 1.
    change (Ascii.eqb rparen lparen) with false.
    change (Ascii.eqb rparen rparen) with true. cbv iota.
    replace (depth + 1 - 1)%Z with depth by lia.
    destruct (Z.eqb_spec depth 0) as [E|_]; [lia|].
    rewrite IHt by lia. f_equal.
    cbn [List.length]. rewrite length_app. cbn [List.length]. lia.
Qed.

(** A group at depth zero is one block. *)
Lemma scan_polygons_block (pre s rest : str) (start : option nat)
    (acc : list str) :
  nest s ->
  scan_polygons (pre ++ (lparen :: s ++ [rparen]) ++ rest)
    ((lparen :: s ++ [rparen]) ++ rest) (List.length pre) 0 start acc
  = scan_polygons (pre ++ (lparen :: s ++ [rparen]) ++ rest) rest
      (List.length pre + List.length (lparen :: s ++ [rparen])) 0 None
      (acc ++ [lparen :: s ++ [rparen]]).
Proof.
  intros Hs. set (inner := pre ++ (lparen :: s ++ [rparen]) ++ rest).
  simpl app. simpl scan_polygons at 1.
  change (Ascii.eqb lparen lparen) with true. cbv iota.
  change (0 =? 0)%Z with true. cbv iota.
  rewrite <- app_assoc. rewrite (scan_polygons_nest inner s Hs) by lia.
  simpl app. simpl scan_polygons at 1.
  change (Ascii.eqb rparen lparen) with false.
  change (Ascii.eqb rparen rparen) with true. cbv iota.
  change (0 + 1 - 1 =? 0)%Z with true. cbv iota.
  assert (Hlen : List.length (lparen :: s ++ [rparen]) = S (List.length s + 1))
    by (cbn [List.length]; rewrite length_app; reflexivity).
  replace (S (List.length pre + List.length s + 1))
    with (List.length pre + List.length (lparen :: s ++ [rparen])) by lia.
  unfold inner at 2. rewrite slice_middle. f_equal. lia.
Qed.

Lemma eqb_comma (c : ascii) : c <> comma -> Ascii.eqb c comma = false.
Proof. intros H. destruct (Ascii.eqb_spec c comma); [contradiction|reflexivity]. Qed.

Lemma scan_ring_plain (pb g : str) :
  plain g ->
  forall rest i depth start,
    scan_ring pb (g ++ rest) i depth start
    = scan_ring pb rest (i + List.length g) depth start.
Proof.
  induction 1 as [|c g [H1 H2] _ IH]; intros rest i depth start.
  - simpl. rewrite Nat.add_0_r. reflexivity.
  - simpl app. simpl scan_ring at 1.
    rewrite (eqb_lparen c H1), (eqb_rparen c H2), IH.
    cbn [List.length]. rewrite Nat.add_succ_r. reflexivity.
Qed.

(** The first group of a block, when it holds no parenthesis itself. *)
Lemma scan_ring_first (pb pre pts rest : str) (start : option nat) :
  pb = pre ++ (lparen :: pts ++ [rparen]) ++ rest -> plain pre -> plain pts ->
  scan_ring pb pb 0 0 start = Some pts.
Proof.
  intros Hpb Hpre Hpts. rewrite Hpb at 2.
  rewrite (scan_ring_plain pb pre Hpre). simpl app. simpl scan_ring at 1.
  change (Ascii.eqb lparen lparen) with true. cbv iota.
  change (0 =? 0)%Z with true. cbv iota.
  rewrite <- app_assoc, (scan_ring_plain pb pts Hpts).
  simpl app. simpl scan_ring at 1.
  change (Ascii.eqb rparen lparen) with false.
  change (Ascii.eqb rparen rparen) with true. cbv iota.
  change (0 + 1 - 1 =? 0)%Z with true. cbv iota. f_equal.
  rewrite Hpb.
  replace (pre ++ (lparen :: pts ++ [rparen]) ++ rest)
    with ((pre ++ [lparen]) ++ pts ++ rparen :: rest)
    by (norm_app; reflexivity).
  apply slice_at; rewrite ?length_app; cbn [List.length]; lia.
Qed.

(** *** The shape of the texts *)

Lemma number_word (t : str) (x : float) : number_text t x -> word t.
Proof.
  intros (Hne & Hc & _). split; [exact Hne|].
  eapply Forall_impl; [|exact Hc]. intros c H. apply H.
Qed.

Lemma number_plain (t : str) (x : float) : number_text t x -> plain t.
Proof.
  intros (_ & Hc & _). eapply Forall_impl; [|exact Hc].
  intros c (_ & H1 & H2 & _). auto.
Qed.

Lemma number_no_comma (t : str) (x : float) :
  number_text t x -> Forall (fun c => c <> comma) t.
Proof.
  intros (_ & Hc & _). eapply Forall_impl; [|exact Hc].
  intros c (_ & _ & _ & H). exact H.
Qed.

Lemma blank_no_comma (w : str) : blank w -> Forall (fun c => c <> comma) w.
Proof.
  apply Forall_impl. intros c H. apply (space_not_paren c H).
Qed.

Lemma point_plain (s : str) (c : coord) : point_text s c -> plain s.
Proof.
  intros H. destruct H.
  repeat apply plain_app; eauto using blank_plain, number_plain.
Qed.

Lemma point_no_comma (s : str) (c : coord) :
  point_text s c -> Forall (fun c => c <> comma) s.
Proof.
  intros H. destruct H.
  repeat (apply Forall_app; split);
    eauto using blank_no_comma, number_no_comma.
Qed.

Lemma points_plain (s : str) (r : ring) : points_text s r -> plain s.
Proof.
  induction 1 as [s c H|s t c r H _ IH].
  - apply (point_plain s c H).
  - apply plain_app; [apply (point_plain s c H)|].
    constructor; [|exact IH]. split; discriminate.
Qed.

Lemma ring_nest (s : str) (r : ring) : ring_text s r -> nest s.
Proof.
  intros H. destruct H as [s r H].
  change (lparen :: s ++ [rparen]) with (lparen :: s ++ rparen :: []).
  apply nest_group; [|apply nest_nil].
  apply plain_nest. apply (points_plain s r H).
Qed.

Lemma holes_nest (t : str) : holes_text t -> nest t.
Proof.
  induction 1 as [w Hw|w w' s t r Hw Hw' Hs _ IH].
  - apply plain_nest, blank_plain, Hw.
  - apply nest_app; [apply plain_nest, blank_plain, Hw|].
    apply nest_char; [discriminate|discriminate|].
    apply nest_app; [apply plain_nest, blank_plain, Hw'|].
    apply nest_app; [apply (ring_nest s r Hs)|exact IH].
Qed.

Lemma polygon_nest (w s t : str) (r : ring) :
  blank w -> ring_text s r -> holes_text t -> nest (w ++ s ++ t).
Proof.
  intros Hw Hs Ht.
  apply nest_app; [apply plain_nest, blank_plain, Hw|].
  apply nest_app; [apply (ring_nest s r Hs)|apply holes_nest, Ht].
Qed.

(** *** From the text to the rings *)

Lemma point_fields (s : str) (x y : float) :
  point_text s (x, y) ->
  exists a b,
    split_ws (strip s) = [a; b]
    /\ float_of_str a = Ok x /\ float_of_str b = Ok y.
Proof.
  intros H. inversion H as [w0 a w1 b w2 x' y' H0 Ha H1 Hne Hb H2]; subst.
  exists a, b. split.
  - apply split_ws_two; eauto using number_word.
  - split; [apply Ha|apply Hb].
Qed.

Lemma parse_pairs_point (s : str) (c : coord) (rest : list str) (acc : ring) :
  point_text s c ->
  parse_pairs (s :: rest) acc = parse_pairs rest (acc ++ [c]).
Proof.
  intros H. destruct c as [x y].
  destruct (point_fields s x y H) as (a & b & Hs & Ha & Hb).
  simpl. rewrite Hs, Ha, Hb. reflexivity.
Qed.

Lemma parse_pairs_points (s : str) (r : ring) :
  points_text s r ->
  forall acc, parse_pairs (split_on comma s) acc = Ok (acc ++ r).
Proof.
  induction 1 as [s c H|s t c r H _ IH]; intros acc.
  - rewrite split_on_none by (apply (point_no_comma s c H)).
    rewrite (parse_pairs_point s c [] acc H). reflexivity.
  - rewrite split_on_app by (apply (point_no_comma s c H)).
    rewrite (parse_pairs_point s c _ acc H), IH, <- app_assoc. reflexivity.
Qed.

Lemma points_nonempty (s : str) (r : ring) : points_text s r -> r <> [].
Proof. intros H. destruct H; discriminate. Qed.

Lemma slice_tail (c : ascii) (s : str) :
  slice (c :: s) 1 (List.length (c :: s)) = s.
Proof.
  unfold slice. cbn [List.length skipn]. rewrite Nat.sub_succ, Nat.sub_0_r.
  apply firstn_all.
Qed.

Lemma slice_init (s : str) (c : ascii) :
  slice (s ++ [c]) 0 (List.length (s ++ [c]) - 1) = s.
Proof.
  unfold slice. cbn [skipn]. rewrite length_app. cbn [List.length].
  replace (List.length s + 1 - 1 - 0) with (List.length s) by lia.
  rewrite firstn_app, firstn_all, Nat.sub_diag. simpl. apply app_nil_r.
Qed.

Lemma startswith_head (c : ascii) (s : str) : startswith (c :: s) [c] = true.
Proof. simpl. rewrite Ascii.eqb_refl. destruct s; reflexivity. Qed.

(** The block of a part without its parentheses. *)
Lemma strip_block_group (body : str) :
  strip_block (lparen :: body ++ [rparen]) = body.
Proof.
  unfold strip_block.
  pose proof (strip_core [] [] body lparen rparen) as H.
  rewrite app_nil_r in H. simpl app in H.
  rewrite H by (try constructor; reflexivity). clear H.
  rewrite startswith_head, slice_tail, endswith_snoc, slice_init.
  reflexivity.
Qed.

Lemma parse_block_polygon (b : str) (r : ring) (rest : list str)
    (acc : list ring) :
  polygon_text b r ->
  parse_blocks (b :: rest) acc = parse_blocks rest (acc ++ [r]).
Proof.
  intros H. destruct H as [w s t r Hw Hs Ht].
  destruct Hs as [pts r Hpts].
  cbn [parse_blocks].
  replace (lparen :: w ++ (lparen :: pts ++ [rparen]) ++ t ++ [rparen])
    with (lparen :: (w ++ (lparen :: pts ++ [rparen]) ++ t) ++ [rparen])
    by (norm_app; reflexivity).
  rewrite strip_block_group.
  rewrite (scan_ring_first _ w pts t None eq_refl (blank_plain w Hw)
             (points_plain pts r Hpts)).
  rewrite (parse_pairs_points pts r Hpts []). simpl.
  destruct r as [|c r]; [|reflexivity].
  exfalso. apply (points_nonempty pts [] Hpts). reflexivity.
Qed.

Lemma parse_blocks_polygons (blocks : list str) (rs : list ring) :
  Forall2 polygon_text blocks rs ->
  forall acc, parse_blocks blocks acc = Ok (acc ++ rs).
Proof.
  induction 1 as [|b r blocks rs Hb _ IH]; intros acc.
  - simpl. rewrite app_nil_r. reflexivity.
  - rewrite (parse_block_polygon b r blocks acc Hb), IH, <- app_assoc.
    reflexivity.
Qed.

Lemma polygon_group (b : str) (r : ring) :
  polygon_text b r ->
  exists body, b = lparen :: body ++ [rparen] /\ nest body.
Proof.
  intros H. destruct H as [w s t r Hw Hs Ht].
  exists (w ++ s ++ t). split; [norm_app; reflexivity|].
  apply (polygon_nest w s t r Hw Hs Ht).
Qed.

Lemma scan_polygons_polygon (inner pre b rest : str) (r : ring)
    (start : option nat) (acc : list str) :
  polygon_text b r -> inner = pre ++ b ++ rest ->
  scan_polygons inner (b ++ rest) (List.length pre) 0 start acc
  = scan_polygons inner rest (List.length pre + List.length b) 0 None
      (acc ++ [b]).
Proof.
  intros Hb Hin. destruct (polygon_group b r Hb) as (body & -> & Hn).
  subst inner. apply scan_polygons_block. exact Hn.
Qed.

(** *** Words *)

(** A character whose upper case is no white space, parenthesis or comma
    is none itself. *)
Lemma upper_token (c : ascii) : token_char (upper_char c) -> token_char c.
Proof.
  unfold token_char.
  destruct c as [[] [] [] [] [] [] [] []]; intros (H1 & H2 & H3 & H4);
    try discriminate H1; repeat split; try reflexivity; try discriminate;
    exfalso;
    first [apply H2; reflexivity|apply H3; reflexivity|apply H4; reflexivity].
Qed.

Lemma upper_tokens (s l : str) :
  upper s = l -> Forall token_char l -> Forall token_char s.
Proof.
  intros <-. unfold upper. induction s as [|c s IH]; intros H;
    [constructor|].
  simpl in H. inversion H; subst.
  constructor; [apply upper_token; assumption|auto].
Qed.

Lemma tokens_plain (s : str) : Forall token_char s -> plain s.
Proof. apply Forall_impl. intros c (_ & H1 & H2 & _). auto. Qed.

Lemma keyword_tokens (kw : str) :
  upper kw = lit "MULTIPOLYGON" -> Forall token_char kw.
Proof.
  intros H. apply (upper_tokens _ _ H).
  repeat (constructor; [repeat split; (reflexivity || discriminate)|]).
  constructor.
Qed.

Lemma empty_tokens (t : str) : empty_word t -> Forall token_char t.
Proof.
  intros H. apply (upper_tokens _ _ H).
  repeat (constructor; [repeat split; (reflexivity || discriminate)|]).
  constructor.
Qed.

Lemma empty_length (t : str) : empty_word t -> List.length t = 5.
Proof.
  intros H. rewrite <- (length_map upper_char t). fold (upper t).
  rewrite H. reflexivity.
Qed.

(** A word of two characters or more has a first and a last one. *)
Lemma word_ends (t : str) :
  Forall token_char t -> 2 <= List.length t ->
  exists c mid c',
    t = c :: mid ++ [c'] /\ is_space c = false /\ is_space c' = false.
Proof.
  intros Ht Hlen. destruct t as [|c t]; [simpl in Hlen; lia|].
  destruct (@exists_last _ t) as (mid & c' & ->).
  { intros ->. simpl in Hlen. lia. }
  exists c, mid, c'. split; [reflexivity|].
  inversion Ht as [|? ? Hc Hrest]; subst.
  apply Forall_app in Hrest. destruct Hrest as [_ Hc'].
  inversion Hc' as [|? ? Hl _]; subst. split; [apply Hc|apply Hl].
Qed.

(** *** The parts *)

Lemma part_ends (s : str) (p : option ring) :
  part_text s p ->
  exists c mid c',
    s = c :: mid ++ [c'] /\ is_space c = false /\ is_space c' = false.
Proof.
  intros H. destruct H as [s r Hs|t Ht].
  - destruct (polygon_group s r Hs) as (body & -> & _).
    exists lparen, body, rparen. auto.
  - apply word_ends; [apply empty_tokens, Ht|].
    rewrite (empty_length t Ht). lia.
Qed.

Lemma parts_ends (s : str) (ps : list (option ring)) :
  parts_text s ps ->
  exists c mid c',
    s = c :: mid ++ [c'] /\ is_space c = false /\ is_space c' = false.
Proof.
  induction 1 as [s p Hs|s w w' t p ps Hs Hw Hw' _ IH].
  - apply (part_ends s p Hs).
  - destruct (part_ends s p Hs) as (c & mid & c1 & -> & Hc & _).
    destruct IH as (c2 & mid' & c' & -> & _ & Hc').
    exists c, (mid ++ [c1] ++ w ++ comma :: w' ++ c2 :: mid'), c'.
    split; [norm_app; reflexivity|auto].
Qed.

(** The first loop finds the parts that are polygons, one block each, and
    passes over the empty ones. *)
Lemma scan_polygons_parts (s : str) (ps : list (option ring)) :
  parts_text s ps ->
  forall inner pre rest start acc,
    inner = pre ++ s ++ rest -> plain rest ->
    exists blocks,
      Forall2 polygon_text blocks (exterior_rings ps)
      /\ scan_polygons inner (s ++ rest) (List.length pre) 0 start acc
         = acc ++ blocks.
Proof.
  induction 1 as [s p Hs|s w w' t p ps Hs Hw Hw' _ IH];
    intros inner pre rest start acc Hin Hrest.
  - destruct Hs as [s r Hs|s Hs].
    + exists [s]. split; [repeat constructor; exact Hs|].
      rewrite (scan_polygons_polygon inner pre s rest r start acc Hs Hin).
      rewrite <- (app_nil_r rest) at 1.
      rewrite (scan_polygons_plain inner rest Hrest). reflexivity.
    + exists []. split; [constructor|].
      rewrite <- (app_nil_r (s ++ rest)).
      rewrite scan_polygons_plain
        by (apply plain_app; [apply tokens_plain, empty_tokens, Hs|exact Hrest]).
      cbn [scan_polygons]. rewrite app_nil_r. reflexivity.
  - assert (Hsep : plain (w ++ [comma] ++ w')).
    { apply plain_app; [apply blank_plain, Hw|].
      apply plain_app; [|apply blank_plain, Hw'].
      constructor; [split; discriminate|constructor]. }
    destruct Hs as [s r Hs|s Hs].
    + destruct (IH inner (pre ++ s ++ w ++ [comma] ++ w') rest None
                  (acc ++ [s]))
        as (blocks & Hblocks & Hscan).
      { rewrite Hin. norm_app. reflexivity. }
      { exact Hrest. }
      exists (s :: blocks). split; [constructor; assumption|].
      replace ((s ++ w ++ comma :: w' ++ t) ++ rest)
        with (s ++ (w ++ [comma] ++ w') ++ t ++ rest)
        by (norm_app; reflexivity).
      rewrite (scan_polygons_polygon inner pre s _ r start acc Hs)
        by (rewrite Hin; norm_app; reflexivity).
      rewrite scan_polygons_plain by exact Hsep.
      replace (List.length pre + List.length s
               + List.length (w ++ [comma] ++ w'))
        with (List.length (pre ++ s ++ w ++ [comma] ++ w'))
        by (rewrite !length_app; lia).
      rewrite Hscan, <- app_assoc. reflexivity.
    + destruct (IH inner (pre ++ s ++ w ++ [comma] ++ w') rest start acc)
        as (blocks & Hblocks & Hscan).
      { rewrite Hin. norm_app. reflexivity. }
      { exact Hrest. }
      exists blocks. split; [exact Hblocks|].
      replace ((s ++ w ++ comma :: w' ++ t) ++ rest)
        with ((s ++ w ++ [comma] ++ w') ++ t ++ rest)
        by (norm_app; reflexivity).
      rewrite scan_polygons_plain
        by (apply plain_app;
            [apply tokens_plain, empty_tokens, Hs|exact Hsep]).
      replace (List.length pre + List.length (s ++ w ++ [comma] ++ w'))
        with (List.length (pre ++ s ++ w ++ [comma] ++ w'))
        by (rewrite !length_app; lia).
      exact Hscan.
Qed.

Lemma upper_M_not_space (c : ascii) :
  upper_char c = ch "M" -> is_space c = false.
Proof.
  destruct c as [[] [] [] [] [] [] [] []]; intros H;
    try reflexivity; discriminate H.
Qed.

Lemma keyword_shape (kw : str) :
  upper kw = lit "MULTIPOLYGON" ->
  List.length kw = 12
  /\ exists c kw', kw = c :: kw' /\ is_space c = false.
Proof.
  intros H. split.
  - rewrite <- (length_map upper_char kw). fold (upper kw). rewrite H.
    reflexivity.
  - destruct kw as [|c kw']; [discriminate|].
    exists c, kw'. split; [reflexivity|].
    apply upper_M_not_space. inversion H. reflexivity.
Qed.

Lemma slice_inner (c c' : ascii) (mid : str) :
  slice (c :: mid ++ [c']) 1 (List.length (c :: mid ++ [c']) - 1) = mid.
Proof.
  unfold slice. cbn [List.length skipn]. rewrite length_app.
  cbn [List.length].
  replace (S (List.length mid + 1) - 1 - 1) with (List.length mid) by lia.
  rewrite firstn_app, firstn_all, Nat.sub_diag. simpl. apply app_nil_r.
Qed.

(** The wrapper comes off: what is scanned is the text of the parts. *)
Lemma strip_wrapper_parts (w0 kw w1 w2 s w3 w4 : str)
    (ps : list (option ring)) :
  blank w0 -> upper kw = lit "MULTIPOLYGON" -> blank w1 -> blank w2 ->
  parts_text s ps -> blank w3 -> blank w4 ->
  strip_wrapper (w0 ++ kw ++ w1 ++ lparen :: w2 ++ s ++ w3 ++ rparen :: w4)
  = s.
Proof.
  intros H0 Hkw H1 H2 Hs H3 H4.
  destruct (keyword_shape kw Hkw) as (Hlen & c & kw' & -> & Hc).
  destruct (parts_ends s ps Hs) as (c1 & mid & c2 & Hmid & Hc1 & Hc2).
  unfold strip_wrapper.
  replace (w0 ++ (c :: kw') ++ w1 ++ lparen :: w2 ++ s ++ w3 ++ rparen :: w4)
    with (w0 ++ (c :: (kw' ++ w1 ++ lparen :: w2 ++ s ++ w3) ++ [rparen])
             ++ w4)
    by (norm_app; reflexivity).
  rewrite strip_core by (auto; reflexivity).
  replace (c :: (kw' ++ w1 ++ lparen :: w2 ++ s ++ w3) ++ [rparen])
    with ((c :: kw') ++ w1 ++ (lparen :: (w2 ++ s ++ w3) ++ [rparen]) ++ [])
    by (norm_app; rewrite ?app_nil_r; reflexivity).
  unfold upper. rewrite map_app. fold (upper (c :: kw')). rewrite Hkw.
  rewrite startswith_app.
  replace 12 with (List.length (c :: kw')) by exact Hlen.
  rewrite skipn_app, skipn_all, Nat.sub_diag, skipn_O, app_nil_l.
  rewrite strip_core by (try constructor; auto; reflexivity).
  rewrite startswith_head.
  change (lparen :: (w2 ++ s ++ w3) ++ [rparen])
    with ((lparen :: w2 ++ s ++ w3) ++ [rparen]) at 1.
  rewrite endswith_snoc. cbn [andb].
  rewrite slice_inner. rewrite Hmid.
  apply strip_core; auto.
Qed.

(** *** Text without a parenthesis *)

Lemma plain_strip (s : str) : plain s -> plain (strip s).
Proof.
  intros H. destruct (strip_decompose s) as (w & w' & _ & _ & E).
  rewrite E in H. apply Forall_app in H. destruct H as [_ H].
  apply Forall_app in H. apply H.
Qed.

Lemma plain_skipn (n : nat) (s : str) : plain s -> plain (skipn n s).
Proof.
  revert s. induction n as [|n IH]; intros s H; [exact H|].
  destruct s as [|c s]; [exact H|]. inversion H; subst. simpl. auto.
Qed.

Lemma plain_no_group (s : str) : plain s -> startswith s [lparen] = false.
Proof.
  intros H. destruct s as [|c s]; [reflexivity|]. inversion H as [|? ? [H1 _] _].
  simpl. rewrite (eqb_lparen c H1). reflexivity.
Qed.

Lemma strip_wrapper_plain (wkt : str) : plain wkt -> plain (strip_wrapper wkt).
Proof.
  intros H. unfold strip_wrapper.
  set (inner := if startswith (upper (strip wkt)) (lit "MULTIPOLYGON")
                then strip (skipn 12 (strip wkt)) else strip wkt).
  assert (Hin : plain inner).
  { unfold inner. destruct (startswith _ _).
    - apply plain_strip, plain_skipn, plain_strip, H.
    - apply plain_strip, H. }
  rewrite (plain_no_group inner Hin). exact Hin.
Qed.

(** *** The rings returned *)

(** No ring returned is empty. *)
Lemma parse_blocks_nonempty (polygons : list str) :
  forall acc rings,
    parse_blocks polygons acc = Ok rings ->
    Forall (fun r : ring => r <> []) acc ->
    Forall (fun r : ring => r <> []) rings.
Proof.
  induction polygons as [|b polygons IH]; intros acc rings H Hacc;
    simpl in H.
  - inversion H; subst. exact Hacc.
  - destruct (scan_ring _ _ _ _ _) as [ring_str|].
    + bind_inv H. apply IH in H; [exact H|].
      destruct a as [|c cs]; [exact Hacc|].
      apply Forall_app. split; [exact Hacc|].
      constructor; [discriminate|constructor].
    + apply IH in H; assumption.
Qed.

Lemma parse_wkt_nonempty (wkt : str) (rings : list ring) :
  parse_wkt_multipolygon wkt = Ok rings ->
  Forall (fun r : ring => r <> []) rings.
Proof.
  unfold parse_wkt_multipolygon. intros H.
  apply (parse_blocks_nonempty _ _ _ H). constructor.
Qed.

(** As many rings as parts, unless a part is empty. *)
Lemma exterior_rings_length (ps : list (option ring)) :
  List.length (exterior_rings ps) <= List.length ps
  /\ (List.length (exterior_rings ps) = List.length ps
      <-> Forall (fun p : option ring => p <> None) ps).
Proof.
  unfold exterior_rings.
  induction ps as [|[r|] ps [IHle IH]]; cbn [flat_map app List.length].
  - split; [lia|]. split; [constructor|reflexivity].
  - split; [lia|]. split.
    + intros H. constructor; [discriminate|]. apply IH. lia.
    + intros H. inversion H; subst. f_equal. apply IH. assumption.
  - split; [lia|]. split; [lia|].
    intros H. inversion H as [|? ? Hn _]. contradiction Hn. reflexivity.
Qed.

(** C5 (as amended). For every multipolygon text in two dimensions, with
    optional white space wherever the format allows it,
    [parse_wkt_multipolygon] returns one ring per polygon part that is not
    the word EMPTY, in order: the points of the first ring of the part, as
    the floats that its numbers denote, in the order of the text.  The
    interior rings are dropped, an empty part gives no ring, and no ring
    returned is empty: there are as many rings as parts exactly when no
    part is empty. *)
Theorem parse_wkt_valid (wkt : str) (ps : list (option ring)) :
  multipolygon_text wkt ps ->
  parse_wkt_multipolygon wkt = Ok (exterior_rings ps)
  /\ Forall (fun r : ring => r <> []) (exterior_rings ps)
  /\ List.length (exterior_rings ps) <= List.length ps
  /\ (List.length (exterior_rings ps) = List.length ps
      <-> Forall (fun p : option ring => p <> None) ps).
Proof.
  intros H.
  assert (Hparse : parse_wkt_multipolygon wkt = Ok (exterior_rings ps)).
  { destruct H as [w0 kw w1 w2 s w3 w4 ps H0 Hkw H1 H2 Hs H3 H4
                  |w0 kw w1 t w2 H0 Hkw H1 _ Ht H2].
    - unfold parse_wkt_multipolygon.
      rewrite (strip_wrapper_parts w0 kw w1 w2 s w3 w4 ps) by assumption.
      destruct (scan_polygons_parts s ps Hs s [] [] None [])
        as (blocks & Hblocks & Hscan).
      { rewrite app_nil_r. reflexivity. }
      { constructor. }
      rewrite app_nil_r in Hscan. simpl in Hscan. rewrite Hscan.
      apply (parse_blocks_polygons blocks _ Hblocks []).
    - assert (Hp : plain (w0 ++ kw ++ w1 ++ t ++ w2)).
      { repeat apply plain_app;
          auto using blank_plain, tokens_plain, keyword_tokens,
            empty_tokens. }
      unfold parse_wkt_multipolygon.
      pose proof (strip_wrapper_plain _ Hp) as Hin.
      pose proof (scan_polygons_plain (strip_wrapper (w0 ++ kw ++ w1 ++ t ++ w2))
                    _ Hin [] 0 0%Z None []) as Hscan.
      rewrite app_nil_r in Hscan. rewrite Hscan. reflexivity. }
  split; [exact Hparse|]. split; [apply (parse_wkt_nonempty _ _ Hparse)|].
  apply exterior_rings_length.
Qed.

Lemma number_digit (t : string) (x : float) :
  float_of_str (lit t) = Ok x ->
  forallb (fun c => negb (is_space c) && negb (Ascii.eqb c lparen)
                    && negb (Ascii.eqb c rparen) && negb (Ascii.eqb c comma))
          (lit t) = true ->
  lit t <> [] -> number_text (lit t) x.
Proof.
  intros Hx Hc Hne. split; [exact Hne|]. split; [|exact Hx].
  rewrite forallb_forall in Hc. apply Forall_forall. intros c Hin.
  specialize (Hc c Hin). rewrite !andb_true_iff, !negb_true_iff in Hc.
  destruct Hc as (((H1 & H2) & H3) & H4). repeat split; auto.
  - intros ->. discriminate H2.
  - intros ->. discriminate H3.
  - intros ->. discriminate H4.
Qed.

Lemma blank_space : blank (lit " ").
Proof. repeat constructor. Qed.

Lemma point_simple (w0 a b : string) (x y : float) :
  blank (lit w0) -> number_text (lit a) x -> number_text (lit b) y ->
  point_text (lit w0 ++ lit a ++ lit " " ++ lit b ++ []) (x, y).
Proof.
  intros H0 Ha Hb.
  apply point_intro; auto using blank_space; [discriminate|constructor].
Qed.

(** A point written as two numbers with one space between them. *)
Lemma point_digits (a b : string) (x y : float) :
  float_of_str (lit a) = Ok x -> float_of_str (lit b) = Ok y ->
  forallb (fun c => negb (is_space c) && negb (Ascii.eqb c lparen)
                    && negb (Ascii.eqb c rparen)
                    && negb (Ascii.eqb c comma))
          (lit a ++ lit b) = true ->
  lit a <> [] -> lit b <> [] ->
  forall w0, blank (lit w0) ->
  point_text (lit w0 ++ lit a ++ lit " " ++ lit b ++ []) (x, y).
Proof.
  intros Ha Hb Hc Hna Hnb w0 Hw0.
  rewrite forallb_app in Hc. apply andb_true_iff in Hc.
  destruct Hc as [Hca Hcb].
  apply point_simple; auto using number_digit.
Qed.

Lemma parse_wkt_valid_witness :
  multipolygon_text two_parts [Some [(1, 2); (3, 4)]; Some [(5, 6)]]%float
  /\ parse_wkt_multipolygon two_parts = Ok [[(1, 2); (3, 4)]; [(5, 6)]]%float.
Proof.
  assert (H : multipolygon_text two_parts
                [Some [(1, 2); (3, 4)]; Some [(5, 6)]]%float).
  { change two_parts with
      ([] ++ lit "MULTIPOLYGON" ++ lit " " ++ lparen :: []
          ++ ((lparen :: [] ++ (lparen :: ((lit "" ++ lit "1" ++ lit " " ++ lit "2" ++ [])
                                  ++ comma :: (lit " " ++ lit "3" ++ lit " " ++ lit "4" ++ []))
                                  ++ [rparen])
                          ++ [] ++ [rparen])
              ++ [] ++ comma :: lit " "
              ++ (lparen :: [] ++ (lparen :: (lit "" ++ lit "5" ++ lit " " ++ lit "6" ++ [])
                                     ++ [rparen])
                    ++ ([] ++ comma :: lit " "
                           ++ (lparen :: (lit "" ++ lit "7" ++ lit " " ++ lit "8" ++ [])
                                 ++ [rparen])
                           ++ [])
                    ++ [rparen]))
          ++ [] ++ rparen :: []).
    apply multipolygon_intro;
      try (match goal with |- blank _ => repeat constructor end);
      [reflexivity|].
    apply parts_cons;
      try (match goal with |- blank _ => repeat constructor end).
    - apply part_polygon.
      apply polygon_intro; [constructor| |apply holes_nil; constructor].
      apply ring_intro. apply points_cons; [|apply points_one].
      + apply point_digits; try reflexivity; try discriminate; constructor.
      + apply point_digits; try reflexivity; try discriminate;
          repeat constructor.
    - apply parts_one. apply part_polygon.
      apply polygon_intro; [constructor| |].
      + apply ring_intro. apply points_one.
        apply point_digits; try reflexivity; try discriminate; constructor.
      + apply (holes_cons [] (lit " ") _ [] [(7, 8)]%float);
          try (match goal with |- blank _ => repeat constructor end).
        * apply ring_intro. apply points_one.
          apply point_digits; try reflexivity; try discriminate; constructor.
        * apply holes_nil. constructor. }
  split; [exact H|]. apply (parse_wkt_valid two_parts _ H).
Defined.

(** C5 as stated fails on well-known text that the format allows.  A
    multipolygon of two parts whose first part is EMPTY gives one ring,
    not two.  And after the tag [Z] of a text in three dimensions the
    wrapper is not taken off: the first item of the ring then starts with a
    parenthesis and [float] raises. *)
Lemma parse_wkt_not_one_ring_per_part :
  multipolygon_text empty_part
    [None; Some [(1, 2); (3, 4); (5, 6); (1, 2)]]%float
  /\ parse_wkt_multipolygon empty_part
     = Ok [[(1, 2); (3, 4); (5, 6); (1, 2)]]%float
  /\ strip_wrapper tagged = lit "Z (((1 2 3, 4 5 6, 7 8 9, 1 2 3)))"
  /\ exterior_texts tagged = [lit "(1 2 3, 4 5 6, 7 8 9, 1 2 3)"]
  /\ float_of_str (lit "(1") = Raise ValueError
  /\ parse_wkt_multipolygon tagged = Raise ValueError.
Proof.
  split; [|repeat split; vm_compute; reflexivity].
  change empty_part with
    ([] ++ lit "MULTIPOLYGON" ++ lit " " ++ lparen :: []
        ++ (lit "EMPTY" ++ [] ++ comma :: lit " "
            ++ (lparen :: []
                  ++ (lparen
                        :: ((lit "" ++ lit "1" ++ lit " " ++ lit "2" ++ [])
                            ++ comma
                               :: ((lit " " ++ lit "3" ++ lit " " ++ lit "4" ++ [])
                                   ++ comma
                                      :: ((lit " " ++ lit "5" ++ lit " "
                                             ++ lit "6" ++ [])
                                          ++ comma
                                             :: (lit " " ++ lit "1" ++ lit " "
                                                   ++ lit "2" ++ []))))
                        ++ [rparen])
                  ++ [] ++ [rparen]))
        ++ [] ++ rparen :: []).
  apply multipolygon_intro;
    try (match goal with |- blank _ => repeat constructor end);
    [reflexivity|].
  apply parts_cons;
    try (match goal with |- blank _ => repeat constructor end).
  - apply part_empty. reflexivity.
  - apply parts_one. apply part_polygon.
    apply polygon_intro; [constructor| |apply holes_nil; constructor].
    apply ring_intro.
    repeat (apply points_cons;
            [apply point_digits; try reflexivity; try discriminate;
             repeat constructor|]).
    apply points_one.
    apply point_digits; try reflexivity; try discriminate;
      repeat constructor.
Qed.

(** *** Malformed text *)

Lemma float_of_str_error (s : str) (e : exn) :
  float_of_str s = Raise e -> e = ValueError.
Proof.
  unfold float_of_str. destruct (signed (float_strip s)) as [neg body].
  repeat (destruct (list_eq_dec _ _ _); [discriminate|]).
  destruct (number body) as [[[ip fp] r]|]; [|congruence].
  destruct (exponent r); [discriminate|congruence].
Qed.

Lemma parse_pairs_error (items : list str) :
  forall acc e, parse_pairs items acc = Raise e -> e = ValueError.
Proof.
  induction items as [|item items IH]; intros acc e H; simpl in H;
    [discriminate|].
  destruct (split_ws (strip item)) as [|p0 [|p1 ps]]; eauto.
  destruct (float_of_str p0) as [x|e0] eqn:E0; simpl in H;
    [|inversion H; subst; apply (float_of_str_error p0 e E0)].
  destruct (float_of_str p1) as [y|e1] eqn:E1; simpl in H;
    [|inversion H; subst; apply (float_of_str_error p1 e E1)].
  eauto.
Qed.

Lemma parse_pairs_ok (items : list str) :
  forall acc,
    (exists cs, parse_pairs items acc = Ok cs) <-> Forall item_ok items.
Proof.
  induction items as [|item items IH]; intros acc; simpl.
  - split; [constructor|eauto].
  - unfold item_ok at 1.
    destruct (split_ws (strip item)) as [|p0 [|p1 ps]] eqn:E.
    + rewrite IH. split; [intros H; constructor; auto|].
      * unfold item_ok. rewrite E. exact I.
      * intros H. inversion H; assumption.
    + rewrite IH. split; [intros H; constructor; auto|].
      * unfold item_ok. rewrite E. exact I.
      * intros H. inversion H; assumption.
    + destruct (float_of_str p0) as [x|e0] eqn:E0; simpl.
      * destruct (float_of_str p1) as [y|e1] eqn:E1; simpl.
        -- rewrite IH. split; [intros H; constructor; auto|].
           ++ unfold item_ok. rewrite E, E0, E1. eauto.
           ++ intros H. inversion H; assumption.
        -- split; [intros [cs H]; discriminate|].
           intros H. inversion H as [|? ? Hi _]; subst.
           unfold item_ok in Hi. rewrite E, E1 in Hi.
           destruct Hi as (_ & y & Hy). discriminate.
      * split; [intros [cs H]; discriminate|].
        intros H. inversion H as [|? ? Hi _]; subst.
        unfold item_ok in Hi. rewrite E, E0 in Hi.
        destruct Hi as ((x & Hx) & _). discriminate.
Qed.

Lemma parse_blocks_error (blocks : list str) :
  forall acc e, parse_blocks blocks acc = Raise e -> e = ValueError.
Proof.
  induction blocks as [|b blocks IH]; intros acc e H; simpl in H;
    [discriminate|].
  destruct (scan_ring _ _ _ _ _) as [t|]; eauto.
  destruct (parse_pairs (split_on comma t) []) as [cs|e'] eqn:E; simpl in H.
  - eauto.
  - inversion H; subst. apply (parse_pairs_error _ _ _ E).
Qed.

Lemma parse_blocks_ok (blocks : list str) :
  forall acc,
    (exists out, parse_blocks blocks acc = Ok out)
    <-> Forall (fun t => Forall item_ok (split_on comma t)) (texts_of blocks).
Proof.
  induction blocks as [|b blocks IH]; intros acc; simpl.
  - split; [constructor|eauto].
  - unfold block_ring.
    destruct (scan_ring (strip_block b) (strip_block b) 0 0 None) as [t|];
      simpl; [|apply IH].
    destruct (parse_pairs (split_on comma t) []) as [cs|e] eqn:E; simpl.
    + rewrite IH. split; [intros H; constructor; auto|].
      * apply (parse_pairs_ok _ []). eauto.
      * intros H. inversion H; assumption.
    + split; [intros [out H]; discriminate|].
      intros H. inversion H as [|? ? Ht _]; subst.
      apply (parse_pairs_ok _ []) in Ht. destruct Ht as [cs Hcs].
      congruence.
Qed.

(** C6 (as amended). [parse_wkt_multipolygon] raises no error other than
    [ValueError], and returns exactly when, in each ring text that it
    converts, every item with two fields or more has float literals as its
    first two fields.  Items with fewer than two fields are skipped, and a
    ring left without a point contributes nothing. *)
Theorem parse_wkt_errors (wkt : str) :
  (forall e, parse_wkt_multipolygon wkt = Raise e -> e = ValueError)
  /\ ((exists rings, parse_wkt_multipolygon wkt = Ok rings)
      <-> Forall (fun t => Forall item_ok (split_on comma t))
            (exterior_texts wkt))
  /\ (forall rings, parse_wkt_multipolygon wkt = Ok rings ->
                    Forall (fun r : ring => r <> []) rings).
Proof.
  unfold parse_wkt_multipolygon, exterior_texts. split; [|split].
  - intros e. apply parse_blocks_error.
  - apply parse_blocks_ok.
  - intros rings H. apply (parse_wkt_nonempty wkt rings H).
Qed.

Lemma parse_wkt_errors_witness :
  exterior_texts sloppy = [lit "1 2, 3"; lit ""; lit "x"]
  /\ parse_wkt_multipolygon sloppy = Ok [[(1, 2)%float]].
Proof.
  assert (Ht : exterior_texts sloppy = [lit "1 2, 3"; lit ""; lit "x"])
    by (vm_compute; reflexivity).
  split; [exact Ht|].
  destruct (proj2 (proj1 (proj2 (parse_wkt_errors sloppy)))) as [rings H].
  - rewrite Ht. repeat constructor.
    exists 1%float. vm_compute. reflexivity.
    exists 2%float. vm_compute. reflexivity.
  - rewrite H. vm_compute in H. inversion H. reflexivity.
Defined.

(** C6 as stated fails: a token that is not a number raises. *)
Lemma parse_wkt_raises :
  parse_wkt_multipolygon (lit "MULTIPOLYGON(((a b)))") = Raise ValueError.
Proof. vm_compute. reflexivity. Qed.

End Wkt.

(** ** The bounding box *)

Module BBox.
Import Py Deckgl Spec Samples FloatFacts.
Local Open Scope float_scope.

Lemma all_extremes_coords (bs : boundaries) :
  all_extremes bs = fold_left extend (coords_of bs) extremes_init.
Proof.
  unfold all_extremes, coords_of. generalize extremes_init.
  induction bs as [|[k rings] bs IH]; intros e; simpl; [reflexivity|].
  rewrite fold_left_app, IH. f_equal.
  unfold extend_rings. clear. revert e.
  induction rings as [|r rings IH]; intros e; simpl; [reflexivity|].
  rewrite fold_left_app, IH. reflexivity.
Qed.

Lemma fold_extend (cs : list coord) (e : extremes) :
  fold_left extend cs e
  = mk_extremes (fold_left min2 (map fst cs) (min_lon e))
                (fold_left min2 (map snd cs) (min_lat e))
                (fold_left max2 (map fst cs) (max_lon e))
                (fold_left max2 (map snd cs) (max_lat e)).
Proof.
  revert e. induction cs as [|[lon lat] cs IH]; intros e; simpl.
  - destruct e; reflexivity.
  - rewrite IH. reflexivity.
Qed.

Lemma fold_min2_keeps (l : list float) :
  forall a x, (x <? a) = false -> (x <? fold_left min2 l a) = false.
Proof.
  induction l as [|y l IH]; intros a x H; simpl; [exact H|].
  apply IH. unfold min2. destruct (y <? a) eqn:E; [|exact H].
  destruct (x <? y) eqn:E'; [|reflexivity].
  rewrite (ltb_trans _ _ _ E' E) in H. discriminate.
Qed.

Lemma fold_min2_bound (l : list float) :
  forall a x, In x l -> (x <? fold_left min2 l a) = false.
Proof.
  induction l as [|y l IH]; intros a x H; simpl; [contradiction|].
  destruct H as [->|H]; [|apply IH; exact H].
  apply fold_min2_keeps. unfold min2.
  destruct (x <? a) eqn:E; [apply ltb_irrefl|exact E].
Qed.

Lemma fold_min2_in (l : list float) :
  forall a, fold_left min2 l a = a \/ In (fold_left min2 l a) l.
Proof.
  induction l as [|y l IH]; intros a; simpl; [left; reflexivity|].
  destruct (IH (min2 a y)) as [H|H]; [|right; right; exact H].
  rewrite H. unfold min2. destruct (y <? a); auto.
Qed.

Lemma fold_max2_keeps (l : list float) :
  forall a x, (a <? x) = false -> (fold_left max2 l a <? x) = false.
Proof.
  induction l as [|y l IH]; intros a x H; simpl; [exact H|].
  apply IH. unfold max2. destruct (a <? y) eqn:E; [|exact H].
  destruct (y <? x) eqn:E'; [|reflexivity].
  rewrite (ltb_trans _ _ _ E E') in H. discriminate.
Qed.

Lemma fold_max2_bound (l : list float) :
  forall a x, In x l -> (fold_left max2 l a <? x) = false.
Proof.
  induction l as [|y l IH]; intros a x H; simpl; [contradiction|].
  destruct H as [->|H]; [|apply IH; exact H].
  apply fold_max2_keeps. unfold max2.
  destruct (a <? x) eqn:E; [apply ltb_irrefl|exact E].
Qed.

Lemma fold_max2_in (l : list float) :
  forall a, fold_left max2 l a = a \/ In (fold_left max2 l a) l.
Proof.
  induction l as [|y l IH]; intros a; simpl; [left; reflexivity|].
  destruct (IH (max2 a y)) as [H|H]; [|right; right; exact H].
  rewrite H. unfold max2. destruct (a <? y); auto.
Qed.

(** Over finite numbers, at least one, the folds pick one of them. *)
Lemma fold_min2_finite (l : list float) :
  l <> [] -> Forall (fun x => finite x = true) l ->
  In (fold_left min2 l infinity) l.
Proof.
  intros Hne Hfin. destruct (fold_min2_in l infinity) as [H|H]; [|exact H].
  destruct l as [|x l]; [contradiction|]. exfalso.
  pose proof (fold_min2_bound (x :: l) infinity x (or_introl eq_refl)) as Hb.
  rewrite H, finite_lt_infinity in Hb; [discriminate|].
  inversion Hfin; assumption.
Qed.

Lemma fold_max2_finite (l : list float) :
  l <> [] -> Forall (fun x => finite x = true) l ->
  In (fold_left max2 l neg_infinity) l.
Proof.
  intros Hne Hfin. destruct (fold_max2_in l neg_infinity) as [H|H]; [|exact H].
  destruct l as [|x l]; [contradiction|]. exfalso.
  pose proof (fold_max2_bound (x :: l) neg_infinity x (or_introl eq_refl))
    as Hb.
  rewrite H, finite_gt_neg_infinity in Hb; [discriminate|].
  inversion Hfin; assumption.
Qed.

Lemma bounding_box_folds (bs : boundaries) :
  bounding_box bs
  = (fold_left min2 (map fst (coords_of bs)) infinity - buf,
     fold_left min2 (map snd (coords_of bs)) infinity - buf,
     fold_left max2 (map fst (coords_of bs)) neg_infinity + buf,
     fold_left max2 (map snd (coords_of bs)) neg_infinity + buf).
Proof.
  unfold bounding_box. rewrite all_extremes_coords, fold_extend. reflexivity.
Qed.

Lemma bounding_box_finite (bs : boundaries) :
  coords_of bs <> [] -> Forall finite_coord (coords_of bs) ->
  In (fold_left min2 (map fst (coords_of bs)) infinity) (map fst (coords_of bs))
  /\ In (fold_left min2 (map snd (coords_of bs)) infinity)
        (map snd (coords_of bs))
  /\ In (fold_left max2 (map fst (coords_of bs)) neg_infinity)
        (map fst (coords_of bs))
  /\ In (fold_left max2 (map snd (coords_of bs)) neg_infinity)
        (map snd (coords_of bs))
  /\ finite_box (bounding_box bs).
Proof.
  intros Hne Hfin.
  assert (Hx : Forall (fun x => finite x = true) (map fst (coords_of bs))).
  { apply Forall_forall. intros x Hx. apply in_map_iff in Hx.
    destruct Hx as (c & <- & Hc).
    rewrite Forall_forall in Hfin. apply (Hfin c Hc). }
  assert (Hy : Forall (fun x => finite x = true) (map snd (coords_of bs))).
  { apply Forall_forall. intros x Hx'. apply in_map_iff in Hx'.
    destruct Hx' as (c & <- & Hc).
    rewrite Forall_forall in Hfin. apply (Hfin c Hc). }
  assert (Hnx : map fst (coords_of bs) <> [])
    by (destruct (coords_of bs); [contradiction|discriminate]).
  assert (Hny : map snd (coords_of bs) <> [])
    by (destruct (coords_of bs); [contradiction|discriminate]).
  pose proof (fold_min2_finite _ Hnx Hx) as H1.
  pose proof (fold_min2_finite _ Hny Hy) as H2.
  pose proof (fold_max2_finite _ Hnx Hx) as H3.
  pose proof (fold_max2_finite _ Hny Hy) as H4.
  split; [exact H1|split; [exact H2|split; [exact H3|split; [exact H4|]]]].
  rewrite bounding_box_folds. unfold finite_box, buf.
  rewrite Forall_forall in Hx, Hy.
  repeat split.
  - apply finite_buf, Hx, H1.
  - apply finite_buf, Hy, H2.
  - apply finite_buf, Hx, H3.
  - apply finite_buf, Hy, H4.
Qed.

(** C7 (as amended). For every boundary mapping, [bounding_box] returns
    [(min_lon - 0.002, min_lat - 0.002, max_lon + 0.002, max_lat + 0.002)],
    the extremes being Python's [min] and [max] folded over every
    coordinate of every ring from the infinite sentinels: no coordinate is
    below a minimum or above a maximum.  When the mapping holds at least
    one coordinate pair and all its coordinates are finite, each extreme is
    one of the coordinates and the four results are finite.  For extremes
    [-74.0], [40.6], [-73.9], [40.7] the result in binary64 arithmetic is
    [(-74.002, 40.598, -73.89800000000001, 40.702000000000005)]. *)
Theorem bounding_box_spec (bs : boundaries) :
  let cs := coords_of bs in
  let lo_lon := fold_left min2 (map fst cs) infinity in
  let lo_lat := fold_left min2 (map snd cs) infinity in
  let hi_lon := fold_left max2 (map fst cs) neg_infinity in
  let hi_lat := fold_left max2 (map snd cs) neg_infinity in
  bounding_box bs = (lo_lon - 0.002, lo_lat - 0.002,
                     hi_lon + 0.002, hi_lat + 0.002)
  /\ Forall (fun c => (fst c <? lo_lon) = false /\ (snd c <? lo_lat) = false
                      /\ (hi_lon <? fst c) = false
                      /\ (hi_lat <? snd c) = false) cs
  /\ (cs <> [] -> Forall finite_coord cs ->
      In lo_lon (map fst cs) /\ In lo_lat (map snd cs)
      /\ In hi_lon (map fst cs) /\ In hi_lat (map snd cs)
      /\ finite_box (bounding_box bs))
  /\ (lo_lon = -74.0 -> lo_lat = 40.6 -> hi_lon = -73.9 -> hi_lat = 40.7 ->
      bounding_box bs
      = (-74.002, 40.598, -73.89800000000001, 40.702000000000005)).
Proof.
  intros cs lo_lon lo_lat hi_lon hi_lat.
  split; [apply bounding_box_folds|].
  split; [|split].
  - apply Forall_forall. intros c Hc. repeat split.
    + apply fold_min2_bound, in_map, Hc.
    + apply fold_min2_bound, in_map, Hc.
    + apply fold_max2_bound, in_map, Hc.
    + apply fold_max2_bound, in_map, Hc.
  - apply bounding_box_finite.
  - intros H1 H2 H3 H4. rewrite bounding_box_folds.
    fold cs. fold lo_lon lo_lat hi_lon hi_lat.
    rewrite H1, H2, H3, H4. vm_compute. reflexivity.
Qed.

Lemma bounding_box_spec_witness :
  finite_box (bounding_box span_example)
  /\ bounding_box span_example
     = (-74.002, 40.598, -73.89800000000001, 40.702000000000005).
Proof.
  pose proof (bounding_box_spec span_example) as H. cbv zeta in H.
  destruct H as (_ & _ & Hfin & Hex). split.
  - apply Hfin; [discriminate|].
    repeat constructor.
  - apply Hex; reflexivity.
Defined.

(** C7 as stated fails twice.  A mapping that is not empty may hold no
    coordinate, and then the box is infinite; and for the spans of the
    example the east and north bounds are not the decimal numbers
    [-73.898] and [40.702], which are other binary64 numbers. *)
Lemma bounding_box_not_as_stated :
  bounding_box [(lit "A", [])]
  = (infinity, infinity, neg_infinity, neg_infinity)
  /\ bounding_box span_example
     = (-74.002, 40.598, -73.89800000000001, 40.702000000000005)
  /\ (-73.89800000000001 =? -73.898) = false
  /\ (40.702000000000005 =? 40.702) = false.
Proof. repeat split. Qed.

End BBox.

(** ** Step A: the loaded boundaries *)

Module Loading.
Import Py Deckgl Spec Samples PyFacts FloatFacts Wkt BBox.
Local Open Scope py_scope.

(** A cell that was parsed held a text. *)
Lemma parse_wkt_cell_ok (v : cell) (rings : list ring) :
  parse_wkt_cell v = Ok rings ->
  exists wkt, v = Some wkt /\ parse_wkt_multipolygon wkt = Ok rings.
Proof. destruct v as [wkt|]; simpl; [eauto|discriminate]. Qed.

(** One turn of the loop of the loader. *)
Lemma load_rows_cons (row : csv_row) (rows : list csv_row)
    (bid_set : list str) (bs : boundaries) :
  load_rows (row :: rows) bid_set bs
  = (name <- row_name row ;;
     if mem name bid_set then
       rings <- parse_wkt_cell (row_geom row) ;;
       load_rows rows bid_set
         (match rings with
          | [] => bs
          | _ :: _ => set bs name rings
          end)
     else load_rows rows bid_set bs).
Proof. reflexivity. Qed.

Lemma load_rows_NoDup (rows : list csv_row) (bid_set : list str) :
  forall bs bs',
    load_rows rows bid_set bs = Ok bs' -> NoDup (keys bs) -> NoDup (keys bs').
Proof.
  induction rows as [|row rows IH]; intros bs bs' H Hnd.
  - inversion H; subst. exact Hnd.
  - rewrite load_rows_cons in H. apply bind_ok in H.
    destruct H as (name & _ & H). destruct (mem name bid_set).
    + bind_inv H. apply IH in H; [exact H|].
      destruct a; [exact Hnd|apply NoDup_keys_set; exact Hnd].
    + apply IH in H; assumption.
Qed.

Lemma load_stage_NoDup (rows : list csv_row) (bs : boundaries) :
  load_stage rows = Ok bs -> NoDup (keys bs).
Proof.
  unfold load_stage, load_bid_boundaries. intros H. bind_inv H.
  inversion H; subst. apply NoDup_keys_set.
  apply (load_rows_NoDup rows BROOKLYN_BIDS [] a Ha). constructor.
Qed.

Lemma load_rows_well_formed (rows : list csv_row) (bid_set : list str) :
  forall bs bs',
    load_rows rows bid_set bs = Ok bs' ->
    Forall well_formed bs -> Forall well_formed bs'.
Proof.
  induction rows as [|row rows IH]; intros bs bs' H Hwf.
  - inversion H; subst. exact Hwf.
  - rewrite load_rows_cons in H. apply bind_ok in H.
    destruct H as (name & _ & H). destruct (mem name bid_set).
    + bind_inv H. apply IH in H; [exact H|].
      destruct a as [|r rs] eqn:Ea; [exact Hwf|].
      apply Forall_set; [exact Hwf|]. split; [discriminate|].
      destruct (parse_wkt_cell_ok _ _ Ha) as (wkt & _ & Hp).
      apply (parse_wkt_nonempty _ _ Hp).
    + apply IH in H; assumption.
Qed.

Lemma coords_of_set (P : coord -> Prop) (bs : boundaries) (k : str)
    (r : ring) :
  Forall P (coords_of bs) -> Forall P r -> Forall P (coords_of (set bs k [r])).
Proof.
  unfold coords_of. induction bs as [|[k' v'] bs IH]; intros Hbs Hr; simpl.
  - rewrite !app_nil_r. exact Hr.
  - simpl in Hbs. apply Forall_app in Hbs. destruct Hbs as [H1 H2].
    destruct (str_eqb k k'); simpl.
    + rewrite app_nil_r. apply Forall_app. split; assumption.
    + apply Forall_app. split; [assumption|apply IH; assumption].
Qed.

Lemma coords_of_set_in (bs : boundaries) (k : str) (r : ring) (c : coord) :
  In c r -> In c (coords_of (set bs k [r])).
Proof.
  unfold coords_of. intros Hc.
  induction bs as [|[k' v'] bs IH]; simpl.
  - rewrite !app_nil_r. exact Hc.
  - destruct (str_eqb k k'); simpl.
    + rewrite app_nil_r. apply in_or_app. left. exact Hc.
    + apply in_or_app. right. exact IH.
Qed.

Lemma GOWANUS_finite : Forall finite_coord GOWANUS_BOUNDARY.
Proof. repeat constructor. Qed.

(** C9 (as amended). Every value of the mapping that
    [load_bid_boundaries] returns is a list of rings that is not empty and
    whose rings are not empty: the parser emits no empty ring and an empty
    parse is not stored.  The mapping itself may be empty.  After the
    injection of the Gowanus boundary the mapping keeps that shape and
    holds a coordinate, and [bounding_box] of it is finite whenever the
    coordinates parsed from the CSV are finite. *)
Theorem loaded_boundaries_shape (rows : list csv_row) (bid_names : list str)
    (bs0 : boundaries) :
  load_bid_boundaries rows bid_names = Ok bs0 ->
  Forall well_formed bs0
  /\ (forall wkt rings,
         parse_wkt_multipolygon wkt = Ok rings ->
         Forall (fun r : ring => r <> []) rings)
  /\ let bs := set bs0 (lit "Gowanus BID (Proposed)") [GOWANUS_BOUNDARY] in
     Forall well_formed bs
     /\ coords_of bs <> []
     /\ (Forall finite_coord (coords_of bs0) -> finite_box (bounding_box bs)).
Proof.
  unfold load_bid_boundaries. intros H.
  assert (Hwf : Forall well_formed bs0)
    by (apply (load_rows_well_formed _ _ _ _ H); constructor).
  split; [exact Hwf|]. split; [apply parse_wkt_nonempty|].
  cbv zeta.
  set (bs := set bs0 (lit "Gowanus BID (Proposed)") [GOWANUS_BOUNDARY]).
  assert (Hne : coords_of bs <> []).
  { intros E.
    pose proof (coords_of_set_in bs0 (lit "Gowanus BID (Proposed)")
                  GOWANUS_BOUNDARY (-73.98871236113611, 40.6852235692749)%float
                  (or_introl eq_refl)) as Hin.
    fold bs in Hin. rewrite E in Hin. exact Hin. }
  split; [|split; [exact Hne|]].
  - apply Forall_set; [exact Hwf|]. split; [discriminate|].
    constructor; [discriminate|constructor].
  - intros Hfin. apply bounding_box_finite; [exact Hne|].
    apply coords_of_set; [exact Hfin|exact GOWANUS_finite].
Qed.

Lemma loaded_boundaries_shape_witness :
  exists bs0,
    load_bid_boundaries [dumbo_row] BROOKLYN_BIDS = Ok bs0
    /\ keys bs0 = [lit "DUMBO"]
    /\ Forall well_formed bs0
    /\ finite_box
         (bounding_box
            (set bs0 (lit "Gowanus BID (Proposed)") [GOWANUS_BOUNDARY])).
Proof.
  destruct (load_bid_boundaries [dumbo_row] BROOKLYN_BIDS) as [bs0|e] eqn:E;
    [|vm_compute in E; discriminate E].
  destruct (loaded_boundaries_shape _ _ _ E) as (Hwf & _ & _ & _ & Hfin).
  exists bs0. vm_compute in E. inversion E; subst bs0.
  split; [reflexivity|]. split; [reflexivity|]. split; [exact Hwf|].
  apply Hfin. repeat constructor.
Defined.

(** C9 as stated fails: the loader returns the empty mapping for a CSV
    without a row of the target set, and its box is infinite; and after
    the injection a coordinate that [float] reads as an infinity makes the
    box infinite too. *)
Lemma loaded_box_not_always_finite :
  load_bid_boundaries [] BROOKLYN_BIDS = Ok []
  /\ bounding_box []
     = (infinity, infinity, neg_infinity, neg_infinity)%float
  /\ (bs <- load_stage [huge_row] ;; Ok (snd (fst (bounding_box bs))))
     = Ok infinity.
Proof.
  split; [reflexivity|]. split; [reflexivity|].
  vm_compute. reflexivity.
Qed.

End Loading.

(** ** Step B: the paginated fetch *)

Module Fetch.
Import Py Deckgl Spec Samples.

Lemma page_pos : 0 < page.
Proof. unfold page, PAGE_SIZE. lia. Qed.

Lemma page_Z : Z.of_nat page = PAGE_SIZE.
Proof. unfold page, PAGE_SIZE. lia. Qed.

Lemma short_page (batch : list pluto_row) :
  (Z.of_nat (List.length batch) <? PAGE_SIZE)%Z = true
  <-> List.length batch < page.
Proof. rewrite Z.ltb_lt, <- page_Z. lia. Qed.

(** One turn on a page that is not full: the loop ends with the rows of
    the page added. *)
Lemma fetch_step_short (srv : server) (st : fetch_state)
    (batch : list pluto_row) :
  srv (offset st) = Ok batch -> List.length batch < page ->
  fetch_step srv st
  = inr (Ok (all_rows st ++ batch), requests st ++ [offset st]).
Proof.
  intros Hs Hlen. unfold fetch_step. rewrite Hs.
  destruct batch as [|r batch]; [rewrite app_nil_r; reflexivity|].
  apply short_page in Hlen. rewrite Hlen. reflexivity.
Qed.

(** One turn on a full page: the rows are added and the offset advances. *)
Lemma fetch_step_full (srv : server) (st : fetch_state)
    (batch : list pluto_row) :
  srv (offset st) = Ok batch -> page <= List.length batch ->
  fetch_step srv st
  = inl (mk_fetch (all_rows st ++ batch) (offset st + PAGE_SIZE)
           (requests st ++ [offset st])).
Proof.
  intros Hs Hlen. unfold fetch_step. rewrite Hs.
  destruct batch as [|r batch];
    [pose proof page_pos; simpl in Hlen; lia|].
  destruct (Z.of_nat (List.length (r :: batch)) <? PAGE_SIZE)%Z eqn:E;
    [|reflexivity].
  apply short_page in E. lia.
Qed.

Lemma fetch_step_error (srv : server) (st : fetch_state) (e : exn) :
  srv (offset st) = Raise e ->
  fetch_step srv st = inr (Raise e, requests st ++ [offset st]).
Proof. intros Hs. unfold fetch_step. rewrite Hs. reflexivity. Qed.

(** Full pages and then a short one: the loop asks for each of them once
    and returns their concatenation. *)
Lemma fetch_loop_pages (srv : server) (pages : list (list pluto_row))
    (last : list pluto_row) :
  forall (st : fetch_state) (fuel : nat),
    Forall (fun pg => page <= List.length pg) pages ->
    List.length last < page ->
    (forall i pg, nth_error (pages ++ [last]) i = Some pg ->
                  srv (offset st + Z.of_nat i * PAGE_SIZE)%Z = Ok pg) ->
    List.length pages < fuel ->
    fetch_loop fuel srv st
    = Some (Ok (all_rows st ++ List.concat pages ++ last),
            requests st ++ offsets (S (List.length pages)) (offset st)).
Proof.
  induction pages as [|pg pages IH]; intros st fuel Hfull Hlast Hsrv Hfuel;
    (destruct fuel as [|fuel]; [simpl in Hfuel; lia|]); simpl fetch_loop.
  - rewrite (fetch_step_short srv st last); auto.
    specialize (Hsrv 0 last eq_refl). rewrite Z.mul_0_l, Z.add_0_r in Hsrv.
    exact Hsrv.
  - inversion Hfull as [|? ? Hpg Hrest]; subst.
    rewrite (fetch_step_full srv st pg); auto.
    + rewrite IH; cbn [all_rows offset requests List.length List.concat];
        auto.
      * rewrite <- !app_assoc. reflexivity.
      * intros i p Hi. specialize (Hsrv (S i) p Hi).
        rewrite <- Hsrv. f_equal. lia.
      * simpl in Hfuel. lia.
    + specialize (Hsrv 0 pg eq_refl).
      rewrite Z.mul_0_l, Z.add_0_r in Hsrv. exact Hsrv.
Qed.

(** Against a fixed source the loop returns the whole source, after one
    request per full page and one more. *)
Lemma fetch_loop_paged (fuel : nat) :
  forall (done rest : list pluto_row) (reqs : list Z),
    List.length rest / page < fuel ->
    fetch_loop fuel (paged (done ++ rest))
      (mk_fetch done (Z.of_nat (List.length done)) reqs)
    = Some (Ok (done ++ rest),
            reqs ++ offsets (List.length rest / page + 1)
                      (Z.of_nat (List.length done))).
Proof.
  pose proof page_pos as Hp.
  induction fuel as [|fuel IH]; intros done rest reqs Hfuel; [lia|].
  simpl fetch_loop.
  assert (Hsrv : paged (done ++ rest) (Z.of_nat (List.length done))
                 = Ok (firstn page rest)).
  { unfold paged. fold page. rewrite Nat2Z.id, skipn_app, skipn_all, Nat.sub_diag.
    reflexivity. }
  destruct (Nat.lt_ge_cases (List.length rest) page) as [Hshort|Hfull].
  - rewrite (fetch_step_short _ _ (firstn page rest));
      cbn [all_rows offset requests]; auto.
    + rewrite firstn_all2 by lia. rewrite Nat.div_small by lia. reflexivity.
    + rewrite length_firstn. lia.
  - rewrite (fetch_step_full _ _ (firstn page rest));
      cbn [all_rows offset requests]; auto.
    + assert (Hdiv : List.length rest / page
                     = S (List.length (skipn page rest) / page)).
      { rewrite length_skipn.
        replace (List.length rest)
          with (1 * page + (List.length rest - page)) at 1 by lia.
        rewrite Nat.div_add_l by lia. lia. }
      pose proof (IH (done ++ firstn page rest) (skipn page rest)
                    (reqs ++ [Z.of_nat (List.length done)])) as H.
      rewrite <- app_assoc, firstn_skipn in H.
      rewrite length_app, length_firstn, Nat.min_l, Nat2Z.inj_add, page_Z in H
        by lia.
      rewrite H by lia. rewrite Hdiv, <- app_assoc.
      rewrite !Nat.add_1_r. reflexivity.
    + rewrite length_firstn. lia.
Qed.

(** C8. The fetch loop ends at the first page that is empty or shorter
    than the page size, having asked once for each offset up to there, and
    returns the pages in order, each row once.  Against a fixed source it
    returns the source itself after one request per full page and one
    more; for 120001 rows these are the three offsets 0, 50000, 100000. *)
Theorem fetch_pluto_terminates :
  (forall srv st batch,
      srv (offset st) = Ok batch -> List.length batch < page ->
      fetch_step srv st
      = inr (Ok (all_rows st ++ batch), requests st ++ [offset st]))
  /\ (forall srv pages last fuel,
         Forall (fun pg => page <= List.length pg) pages ->
         List.length last < page ->
         (forall i pg, nth_error (pages ++ [last]) i = Some pg ->
                       srv (Z.of_nat i * PAGE_SIZE)%Z = Ok pg) ->
         List.length pages < fuel ->
         fetch_pluto fuel srv
         = Some (Ok (List.concat pages ++ last),
                 offsets (S (List.length pages)) 0))
  /\ (forall source fuel,
         List.length source / page < fuel ->
         fetch_pluto fuel (paged source)
         = Some (Ok source, offsets (List.length source / page + 1) 0))
  /\ (forall source fuel,
         Z.of_nat (List.length source) = 120001%Z -> 3 <= fuel ->
         fetch_pluto fuel (paged source)
         = Some (Ok source, [0; 50000; 100000]%Z)).
Proof.
  assert (Hsrc : forall source fuel,
             List.length source / page < fuel ->
             fetch_pluto fuel (paged source)
             = Some (Ok source, offsets (List.length source / page + 1) 0)).
  { intros source fuel Hfuel.
    apply (fetch_loop_paged fuel [] source [] Hfuel). }
  split; [exact fetch_step_short|]. split; [|split; [exact Hsrc|]].
  - intros srv pages last fuel Hfull Hlast Hsrv Hfuel.
    apply (fetch_loop_pages srv pages last (mk_fetch [] 0 []) fuel); auto.
  - intros source fuel Hlen Hfuel.
    assert (Hdiv : List.length source / page = 2).
    { symmetry.
      apply (Nat.div_unique _ _ _ (List.length source - 2 * page));
        pose proof page_Z; unfold PAGE_SIZE in *; lia. }
    rewrite Hsrc by lia. rewrite Hdiv. reflexivity.
Qed.

Lemma fetch_pluto_terminates_witness :
  fetch_pluto 3 (paged source_120001)
  = Some (Ok source_120001, [0; 50000; 100000]%Z).
Proof.
  apply (proj2 (proj2 (proj2 fetch_pluto_terminates))).
  - unfold source_120001. rewrite repeat_length. lia.
  - lia.
Defined.

End Fetch.

(** ** Step C: the ray-cast test and the first match *)

Module RayCast.
Import Py Deckgl Spec Samples PyFacts FloatFacts.
Local Open Scope py_scope.

Lemma crosses_ok (lon lat : float) (vi vj : coord) :
  exists b, crosses lon lat vi vj = Ok b.
Proof.
  destruct vi as [xi yi], vj as [xj yj]. unfold crosses.
  destruct (Bool.eqb (gt yi lat) (gt yj lat)) eqn:E; simpl; [eauto|].
  unfold truediv. rewrite (guard_divisor _ _ _ E). simpl. eauto.
Qed.

Lemma ring_loop_ok (lon lat : float) (r : ring) (idx : list nat) :
  forall (j : nat) (inside : bool),
    Forall (fun i => i < List.length r) idx -> j < List.length r ->
    exists b, ring_loop lon lat r idx j inside = Ok b.
Proof.
  induction idx as [|i idx IH]; intros j inside Hidx Hj; simpl.
  - eauto.
  - inversion Hidx as [|? ? Hi Hrest]; subst.
    destruct (nth_error r i) as [vi|] eqn:Ei;
      [|apply nth_error_None in Ei; lia].
    destruct (nth_error r j) as [vj|] eqn:Ej;
      [|apply nth_error_None in Ej; lia].
    destruct (crosses_ok lon lat vi vj) as [c ->]. simpl.
    apply IH; assumption.
Qed.

Lemma point_in_ring_ok (lon lat : float) (r : ring) :
  exists b, point_in_ring lon lat r = Ok b.
Proof.
  unfold point_in_ring. destruct r as [|v r].
  - simpl. eauto.
  - apply ring_loop_ok.
    + apply Forall_forall. intros i Hi. apply in_seq in Hi. lia.
    + simpl. lia.
Qed.

Lemma in_rings_ok (lon lat : float) (rings : list ring) :
  exists b, in_rings lon lat rings = Ok b.
Proof.
  induction rings as [|r rings IH]; simpl; [eauto|].
  destruct (point_in_ring_ok lon lat r) as [b ->]. simpl.
  destruct b; eauto.
Qed.

Lemma in_rings_true (lon lat : float) (rings : list ring) :
  in_rings lon lat rings = Ok true <-> covers lon lat rings.
Proof.
  unfold covers. induction rings as [|r rings IH]; simpl.
  - split; [discriminate|intros H; inversion H].
  - destruct (point_in_ring_ok lon lat r) as [b Hb]. rewrite Hb. simpl.
    destruct b.
    + split; [intros _; left; exact Hb|reflexivity].
    + rewrite IH. split; [intros H; right; exact H|].
      intros H. inversion H as [? ? Hc|? ? Hc]; subst; [|exact Hc].
      unfold contains in Hc. congruence.
Qed.

Lemma in_rings_false (lon lat : float) (rings : list ring) :
  in_rings lon lat rings = Ok false <-> ~ covers lon lat rings.
Proof.
  rewrite <- in_rings_true.
  destruct (in_rings_ok lon lat rings) as [[|] ->]; split; intros H.
  - discriminate.
  - exfalso. apply H. reflexivity.
  - discriminate.
  - reflexivity.
Qed.

Lemma find_bid_some (lon lat : float) (bs : boundaries) (name : str) :
  find_bid lon lat bs = Ok (Some name) <->
  exists pre rings post,
    bs = pre ++ (name, rings) :: post
    /\ Forall (outside lon lat) pre /\ covers lon lat rings.
Proof.
  induction bs as [|[k rings] bs IH]; simpl.
  - split; [discriminate|]. intros (pre & r & post & H & _).
    destruct pre; discriminate.
  - destruct (in_rings_ok lon lat rings) as [b Hb]. rewrite Hb. simpl.
    destruct b.
    + apply in_rings_true in Hb. split.
      * intros H. inversion H; subst. exists [], rings, bs. auto.
      * intros (pre & r & post & H & Hpre & Hc).
        destruct pre as [|kv pre]; simpl in H; inversion H; subst; auto.
        inversion Hpre as [|? ? Hout _]; subst. contradiction.
    + apply in_rings_false in Hb. rewrite IH. split.
      * intros (pre & r & post & -> & Hpre & Hc).
        exists ((k, rings) :: pre), r, post. repeat split; auto.
      * intros (pre & r & post & H & Hpre & Hc).
        destruct pre as [|kv pre]; simpl in H; inversion H; subst.
        -- contradiction.
        -- inversion Hpre; subst. exists pre, r, post. auto.
Qed.

Lemma find_bid_none (lon lat : float) (bs : boundaries) :
  find_bid lon lat bs = Ok None <-> Forall (outside lon lat) bs.
Proof.
  induction bs as [|[k rings] bs IH]; simpl.
  - split; auto.
  - destruct (in_rings_ok lon lat rings) as [b Hb]. rewrite Hb. simpl.
    destruct b.
    + apply in_rings_true in Hb. split; [discriminate|].
      intros H. inversion H as [|? ? Hout _]; subst. contradiction.
    + apply in_rings_false in Hb. rewrite IH. split.
      * intros H. constructor; assumption.
      * intros H. inversion H; assumption.
Qed.

Lemma find_bid_ok (lon lat : float) (bs : boundaries) :
  exists v, find_bid lon lat bs = Ok v.
Proof.
  induction bs as [|[k rings] bs IH]; simpl; [eauto|].
  destruct (in_rings_ok lon lat rings) as [b ->]. simpl.
  destruct b; eauto.
Qed.

Lemma row_parcel_assigned (bs : boundaries) (row : pluto_row) (p : parcel) :
  row_parcel bs row = Ok (Some p) ->
  assigned bs p /\ row_coords row = Ok (Some (p_lon p, p_lat p)).
Proof.
  unfold row_parcel. intros H. bind_inv H.
  destruct a as [[lon lat]|]; [|discriminate].
  bind_inv H. destruct a as [name|]; [|discriminate].
  do 5 bind_inv H. inversion H; subst; clear H. simpl.
  split; [exists name; split; [reflexivity|assumption]|assumption].
Qed.

Lemma assemble_app (bs : boundaries) (raw_lots : list pluto_row) :
  forall (acc ps : list parcel),
    assemble bs raw_lots acc = Ok ps ->
    exists new, ps = acc ++ new /\ Forall (assigned bs) new.
Proof.
  induction raw_lots as [|row rest IH]; intros acc ps H; simpl in H.
  - inversion H; subst. exists []. rewrite app_nil_r. auto.
  - bind_inv H. apply IH in H. destruct H as (new & -> & Hnew).
    destruct a as [p|].
    + exists (p :: new). rewrite <- app_assoc. split; [reflexivity|].
      constructor; [|assumption]. apply (row_parcel_assigned bs row p Ha).
    + exists new. auto.
Qed.

Lemma assemble_assigned (bs : boundaries) (raw_lots : list pluto_row)
    (ps : list parcel) :
  assemble bs raw_lots [] = Ok ps -> Forall (assigned bs) ps.
Proof.
  intros H. apply assemble_app in H. destruct H as (new & -> & H). exact H.
Qed.

(** C1. [find_bid] returns the name of the first boundary, in the order of
    the mapping, one of whose rings contains the point under the ray-cast
    test, and [None] exactly when no boundary does; it never raises.  Hence
    every parcel that the loop of [main] emits carries one name, which is
    not [None] and is the one [find_bid] gives for its coordinates; and of
    two boundaries that both cover the point, the one met first wins. *)
Theorem find_bid_first_match (lon lat : float) (bs : boundaries) :
  (forall name,
      find_bid lon lat bs = Ok (Some name) <->
      exists pre rings post,
        bs = pre ++ (name, rings) :: post
        /\ Forall (outside lon lat) pre /\ covers lon lat rings)
  /\ (find_bid lon lat bs = Ok None <-> Forall (outside lon lat) bs)
  /\ (exists v, find_bid lon lat bs = Ok v)
  /\ (forall raw_lots ps,
         assemble bs raw_lots [] = Ok ps ->
         Forall (fun p => exists name,
                     p_bid_name p = Some name
                     /\ find_bid (p_lon p) (p_lat p) bs = Ok (Some name)) ps)
  /\ (forall pre a ra mid b rb post,
         bs = pre ++ (a, ra) :: mid ++ (b, rb) :: post ->
         Forall (outside lon lat) pre ->
         covers lon lat ra -> covers lon lat rb ->
         find_bid lon lat bs = Ok (Some a)).
Proof.
  split; [|split; [|split; [|split]]].
  - intros name. apply find_bid_some.
  - apply find_bid_none.
  - apply find_bid_ok.
  - intros raw_lots ps H. apply (assemble_assigned bs raw_lots ps H).
  - intros pre a ra mid b rb post Hbs Hpre Ha _.
    apply find_bid_some. exists pre, ra, (mid ++ (b, rb) :: post). auto.
Qed.

(** Two overlapping boundaries: the first one is assigned. *)
Lemma find_bid_first_match_witness :
  find_bid 0.5 0.5 [(lit "A", [unit_square]); (lit "B", [unit_square])]
  = Ok (Some (lit "A")).
Proof.
  apply (proj2 (proj2 (proj2 (proj2
           (find_bid_first_match 0.5 0.5
              [(lit "A", [unit_square]); (lit "B", [unit_square])]))))
         [] (lit "A") [unit_square] [] (lit "B") [unit_square] []).
  - reflexivity.
  - constructor.
  - left. vm_compute. reflexivity.
  - left. vm_compute. reflexivity.
Defined.

(** C2 (as amended). [point_in_ring] returns a boolean for every ring and
    every point: the division is evaluated only when exactly one of
    [yi > lat], [yj > lat] holds, and then the divisor [yj - yi] is not
    zero; an edge whose two latitudes are equal is skipped. *)
Theorem point_in_ring_total (lon lat : float) (r : ring) :
  (exists b, point_in_ring lon lat r = Ok b)
  /\ (forall vi vj, exists b, crosses lon lat vi vj = Ok b)
  /\ (forall yi yj,
         Bool.eqb (gt yi lat) (gt yj lat) = false ->
         (yj - yi =? 0)%float = false)
  /\ (forall xi xj y, crosses lon lat (xi, y) (xj, y) = Ok false).
Proof.
  split; [|split; [|split]].
  - apply point_in_ring_ok.
  - apply crosses_ok.
  - intros yi yj. apply guard_divisor.
  - intros xi xj y. unfold crosses. rewrite Bool.eqb_reflx. reflexivity.
Qed.

(** The edge from [(1, 0)] to [(0, 0)] of the unit square is horizontal at
    the latitude of the query [(0.5, 0)]; the test returns. *)
Lemma point_in_ring_total_witness :
  horizontal_edge_at 0 unit_square
  /\ point_in_ring 0.5 0 unit_square = Ok true.
Proof.
  split.
  - exists 0, (0, 0)%float, (1, 0)%float. repeat split; reflexivity.
  - destruct (proj1 (point_in_ring_total 0.5 0 unit_square)) as [b Hb].
    rewrite Hb. f_equal. vm_compute in Hb. congruence.
Defined.

(** C2 as stated fails: no ring with a horizontal edge at the latitude of
    the query makes [point_in_ring] raise a division by zero. *)
Lemma horizontal_edge_no_zero_division :
  ~ (exists lon lat r,
        horizontal_edge_at lat r
        /\ point_in_ring lon lat r = Raise ZeroDivisionError).
Proof.
  intros (lon & lat & r & _ & H).
  destruct (point_in_ring_ok lon lat r) as [b Hb]. congruence.
Qed.

End RayCast.

(** ** Step D: the assembly loop and the exported document *)

Module Assembly.
Import Py Deckgl Spec Samples PyFacts FloatFacts Loading RayCast.
Local Open Scope py_scope.

Lemma row_coords_none (row : pluto_row) :
  row_coords row = Ok None <->
  unparseable (lon_field row)
  \/ exists lon,
       float_of (lon_field row) = Ok lon
       /\ (unparseable (lat_field row)
           \/ exists lat,
                float_of (lat_field row) = Ok lat
                /\ ((lon =? 0)%float = true \/ (lat =? 0)%float = true)).
Proof.
  unfold row_coords, unparseable, lon_field, lat_field.
  destruct (float_of (get_default row (lit "longitude") (JInt 0)))
    as [lon|[ | | | | | | ]].
  2-3: split; auto.
  2-6: split; [discriminate|]; intros [[H|H]|(l & H & _)]; discriminate.
  destruct (float_of (get_default row (lit "latitude") (JInt 0)))
    as [lat|[ | | | | | | ]].
  2-3: split; [intros _; right; exists lon; auto|reflexivity].
  2-6: split; [discriminate|];
       intros [[H|H]|(l & _ & [[H|H]|(l' & H & _)])]; discriminate.
  destruct ((lon =? 0)%float) eqn:Elon; simpl.
  - split; [|reflexivity]. intros _. right. exists lon. split; [reflexivity|].
    right. exists lat. auto.
  - destruct ((lat =? 0)%float) eqn:Elat.
    + split; [|reflexivity]. intros _. right. exists lon.
      split; [reflexivity|]. right. exists lat. auto.
    + split; [discriminate|].
      intros [[H|H]|(l & Hl & [[H|H]|(l' & Hl' & [H|H])])];
        try discriminate; inversion Hl; inversion Hl'; subst; congruence.
Qed.

Lemma row_coords_some (row : pluto_row) (lon lat : float) :
  row_coords row = Ok (Some (lon, lat)) <->
  float_of (lon_field row) = Ok lon /\ float_of (lat_field row) = Ok lat
  /\ (lon =? 0)%float = false /\ (lat =? 0)%float = false.
Proof.
  unfold row_coords, lon_field, lat_field.
  destruct (float_of (get_default row (lit "longitude") (JInt 0)))
    as [x|[ | | | | | | ]];
    try (split; [discriminate|intros (H & _); discriminate]).
  destruct (float_of (get_default row (lit "latitude") (JInt 0)))
    as [y|[ | | | | | | ]];
    try (split; [discriminate|intros (_ & H & _); discriminate]).
  destruct ((x =? 0)%float) eqn:Ex; simpl.
  - split; [discriminate|]. intros (H & _ & H' & _). inversion H; subst.
    congruence.
  - destruct ((y =? 0)%float) eqn:Ey.
    + split; [discriminate|]. intros (_ & H & _ & H'). inversion H; subst.
      congruence.
    + split.
      * intros H. inversion H; subst. auto.
      * intros (H & H' & _). inversion H; inversion H'; subst. reflexivity.
Qed.

(** C3 (as amended). A fetched row is skipped when the conversion of either
    coordinate field raises [ValueError] or [TypeError] (the latitude is
    converted only after the longitude), or when both convert and either
    equals zero; a missing field reads as [0] and so skips the row.  A row
    whose two fields convert to numbers other than zero goes on to
    [find_bid], and is emitted exactly when [find_bid] names a boundary. *)
Theorem row_skipped_iff (row : pluto_row) :
  (row_coords row = Ok None <->
   unparseable (lon_field row)
   \/ exists lon,
        float_of (lon_field row) = Ok lon
        /\ (unparseable (lat_field row)
            \/ exists lat,
                 float_of (lat_field row) = Ok lat
                 /\ ((lon =? 0)%float = true \/ (lat =? 0)%float = true)))
  /\ (forall lon lat,
         row_coords row = Ok (Some (lon, lat)) <->
         float_of (lon_field row) = Ok lon
         /\ float_of (lat_field row) = Ok lat
         /\ (lon =? 0)%float = false /\ (lat =? 0)%float = false)
  /\ (row_coords row = Ok None -> forall bs, row_parcel bs row = Ok None)
  /\ (forall bs lon lat,
         row_coords row = Ok (Some (lon, lat)) ->
         (find_bid lon lat bs = Ok None -> row_parcel bs row = Ok None)
         /\ (forall p, row_parcel bs row = Ok (Some p) ->
                       p_lon p = lon /\ p_lat p = lat
                       /\ exists name, find_bid lon lat bs = Ok (Some name)
                                       /\ p_bid_name p = Some name))
  /\ (get (V := json) row (lit "longitude") = None
      \/ get (V := json) row (lit "latitude") = None ->
      row_coords row = Ok None \/ exists e, row_coords row = Raise e).
Proof.
  split; [apply row_coords_none|].
  split; [apply row_coords_some|].
  split; [|split].
  - intros H bs. unfold row_parcel. rewrite H. reflexivity.
  - intros bs lon lat H. unfold row_parcel. rewrite H. simpl. split.
    + intros ->. reflexivity.
    + intros p Hp. bind_inv Hp. destruct a as [name|]; [|discriminate].
      do 5 bind_inv Hp. inversion Hp; subst; simpl.
      repeat split. exists name. auto.
  - intros Hmiss.
    destruct (row_coords row) as [[[lon lat]|]|e] eqn:E; eauto.
    exfalso. apply row_coords_some in E.
    destruct E as (Hlon & Hlat & Hx & Hy).
    unfold lon_field, lat_field, get_default in Hlon, Hlat.
    destruct Hmiss as [Hm|Hm]; rewrite Hm in *; simpl in *.
    + inversion Hlon; subst. discriminate.
    + inversion Hlat; subst. discriminate.
Qed.

(** A row with both fields parsed and different from zero reaches
    [find_bid]; here the point lies in the unit square. *)
Lemma row_skipped_iff_witness :
  let bs := [(lit "A", [unit_square])] in
  let row := [(lit "longitude", JStr (lit "0.5"));
              (lit "latitude", JStr (lit "0.5"))] in
  exists p,
    row_parcel bs row = Ok (Some p)
    /\ p_lon p = 0.5%float /\ p_lat p = 0.5%float
    /\ p_bid_name p = Some (lit "A").
Proof.
  intros bs row.
  assert (Hc : row_coords row = Ok (Some (0.5, 0.5)%float))
    by (vm_compute; reflexivity).
  destruct (row_parcel bs row) as [[p|]|e] eqn:E;
    try (vm_compute in E; discriminate E).
  exists p. split; [reflexivity|].
  destruct (proj2 (proj1 (proj2 (proj2 (proj2 (row_skipped_iff row))))
                     bs _ _ Hc) p E)
    as (Hlon & Hlat & name & Hfind & Hname).
  repeat split; try assumption.
  rewrite Hname. vm_compute in Hfind. inversion Hfind. reflexivity.
Defined.

(** C3 as stated fails: one unparseable coordinate is enough.  The
    latitude of this row parses to a number that is not zero, and the row
    is skipped. *)
Lemma one_bad_coordinate_skips :
  let row := [(lit "longitude", JStr (lit "abc"));
              (lit "latitude", JStr (lit "40.68"))] in
  row_coords row = Ok None
  /\ float_of (lon_field row) = Raise ValueError
  /\ float_of (lat_field row) = Ok 40.68%float
  /\ (40.68 =? 0)%float = false.
Proof. vm_compute. repeat split. Qed.

(** *** The exported document *)

Lemma feature_names (bs : boundaries) :
  map feature_name (build_geojson_boundaries bs) = keys bs.
Proof.
  unfold build_geojson_boundaries, keys. rewrite map_map.
  apply map_ext. intros [k rings]. reflexivity.
Qed.

Lemma find_bid_key (lon lat : float) (bs : boundaries) (name : str) :
  find_bid lon lat bs = Ok (Some name) -> In name (keys bs).
Proof.
  intros H. apply find_bid_some in H.
  destruct H as (pre & rings & post & -> & _).
  unfold keys. rewrite map_app. apply in_or_app. right. left. reflexivity.
Qed.

(** C10. In the document that [main] writes, the [bid_name] of every
    parcel is a key of the boundaries mapping; the features are one per
    key, in the order of the mapping, and the keys are distinct; hence the
    name of every parcel is the name of exactly one feature. *)
Theorem parcel_names_match_features (rows : list csv_row)
    (raw_lots : list pluto_row) (out : output) :
  main rows raw_lots = Ok out ->
  exists bs,
    load_stage rows = Ok bs
    /\ map feature_name (bid_boundaries out) = keys bs
    /\ NoDup (keys bs)
    /\ Forall (fun p => exists name,
                   p_bid_name p = Some name
                   /\ In name (keys bs)
                   /\ exists f,
                        In f (bid_boundaries out) /\ feature_name f = name
                        /\ forall f', In f' (bid_boundaries out) ->
                                      feature_name f' = name -> f' = f)
         (parcels out).
Proof.
  unfold main. intros H. bind_inv H. rename a into bs. bind_inv H.
  inversion H; subst; clear H. simpl.
  pose proof (load_stage_NoDup rows bs Ha) as Hnd.
  exists bs. repeat split; auto using feature_names.
  apply assemble_assigned in Ha0.
  eapply Forall_impl; [|exact Ha0].
  intros p (name & Hname & Hfind). exists name.
  pose proof (find_bid_key _ _ _ _ Hfind) as Hkey.
  repeat split; auto.
  rewrite <- (feature_names bs) in Hkey. apply in_map_iff in Hkey.
  destruct Hkey as (f & Hf & Hin). exists f. repeat split; auto.
  intros f' Hin' Hf'. symmetry.
  apply (NoDup_map_unique feature_name (build_geojson_boundaries bs));
    auto.
  - rewrite feature_names. exact Hnd.
  - congruence.
Qed.

Lemma parcel_names_match_features_witness :
  exists out bs,
    main [] sample_lots = Ok out
    /\ load_stage [] = Ok bs
    /\ List.length (parcels out) = 1
    /\ map feature_name (bid_boundaries out) = keys bs
    /\ Forall (fun p => exists name,
                   p_bid_name p = Some name /\ In name (keys bs))
         (parcels out).
Proof.
  destruct (main [] sample_lots) as [out|e] eqn:E;
    [|vm_compute in E; discriminate E].
  destruct (parcel_names_match_features [] sample_lots out E)
    as (bs & Hbs & Hf & _ & Hp).
  exists out, bs. repeat split; auto.
  - vm_compute in E. inversion E. reflexivity.
  - eapply Forall_impl; [|exact Hp].
    intros p (name & H1 & H2 & _). eauto.
Defined.

End Assembly.

(** ** The currency formatter *)

Module Currency.
Import Py BidsTable FloatFacts.
Local Open Scope string_scope.
Local Open Scope float_scope.

Lemma ltb_not_nan (a b : float) : (a <? b) = true -> is_nan a = false.
Proof.
  unfold is_nan. rewrite ltb_spec, eqb_spec. unfold SFltb, SFeqb.
  destruct (SFcompare_refl (Prim2SF a)) as [-> | H]; [reflexivity|].
  destruct (Prim2SF a) as [s|s| |s m e]; simpl in *;
    try discriminate; try (destruct s; discriminate).
Qed.

(** C4 (as amended). [format_currency] returns the dash for 0 and for a
    missing value, ["$1.5M"] for 1,500,000 and ["$2K"] for 2,500: the
    quotient 2.5 is formatted with no decimals, ties going to the even
    digit, as 3,500 going to ["$4K"] shows.  Every value below 1000 other
    than zero is rendered as a dollar sign and the value rounded to a whole
    number. *)
Theorem format_currency_spec :
  format_currency 0 = "—"
  /\ format_currency nan = "—"
  /\ format_currency 1500000 = "$1.5M"
  /\ format_currency 2500 = "$2K"
  /\ format_currency 3500 = "$4K"
  /\ (forall val,
         (val <? 1000) = true -> (val =? 0) = false ->
         format_currency val = "$" ++ format_fixed 0 val).
Proof.
  repeat (split; [vm_compute; reflexivity|]).
  intros val Hlt Hnz. unfold format_currency, ge.
  rewrite (ltb_not_nan _ _ Hlt), Hnz. simpl orb. cbv iota.
  rewrite (ltb_leb_false _ _ Hlt).
  assert (H : (val <? 1000000) = true)
    by (apply (ltb_trans _ 1000); [exact Hlt|reflexivity]).
  rewrite (ltb_leb_false _ _ H). reflexivity.
Qed.

Lemma format_currency_spec_witness :
  format_currency 999.5 = "$1000" /\ format_currency 12.25 = "$12".
Proof.
  destruct format_currency_spec as (_ & _ & _ & _ & _ & H).
  split; rewrite H by reflexivity; vm_compute; reflexivity.
Defined.

(** C4 as stated fails: 2,500 is rendered ["$2K"], not ["$3K"]. *)
Lemma format_currency_2500 :
  format_currency 2500 = "$2K" /\ format_currency 2500 <> "$3K".
Proof.
  assert (H : format_currency 2500 = "$2K") by (vm_compute; reflexivity).
  split; [exact H|]. rewrite H. discriminate.
Qed.

End Currency.

(** ** The ray-cast test on the edges of a ring *)

Module RingFacts.
Import Py Deckgl Spec Samples PyFacts FloatFacts RayCast.
Local Open Scope py_scope.

Lemma crosses_crossing (lon lat : float) (vi vj : coord) :
  crosses lon lat vi vj = Ok (crossing lon lat vi vj).
Proof.
  destruct vi as [xi yi], vj as [xj yj]. unfold crosses, crossing. simpl.
  destruct (Bool.eqb (gt yi lat) (gt yj lat)) eqn:E; simpl; [reflexivity|].
  unfold truediv. rewrite (guard_divisor _ _ _ E). reflexivity.
Qed.

Lemma skipn_nth (A : Type) (l : list A) :
  forall k x, nth_error l k = Some x -> skipn k l = x :: skipn (S k) l.
Proof.
  induction l as [|y l IH]; intros [|k] x H; simpl in H; try discriminate.
  - inversion H. reflexivity.
  - rewrite (skipn_cons k y l). apply IH. exact H.
Qed.

(** The loop from index [k] on, [ring[j]] being [vj]. *)
Lemma ring_loop_edges (lon lat : float) (r : ring) (m : nat) :
  forall (k j : nat) (inside : bool) (vj : coord),
    nth_error r j = Some vj -> k + m = List.length r ->
    ring_loop lon lat r (seq k m) j inside
    = Ok (toggles lon lat (edges_from vj (skipn k r)) inside).
Proof.
  induction m as [|m IH]; intros k j inside vj Hj Hk.
  - rewrite skipn_all2 by lia. reflexivity.
  - cbn [seq ring_loop].
    destruct (nth_error r k) as [vi|] eqn:Ei;
      [|apply nth_error_None in Ei; lia].
    rewrite Hj, crosses_crossing. cbn [bind].
    rewrite (IH (S k) k _ vi Ei) by lia.
    rewrite (skipn_nth _ r k vi Ei). reflexivity.
Qed.

Lemma last_nth (A : Type) (l : list A) (d : A) :
  l <> [] -> nth_error l (List.length l - 1) = Some (last l d).
Proof.
  induction l as [|x l IH]; intros H; [contradiction|].
  destruct l as [|y l]; [reflexivity|].
  replace (List.length (x :: y :: l) - 1) with (S (List.length (y :: l) - 1))
    by (simpl; lia).
  cbn [nth_error]. rewrite IH by discriminate. reflexivity.
Qed.

(** [point_in_ring] returns the flag toggled along the edges. *)
Lemma point_in_ring_edges (lon lat : float) (r : ring) :
  point_in_ring lon lat r = Ok (toggles lon lat (ring_edges r) false).
Proof.
  unfold point_in_ring, ring_edges. destruct r as [|v r]; [reflexivity|].
  rewrite (ring_loop_edges lon lat (v :: r) _ 0 _ false
             (last (v :: r) (0, 0)%float)).
  - reflexivity.
  - apply last_nth. discriminate.
  - reflexivity.
Qed.

Lemma toggles_app (lon lat : float) (es es' : list (coord * coord))
    (b : bool) :
  toggles lon lat (es ++ es') b = toggles lon lat es' (toggles lon lat es b).
Proof. unfold toggles. apply fold_left_app. Qed.

Lemma toggles_xorb (lon lat : float) (es : list (coord * coord)) :
  forall b, toggles lon lat es b = xorb b (toggles lon lat es false).
Proof.
  induction es as [|e es IH]; intros b; simpl.
  - destruct b; reflexivity.
  - rewrite IH. rewrite (IH (if crossing _ _ _ _ then negb false else false)).
    destruct (crossing lon lat (fst e) (snd e)), b,
      (toggles lon lat es false); reflexivity.
Qed.

Lemma toggles_swap (lon lat : float) (es es' : list (coord * coord))
    (b : bool) :
  toggles lon lat (es ++ es') b = toggles lon lat (es' ++ es) b.
Proof.
  rewrite !toggles_app.
  rewrite (toggles_xorb lon lat es' (toggles lon lat es b)).
  rewrite (toggles_xorb lon lat es (toggles lon lat es' b)).
  rewrite (toggles_xorb lon lat es b), (toggles_xorb lon lat es' b).
  destruct b, (toggles lon lat es false), (toggles lon lat es' false);
    reflexivity.
Qed.

Lemma last_cons (A : Type) (x : A) (l : list A) (d : A) :
  last (x :: l) d = last l x.
Proof.
  revert x d. induction l as [|y l IH]; intros x d; [reflexivity|].
  change (last (x :: y :: l) d) with (last (y :: l) d).
  rewrite (IH y d), (IH y x). reflexivity.
Qed.

Lemma last_append (A : Type) (l1 l2 : list A) (d : A) :
  l2 <> [] -> last (l1 ++ l2) d = last l2 d.
Proof.
  intros H. induction l1 as [|x l1 IH]; [reflexivity|].
  cbn [app]. destruct (l1 ++ l2) eqn:E.
  - destruct l1; [simpl in E; contradiction|discriminate].
  - exact IH.
Qed.

Lemma edges_from_app (r1 r2 : ring) :
  forall a,
    edges_from a (r1 ++ r2) = edges_from a r1 ++ edges_from (last r1 a) r2.
Proof.
  unfold edges_from. induction r1 as [|v r1 IH]; intros a; [reflexivity|].
  rewrite last_cons. cbn [app combine]. rewrite IH. reflexivity.
Qed.

Lemma edges_from_in (a : coord) (r : ring) (vi vj : coord) :
  In (vi, vj) (edges_from a r) -> In vi r /\ (vj = a \/ In vj r).
Proof.
  unfold edges_from. intros H. split.
  - apply (in_combine_l _ _ _ _ H).
  - apply in_combine_r in H. destruct H as [H|H]; auto.
Qed.

Lemma toggles_none (lon lat : float) (es : list (coord * coord)) (b : bool) :
  Forall (fun e => crossing lon lat (fst e) (snd e) = false) es ->
  toggles lon lat es b = b.
Proof.
  induction 1 as [|e es He _ IH]; simpl; [reflexivity|].
  rewrite He. exact IH.
Qed.

(** A flag that changed was toggled by some edge. *)
Lemma toggles_some (lon lat : float) (es : list (coord * coord)) :
  forall b, toggles lon lat es b <> b ->
            exists e, In e es /\ crossing lon lat (fst e) (snd e) = true.
Proof.
  induction es as [|e es IH]; intros b H; simpl in H; [contradiction|].
  destruct (crossing lon lat (fst e) (snd e)) eqn:E.
  - exists e. split; [left; reflexivity|exact E].
  - destruct (IH b H) as (e' & Hin & He'). exists e'. split; [right|]; auto.
Qed.

Lemma last_in (A : Type) (l : list A) (d : A) : l <> [] -> In (last l d) l.
Proof.
  induction l as [|x l IH]; intros H; [contradiction|].
  destruct l as [|y l]; [left; reflexivity|].
  right. apply IH. discriminate.
Qed.

Lemma ring_edges_in (r : ring) (vi vj : coord) :
  In (vi, vj) (ring_edges r) -> In vi r /\ In vj r.
Proof.
  unfold ring_edges. intros H. apply edges_from_in in H.
  destruct H as [Hi [->|Hj]]; split; auto.
  apply last_in. intros ->. contradiction.
Qed.

(** X1. A point is outside every ring whose vertices all lie on one side of
    its latitude: when [y > lat] has the same truth value for every vertex
    latitude [y], no edge is crossed and [point_in_ring] returns [False].
    This covers the empty ring, a ring of one vertex, a ring along one
    parallel, a latitude above or below the whole ring, and a latitude that
    is not a number. *)
Theorem point_outside_latitude_range (lon lat : float) (r : ring) (b : bool) :
  Forall (fun v : coord => gt (snd v) lat = b) r ->
  point_in_ring lon lat r = Ok false.
Proof.
  intros H. rewrite point_in_ring_edges. f_equal. apply toggles_none.
  apply Forall_forall. intros [vi vj] Hin. apply ring_edges_in in Hin.
  rewrite Forall_forall in H. unfold crossing. simpl.
  rewrite (H vi (proj1 Hin)), (H vj (proj2 Hin)), Bool.eqb_reflx.
  reflexivity.
Qed.

(** The unit square and a point above it. *)
Lemma point_outside_latitude_range_witness :
  point_in_ring 0.5 2 unit_square = Ok false
  /\ point_in_ring 0.5 nan unit_square = Ok false.
Proof.
  split.
  - apply (point_outside_latitude_range 0.5 2 unit_square false).
    repeat constructor.
  - apply (point_outside_latitude_range 0.5 nan unit_square false).
    repeat constructor.
Defined.

(** X2. Closing a ring changes nothing: a ring whose last vertex repeats
    the first one and the same ring without that last vertex contain the
    same points.  The loop closes a ring by itself, from the last vertex
    back to the first. *)
Theorem point_in_ring_closed (lon lat : float) (v : coord) (r : ring) :
  point_in_ring lon lat (v :: r ++ [v]) = point_in_ring lon lat (v :: r).
Proof.
  rewrite !point_in_ring_edges. f_equal. unfold ring_edges.
  change (v :: r ++ [v]) with ((v :: r) ++ [v]).
  rewrite last_last, edges_from_app, toggles_swap.
  rewrite last_cons.
  change (edges_from (last r v) [v] ++ edges_from v (v :: r))
    with ((v, last r v) :: (v, v) :: edges_from v r).
  rewrite (last_cons _ v r).
  change (edges_from (last r v) (v :: r))
    with ((v, last r v) :: edges_from v r).
  unfold toggles. cbn [fold_left fst snd].
  assert (Hvv : crossing lon lat v v = false).
  { unfold crossing. rewrite Bool.eqb_reflx. reflexivity. }
  rewrite Hvv. reflexivity.
Qed.

(** X3. The vertex at which a ring starts does not matter: a ring and the
    same ring started at another of its vertices contain the same
    points. *)
Theorem point_in_ring_rotate (lon lat : float) (r1 r2 : ring) :
  point_in_ring lon lat (r1 ++ r2) = point_in_ring lon lat (r2 ++ r1).
Proof.
  rewrite !point_in_ring_edges. f_equal. unfold ring_edges.
  destruct r1 as [|v1 r1]; [rewrite app_nil_r; reflexivity|].
  destruct r2 as [|v2 r2]; [rewrite app_nil_r; reflexivity|].
  rewrite !edges_from_app, !last_append by discriminate.
  rewrite (last_cons _ v1 r1 (last (v2 :: r2) _)).
  rewrite (last_cons _ v2 r2 (last (v1 :: r1) _)).
  rewrite !(last_cons _ _ _ (0, 0)%float).
  apply toggles_swap.
Qed.

End RingFacts.

(** ** Lookups after updates *)

Module DictFacts.
Import Py PyFacts.

Lemma get_set_same {V : Type} (d : dict V) (k : str) (v : V) :
  get (set d k v) k = Some v.
Proof.
  assert (Hk : str_eqb k k = true) by (apply str_eqb_eq; reflexivity).
  induction d as [|[k' v'] d IH]; simpl.
  - rewrite Hk. reflexivity.
  - destruct (str_eqb k k') eqn:E; simpl.
    + rewrite Hk. reflexivity.
    + rewrite E. exact IH.
Qed.

Lemma get_set_other {V : Type} (d : dict V) (k k' : str) (v : V) :
  k <> k' -> get (set d k v) k' = get d k'.
Proof.
  intros Hne.
  assert (Hk : str_eqb k' k = false).
  { destruct (str_eqb k' k) eqn:E; [|reflexivity].
    apply str_eqb_eq in E. congruence. }
  induction d as [|[k0 v0] d IH]; simpl.
  - rewrite Hk. reflexivity.
  - destruct (str_eqb k k0) eqn:E; simpl.
    + apply str_eqb_eq in E. subst k0. rewrite Hk. reflexivity.
    + rewrite IH. reflexivity.
Qed.

Lemma get_keys {V : Type} (d : dict V) (k : str) :
  (exists v, get d k = Some v) <-> In k (keys d).
Proof.
  induction d as [|[k' v'] d IH]; simpl.
  - split; [intros [v H]; discriminate|contradiction].
  - destruct (str_eqb k k') eqn:E.
    + apply str_eqb_eq in E. subst. split; eauto.
    + rewrite IH. split; [auto|]. intros [H|H]; [|exact H].
      subst. assert (str_eqb k k = true) by (apply str_eqb_eq; reflexivity).
      congruence.
Qed.

Lemma get_in {V : Type} (d : dict V) (k : str) (v : V) :
  get d k = Some v -> In (k, v) d.
Proof.
  induction d as [|[k' v'] d IH]; simpl; [discriminate|].
  destruct (str_eqb k k') eqn:E.
  - apply str_eqb_eq in E. subst. intros H. inversion H. left. reflexivity.
  - intros H. right. apply IH. exact H.
Qed.

(** A new key goes to the end. *)
Lemma set_fresh {V : Type} (d : dict V) (k : str) (v : V) :
  mem k (keys d) = false -> set d k v = (d ++ [(k, v)])%list.
Proof.
  induction d as [|[k' v'] d IH]; simpl; [reflexivity|].
  intros H. apply orb_false_iff in H. destruct H as [H1 H2].
  rewrite H1. f_equal. apply IH. exact H2.
Qed.

End DictFacts.

(** ** The parser and the loader at their edges *)

Module ParserEdges.
Import Py Deckgl Spec Samples PyFacts DictFacts TextFacts Wkt Loading.
Local Open Scope py_scope.

(** X5. A text without a parenthesis holds no polygon: for the empty text
    of an empty cell, for white space, for [MULTIPOLYGON EMPTY] and for
    any other text in which no parenthesis occurs, the parser returns the
    empty list and raises nothing. *)
Theorem parse_wkt_no_parenthesis (wkt : str) :
  plain wkt -> parse_wkt_multipolygon wkt = Ok [].
Proof.
  intros H. unfold parse_wkt_multipolygon.
  pose proof (strip_wrapper_plain wkt H) as Hin.
  pose proof (scan_polygons_plain (strip_wrapper wkt) (strip_wrapper wkt) Hin
                [] 0 0%Z None []) as Hs.
  rewrite app_nil_r in Hs. rewrite Hs. reflexivity.
Qed.

Lemma parse_wkt_no_parenthesis_witness :
  parse_wkt_multipolygon (lit "MULTIPOLYGON EMPTY") = Ok []
  /\ parse_wkt_multipolygon [] = Ok [].
Proof.
  split.
  - apply parse_wkt_no_parenthesis.
    repeat (constructor; [split; discriminate|]). constructor.
  - apply parse_wkt_no_parenthesis. constructor.
Defined.

(** *** The loader *)

Lemma parse_wkt_error (wkt : str) (e : exn) :
  parse_wkt_multipolygon wkt = Raise e -> e = ValueError.
Proof. unfold parse_wkt_multipolygon. apply parse_blocks_error. Qed.

Lemma row_name_ok (row : csv_row) (k : str) :
  row_name row = Ok k <-> exists name, name_cell row = Some name /\ strip name = k.
Proof.
  unfold row_name, cell_strip. destruct (name_cell row) as [name|].
  - split; [intros H; inversion H; eauto|].
    intros (name' & H & <-). inversion H. reflexivity.
  - split; [discriminate|]. intros (name & H & _). discriminate H.
Qed.

Lemma row_name_error (row : csv_row) (e : exn) :
  row_name row = Raise e <-> e = AttributeError /\ name_cell row = None.
Proof.
  unfold row_name, cell_strip. destruct (name_cell row) as [name|].
  - split; [discriminate|]. intros [_ H]. discriminate H.
  - split; [intros H; inversion H; auto|]. intros [-> _]. reflexivity.
Qed.

Lemma parse_wkt_cell_error (v : cell) (e : exn) :
  parse_wkt_cell v = Raise e ->
  (e = AttributeError /\ v = None)
  \/ (e = ValueError
      /\ exists wkt, v = Some wkt /\ parse_wkt_multipolygon wkt = Raise ValueError).
Proof.
  destruct v as [wkt|]; simpl; intros H.
  - right. pose proof (parse_wkt_error _ _ H) as ->. eauto.
  - left. inversion H. auto.
Qed.

Lemma load_rows_app (rows1 rows2 : list csv_row) (bid_set : list str) :
  forall bs,
    load_rows (rows1 ++ rows2) bid_set bs
    = (bs' <- load_rows rows1 bid_set bs ;; load_rows rows2 bid_set bs').
Proof.
  induction rows1 as [|row rows1 IH]; intros bs; [reflexivity|].
  cbn [app]. rewrite !load_rows_cons.
  destruct (row_name row) as [name|e]; simpl; [|reflexivity].
  destruct (mem name bid_set); [|apply IH].
  destruct (parse_wkt_cell _) as [rings|e]; simpl; [apply IH|reflexivity].
Qed.

(** What one row does to the mapping. *)
Lemma load_rows_one (row : csv_row) (bid_set : list str) (bs : boundaries) :
  load_rows [row] bid_set bs
  = (name <- row_name row ;;
     if mem name bid_set then
       rings <- parse_wkt_cell (row_geom row) ;;
       Ok (match rings with
           | [] => bs
           | _ :: _ => set bs name rings
           end)
     else Ok bs).
Proof.
  rewrite load_rows_cons.
  destruct (row_name row) as [name|e]; simpl; [|reflexivity].
  destruct (mem name bid_set); [|reflexivity].
  destruct (parse_wkt_cell _) as [rings|e]; reflexivity.
Qed.

Lemma load_rows_keys (rows : list csv_row) (bid_set : list str) :
  forall bs bs' k,
    load_rows rows bid_set bs = Ok bs' -> In k (keys bs') ->
    In k (keys bs)
    \/ (In k bid_set
        /\ exists row r rs,
             In row rows /\ row_name row = Ok k
             /\ parse_wkt_cell (row_geom row) = Ok (r :: rs)).
Proof.
  induction rows as [|row rows IH]; intros bs bs' k H Hk.
  - inversion H; subst. left. exact Hk.
  - rewrite load_rows_cons in H. apply bind_ok in H.
    destruct H as (name & Hname & H).
    destruct (mem name bid_set) eqn:Em.
    + bind_inv H. destruct (IH _ _ k H Hk) as [Hin|(Hset & row' & r & rs & Hr)].
      * destruct a as [|r rs]; [left; exact Hin|].
        rewrite keys_set in Hin.
        destruct (mem name (keys bs)) eqn:E; [left; exact Hin|].
        apply in_app_or in Hin. destruct Hin as [Hin|[<-|[]]];
          [left; exact Hin|].
        right. split; [apply mem_In; exact Em|].
        exists row, r, rs. repeat split; auto. left. reflexivity.
      * right. split; [exact Hset|]. exists row', r, rs.
        destruct Hr as (Hin & Hn & Hp). repeat split; auto. right. exact Hin.
    + destruct (IH _ _ k H Hk) as [Hin|(Hset & row' & r & rs & Hin & Hr)];
        [left; exact Hin|].
      right. split; [exact Hset|]. exists row', r, rs. split; [right|]; auto.
Qed.

(** X6. The keys of the loaded mapping are distinct names of the target
    set, and each of them is the name, white space around it removed, of a
    row of the CSV whose geometry parsed into at least one ring; both cells
    of that row hold a text. *)
Theorem loaded_keys (rows : list csv_row) (bid_names : list str)
    (bs : boundaries) :
  load_bid_boundaries rows bid_names = Ok bs ->
  NoDup (keys bs)
  /\ forall k,
       In k (keys bs) ->
       In k bid_names
       /\ exists row name wkt r rs,
            In row rows
            /\ name_cell row = Some name /\ strip name = k
            /\ row_geom row = Some wkt
            /\ parse_wkt_multipolygon wkt = Ok (r :: rs).
Proof.
  unfold load_bid_boundaries. intros H. split.
  - apply (load_rows_NoDup _ _ _ _ H). constructor.
  - intros k Hk.
    destruct (load_rows_keys _ _ _ _ k H Hk)
      as [[]|(Hin & row & r & rs & Hrow & Hname & Hp)].
    split; [exact Hin|].
    apply row_name_ok in Hname. destruct Hname as (name & Hcell & Hstrip).
    destruct (parse_wkt_cell_ok _ _ Hp) as (wkt & Hgeom & Hparse).
    exists row, name, wkt, r, rs. auto.
Qed.

Lemma loaded_keys_witness :
  exists bs,
    load_bid_boundaries [dumbo_row] BROOKLYN_BIDS = Ok bs
    /\ NoDup (keys bs)
    /\ forall k, In k (keys bs) -> In k BROOKLYN_BIDS.
Proof.
  destruct (load_bid_boundaries [dumbo_row] BROOKLYN_BIDS) as [bs|e] eqn:E;
    [|vm_compute in E; discriminate E].
  destruct (loaded_keys _ _ _ E) as [Hnd Hk].
  exists bs. split; [reflexivity|]. split; [exact Hnd|].
  intros k Hin. apply (Hk k Hin).
Defined.

(** X7. Rows are taken in order and a later row replaces an earlier one of
    the same name.  After one more row, a row outside the target set
    leaves the mapping as it was, whatever its geometry; a row of the set
    whose geometry gives no ring leaves it as it was too, and so does not
    erase an earlier entry; a row of the set whose geometry gives rings
    makes them the value of its name and leaves every other name alone.
    A row whose line was too short for the name, or a row of the set whose
    line was too short for the geometry, makes the loader raise
    [AttributeError] instead. *)
Theorem load_one_more_row (rows : list csv_row) (row : csv_row)
    (bid_names : list str) (bs : boundaries) :
  load_bid_boundaries rows bid_names = Ok bs ->
  (selected bid_names row = Ok false ->
   load_bid_boundaries (rows ++ [row]) bid_names = Ok bs)
  /\ (selected bid_names row = Ok true ->
      parse_wkt_cell (row_geom row) = Ok [] ->
      load_bid_boundaries (rows ++ [row]) bid_names = Ok bs)
  /\ (forall name r rs,
         row_name row = Ok name -> mem name bid_names = true ->
         parse_wkt_cell (row_geom row) = Ok (r :: rs) ->
         exists bs',
           load_bid_boundaries (rows ++ [row]) bid_names = Ok bs'
           /\ get bs' name = Some (r :: rs)
           /\ forall k, k <> name -> get bs' k = get bs k)
  /\ (name_cell row = None ->
      load_bid_boundaries (rows ++ [row]) bid_names = Raise AttributeError)
  /\ (selected bid_names row = Ok true -> row_geom row = None ->
      load_bid_boundaries (rows ++ [row]) bid_names = Raise AttributeError).
Proof.
  unfold load_bid_boundaries. intros H.
  assert (Hall : load_rows (rows ++ [row]) bid_names []
                 = load_rows [row] bid_names bs).
  { rewrite load_rows_app, H. reflexivity. }
  rewrite Hall, load_rows_one. unfold selected.
  split; [|split; [|split; [|split]]].
  - intros Hs. destruct (row_name row) as [name|e]; simpl in *;
      [|discriminate Hs].
    inversion Hs as [Hm]. rewrite Hm. reflexivity.
  - intros Hs Hp. destruct (row_name row) as [name|e]; simpl in *;
      [|discriminate Hs].
    inversion Hs as [Hm]. rewrite Hm, Hp. reflexivity.
  - intros name r rs -> Hm ->. simpl. rewrite Hm. simpl.
    eexists. split; [reflexivity|]. split.
    + apply get_set_same.
    + intros k Hk. apply get_set_other. congruence.
  - intros Hn. unfold row_name. rewrite Hn. reflexivity.
  - intros Hs Hg. destruct (row_name row) as [name|e]; simpl in *;
      [|discriminate Hs].
    inversion Hs as [Hm]. rewrite Hm, Hg. reflexivity.
Qed.

Lemma load_one_more_row_witness :
  exists bs' rings,
    load_bid_boundaries ([] ++ [dumbo_row]) BROOKLYN_BIDS = Ok bs'
    /\ get bs' (lit "DUMBO") = Some rings.
Proof.
  destruct (parse_wkt_cell (row_geom dumbo_row)) as [[|r rs]|e]
    eqn:Ep; try (vm_compute in Ep; discriminate Ep).
  destruct (proj1 (proj2 (proj2 (load_one_more_row [] dumbo_row
                                   BROOKLYN_BIDS [] eq_refl)))
              (lit "DUMBO") r rs)
    as (bs' & Hload & Hget & _).
  - vm_compute. reflexivity.
  - vm_compute. reflexivity.
  - exact Ep.
  - exists bs', (r :: rs). split; [exact Hload|exact Hget].
Defined.

Lemma load_rows_raises (rows : list csv_row) (bid_set : list str) :
  forall bs,
    (exists e, load_rows rows bid_set bs = Raise e)
    <-> Exists (stops bid_set) rows.
Proof.
  induction rows as [|row rows IH]; intros bs.
  - split; [intros [e H]; discriminate|intros H; inversion H].
  - rewrite load_rows_cons. unfold stops at 1, selected, row_name.
    rewrite Exists_cons.
    destruct (name_cell row) as [name|] eqn:En; simpl;
      [|split; [auto|eauto]].
    destruct (mem (strip name) bid_set) eqn:Em.
    + destruct (row_geom row) as [wkt|] eqn:Eg; simpl;
        [|split; [intros _; left; right; auto|eauto]].
      destruct (parse_wkt_multipolygon wkt) as [rings|e] eqn:Ep; simpl.
      * rewrite IH. split; [auto|].
        intros [[H|[_ [H|(wkt' & H & Hp)]]]|H]; try discriminate H;
          [|exact H].
        inversion H; subst. congruence.
      * split; [|eauto]. intros _. left. right. split; [reflexivity|].
        right. exists wkt. split; [reflexivity|].
        rewrite (parse_wkt_error _ _ Ep) in Ep. exact Ep.
    + rewrite IH. split; [auto|].
      intros [[H|[H _]]|H]; try discriminate H. exact H.
Qed.

Lemma load_rows_error (rows : list csv_row) (bid_set : list str) :
  forall bs e,
    load_rows rows bid_set bs = Raise e ->
    e = ValueError \/ (e = AttributeError /\ Exists short rows).
Proof.
  induction rows as [|row rows IH]; intros bs e H; [discriminate|].
  rewrite load_rows_cons in H.
  assert (Hrest : forall bs0,
             load_rows rows bid_set bs0 = Raise e ->
             e = ValueError
             \/ (e = AttributeError /\ Exists short (row :: rows))).
  { intros bs0 H0. destruct (IH _ _ H0) as [He|[He Hs]]; [left; exact He|].
    right. split; [exact He|]. right. exact Hs. }
  destruct (row_name row) as [name|e'] eqn:En; simpl in H.
  - destruct (mem name bid_set); [|eauto].
    destruct (parse_wkt_cell (row_geom row)) as [rings|e'] eqn:Ep;
      simpl in H; [eauto|].
    inversion H; subst.
    destruct (parse_wkt_cell_error _ _ Ep) as [[He Hg]|[He _]];
      [|left; exact He].
    right. split; [exact He|]. left. right. exact Hg.
  - inversion H; subst. apply row_name_error in En. destruct En as [He Hn].
    right. split; [exact He|]. left. left. exact Hn.
Qed.

(** X8. The loader fails as a whole or not at all, and no mapping is
    returned when it does: it raises exactly when some row stops it, which
    is a row whose name cell is [None], or a row of the target set whose
    geometry cell is [None] or holds a text on which the parser raises.
    The error is the [ValueError] of the parser, or the [AttributeError] of
    [.strip()] on a [None] cell, which only a row shorter than the header
    has.  The geometry of a row outside the target set is never parsed, so
    it cannot make the loader fail. *)
Theorem load_raises_iff (rows : list csv_row) (bid_names : list str) :
  ((exists e, load_bid_boundaries rows bid_names = Raise e)
   <-> Exists (stops bid_names) rows)
  /\ (forall e, load_bid_boundaries rows bid_names = Raise e ->
                e = ValueError \/ (e = AttributeError /\ Exists short rows))
  /\ (Forall (fun row => selected bid_names row = Ok false) rows ->
      load_bid_boundaries rows bid_names = Ok []).
Proof.
  unfold load_bid_boundaries. split; [apply load_rows_raises|]. split.
  - intros e. apply load_rows_error.
  - generalize (@nil (str * list ring)).
    induction 1 as [|row rows Hs _ IH]; [reflexivity|].
    rewrite load_rows_cons. unfold selected in Hs.
    destruct (row_name row) as [name|e]; simpl in *; [|discriminate Hs].
    inversion Hs as [Hm]. rewrite Hm. exact IH.
Qed.

Lemma load_stage_error (rows : list csv_row) (e : exn) :
  load_stage rows = Raise e ->
  load_bid_boundaries rows BROOKLYN_BIDS = Raise e
  /\ (e = ValueError \/ (e = AttributeError /\ Exists short rows)).
Proof.
  unfold load_stage. intros H.
  destruct (load_bid_boundaries rows BROOKLYN_BIDS) as [bs0|e'] eqn:E;
    simpl in H; [discriminate|].
  inversion H; subst. split; [reflexivity|].
  apply (load_rows_error _ _ _ _ E).
Qed.

(** X9. Step A of [main] always ends with the Gowanus boundary under its
    name: the literal ring replaces whatever a CSV row of that name had
    given, and every other name keeps the value loaded from the CSV.  The
    step fails only when the loader does, with its error: the
    [ValueError] of the parser, or the [AttributeError] that a row shorter
    than the header brings. *)
Theorem load_stage_gowanus (rows : list csv_row) :
  (forall bs,
      load_stage rows = Ok bs ->
      get bs (lit "Gowanus BID (Proposed)") = Some [GOWANUS_BOUNDARY]
      /\ exists bs0,
           load_bid_boundaries rows BROOKLYN_BIDS = Ok bs0
           /\ (forall k, k <> lit "Gowanus BID (Proposed)" ->
                         get bs k = get bs0 k)
           /\ (mem (lit "Gowanus BID (Proposed)") (keys bs0) = false ->
               bs = (bs0 ++ [(lit "Gowanus BID (Proposed)",
                              [GOWANUS_BOUNDARY])])%list)
           /\ (mem (lit "Gowanus BID (Proposed)") (keys bs0) = true ->
               keys bs = keys bs0))
  /\ (forall e,
         load_stage rows = Raise e ->
         load_bid_boundaries rows BROOKLYN_BIDS = Raise e
         /\ (e = ValueError \/ (e = AttributeError /\ Exists short rows))).
Proof.
  split; [|apply load_stage_error]. unfold load_stage.
  - intros bs H. bind_inv H. rename a into bs0.
    assert (Hbs : bs = set bs0 (lit "Gowanus BID (Proposed)")
                         [GOWANUS_BOUNDARY]) by congruence.
    clear H. subst bs.
    split; [apply get_set_same|]. exists bs0. split; [exact Ha|]. split.
    + intros k Hk. apply get_set_other. intros E. apply Hk. symmetry.
      exact E.
    + split.
      * apply set_fresh.
      * intros Hm. rewrite keys_set, Hm. reflexivity.
Qed.

End ParserEdges.

(** ** The records and features that [main] exports *)

Module Records.
Import Py Deckgl Spec Samples PyFacts DictFacts FloatFacts Wkt Loading RayCast.
Import Assembly Currency RingFacts ParserEdges.
Local Open Scope py_scope.

(** *** The loop as a whole *)

Lemma assemble_flat_map (bs : boundaries) (raw_lots : list pluto_row) :
  forall acc ps,
    assemble bs raw_lots acc = Ok ps ->
    ps = (acc ++ flat_map (emitted bs) raw_lots)%list.
Proof.
  induction raw_lots as [|row rest IH]; intros acc ps H; simpl in H.
  - inversion H. rewrite app_nil_r. reflexivity.
  - bind_inv H. apply IH in H. subst ps. cbn [flat_map]. unfold emitted at 2.
    rewrite Ha. destruct a as [p|]; [|reflexivity].
    rewrite <- app_assoc. reflexivity.
Qed.

Lemma flat_map_emitted_length (bs : boundaries) (raw_lots : list pluto_row) :
  List.length (flat_map (emitted bs) raw_lots) <= List.length raw_lots.
Proof.
  induction raw_lots as [|row rest IH]; simpl; [lia|].
  rewrite length_app. unfold emitted at 1.
  destruct (row_parcel bs row) as [[p|]|e]; simpl; lia.
Qed.

Lemma assemble_split (bs : boundaries) (l1 l2 : list pluto_row) :
  forall acc,
    assemble bs (l1 ++ l2) acc = (ps <- assemble bs l1 acc ;; assemble bs l2 ps).
Proof.
  induction l1 as [|row l1 IH]; intros acc; simpl; [reflexivity|].
  destruct (row_parcel bs row) as [p|e]; simpl; [apply IH|reflexivity].
Qed.

(** X4. The records come out in the order of the fetched rows, at most one
    per row: when the loop of [main] completes, its list is the
    concatenation, row by row, of the record that the loop body appends for
    the row, if any.  Rows fetched in two batches give the records of the
    first batch followed by those of the second. *)
Theorem assemble_in_row_order (bs : boundaries) (raw_lots : list pluto_row)
    (ps : list parcel) :
  assemble bs raw_lots [] = Ok ps ->
  ps = flat_map (emitted bs) raw_lots
  /\ List.length ps <= List.length raw_lots
  /\ forall l1 l2,
       raw_lots = (l1 ++ l2)%list ->
       exists ps1 ps2,
         assemble bs l1 [] = Ok ps1 /\ assemble bs l2 [] = Ok ps2
         /\ ps = (ps1 ++ ps2)%list.
Proof.
  intros H. pose proof (assemble_flat_map _ _ _ _ H) as Hps. simpl in Hps.
  split; [exact Hps|]. split.
  - rewrite Hps. apply flat_map_emitted_length.
  - intros l1 l2 ->. rewrite assemble_split in H. bind_inv H.
    rename a into ps1. exists ps1.
    destruct (assemble bs l2 []) as [ps2|e] eqn:E2.
    + exists ps2. repeat split; auto.
      rewrite (assemble_flat_map _ _ _ _ H).
      rewrite (assemble_flat_map _ _ _ _ E2). reflexivity.
    + exfalso. clear Ha Hps. revert ps1 ps H E2.
      generalize (@nil parcel).
      induction l2 as [|row l2 IH]; intros acc ps1 ps H E2; simpl in *;
        [discriminate|].
      destruct (row_parcel bs row) as [p|e']; simpl in *; [|discriminate].
      eapply IH; eassumption.
Qed.

Lemma assemble_in_row_order_witness :
  exists ps,
    assemble gowanus_only sample_lots [] = Ok ps
    /\ ps = flat_map (emitted gowanus_only) sample_lots
    /\ List.length ps <= 2.
Proof.
  destruct (assemble gowanus_only sample_lots []) as [ps|e] eqn:E;
    [|vm_compute in E; discriminate E].
  destruct (assemble_in_row_order _ _ _ E) as (H1 & H2 & _).
  exists ps. split; [reflexivity|]. split; [exact H1|exact H2].
Defined.

(** *** Coordinates *)

Lemma crossing_not_nan (lon lat : float) (vi vj : coord) :
  crossing lon lat vi vj = true -> is_nan lon = false /\ is_nan lat = false.
Proof.
  unfold crossing, gt. intros H. apply andb_true_iff in H.
  destruct H as [Hg Hl]. split; [apply (ltb_not_nan _ _ Hl)|].
  destruct (lat <? snd vi)%float eqn:Ei; [apply (ltb_not_nan _ _ Ei)|].
  destruct (lat <? snd vj)%float eqn:Ej; [apply (ltb_not_nan _ _ Ej)|].
  discriminate Hg.
Qed.

Lemma contains_not_nan (lon lat : float) (r : ring) :
  contains lon lat r -> is_nan lon = false /\ is_nan lat = false.
Proof.
  unfold contains. rewrite point_in_ring_edges. intros H.
  assert (Ht : toggles lon lat (ring_edges r) false <> false) by congruence.
  destruct (toggles_some _ _ _ _ Ht) as ([vi vj] & _ & Hc).
  apply (crossing_not_nan _ _ _ _ Hc).
Qed.

Lemma find_bid_not_nan (lon lat : float) (bs : boundaries) (name : str) :
  find_bid lon lat bs = Ok (Some name) ->
  is_nan lon = false /\ is_nan lat = false.
Proof.
  intros H. apply find_bid_some in H.
  destruct H as (pre & rings & post & _ & _ & Hc). unfold covers in Hc.
  apply Exists_exists in Hc. destruct Hc as (r & _ & Hr).
  apply (contains_not_nan _ _ _ Hr).
Qed.

Lemma assemble_rows (bs : boundaries) (raw_lots : list pluto_row)
    (ps : list parcel) (p : parcel) :
  assemble bs raw_lots [] = Ok ps -> In p ps ->
  exists row, In row raw_lots /\ row_parcel bs row = Ok (Some p).
Proof.
  intros H Hp. rewrite (assemble_flat_map _ _ _ _ H) in Hp. simpl in Hp.
  apply in_flat_map in Hp. destruct Hp as (row & Hrow & Hin).
  exists row. split; [exact Hrow|]. unfold emitted in Hin.
  destruct (row_parcel bs row) as [[q|]|e]; try contradiction.
  destruct Hin as [->|[]]. reflexivity.
Qed.

(** X10. No record that [main] exports has a coordinate that is zero or
    not a number: a zero is skipped by the loop, and a point with a
    coordinate that is not a number lies in no ring, since every
    comparison with it is false. *)
Theorem parcels_located (rows : list csv_row) (raw_lots : list pluto_row)
    (out : output) :
  main rows raw_lots = Ok out ->
  Forall (fun p => is_nan (p_lon p) = false /\ is_nan (p_lat p) = false
                   /\ (p_lon p =? 0)%float = false
                   /\ (p_lat p =? 0)%float = false) (parcels out).
Proof.
  unfold main. intros H. bind_inv H. rename a into bs. bind_inv H.
  rename a into ps. inversion H; subst; clear H. simpl.
  apply Forall_forall. intros p Hp.
  destruct (assemble_rows _ _ _ _ Ha0 Hp) as (row & _ & Hrow).
  apply row_parcel_assigned in Hrow. destruct Hrow as [(name & _ & Hf) Hc].
  apply row_coords_some in Hc. destruct Hc as (_ & _ & Hx & Hy).
  destruct (find_bid_not_nan _ _ _ _ Hf) as [Hn1 Hn2]. auto.
Qed.

Lemma parcels_located_witness :
  exists out,
    main [] sample_lots = Ok out
    /\ Forall (fun p => is_nan (p_lon p) = false /\ is_nan (p_lat p) = false
                        /\ (p_lon p =? 0)%float = false
                        /\ (p_lat p =? 0)%float = false) (parcels out).
Proof.
  destruct (main [] sample_lots) as [out|e] eqn:E;
    [|vm_compute in E; discriminate E].
  exists out. split; [reflexivity|]. apply (parcels_located _ _ _ E).
Defined.

(** *** Colours *)

Lemma get_constant {V : Type} (names : list str) (c : V) (k : str) :
  get_default (map (fun name => (name, c)) names) k c = c.
Proof.
  unfold get_default. induction names as [|n names IH]; simpl; [reflexivity|].
  destruct (str_eqb k n); [reflexivity|exact IH].
Qed.

(** X11. Every colour that [main] exports is the placeholder gray
    [[128, 128, 128]], for the records and for the features alike and
    whatever the name: the table maps each name of the target set to gray
    and the default for any other name is gray too. *)
Theorem colours_are_gray (rows : list csv_row) (raw_lots : list pluto_row)
    (out : output) :
  main rows raw_lots = Ok out ->
  Forall (fun p => p_color p = [128; 128; 128]%Z) (parcels out)
  /\ Forall (fun f => feature_color f = [128; 128; 128]%Z)
       (bid_boundaries out).
Proof.
  unfold main. intros H. bind_inv H. rename a into bs. bind_inv H.
  rename a into ps. inversion H; subst; clear H. simpl. split.
  - apply Forall_forall. intros p Hp.
    destruct (assemble_rows _ _ _ _ Ha0 Hp) as (row & _ & Hrow).
    unfold row_parcel in Hrow. bind_inv Hrow.
    destruct a as [[lon lat]|]; [|discriminate].
    bind_inv Hrow. destruct a as [name|]; [|discriminate].
    do 5 bind_inv Hrow. inversion Hrow; subst; clear Hrow. simpl.
    apply (get_constant BROOKLYN_BIDS gray).
  - unfold build_geojson_boundaries. apply Forall_forall. intros f Hf.
    apply in_map_iff in Hf. destruct Hf as ([name rings] & <- & _). simpl.
    apply (get_constant BROOKLYN_BIDS gray).
Qed.

Lemma colours_are_gray_witness :
  exists out,
    main [] sample_lots = Ok out
    /\ Forall (fun p => p_color p = [128; 128; 128]%Z) (parcels out)
    /\ Forall (fun f => feature_color f = [128; 128; 128]%Z)
         (bid_boundaries out).
Proof.
  destruct (main [] sample_lots) as [out|e] eqn:E;
    [|vm_compute in E; discriminate E].
  exists out. split; [reflexivity|]. apply (colours_are_gray _ _ _ E).
Defined.

(** *** Numeric fields *)

Lemma float_of_error (v : json) (e : exn) :
  float_of v = Raise e ->
  e = TypeError \/ e = ValueError
  \/ (e = OverflowError /\ exists z, v = JInt z).
Proof.
  destruct v as [|b|z|f|s|l|l]; simpl; intros H;
    try discriminate; try (left; congruence).
  - right. right. unfold float_of_int in H.
    destruct (binary_normalize _ _ _ _ _); try discriminate.
    split; [congruence|eauto].
  - right. left. apply (float_of_str_error _ _ H).
Qed.

Lemma get_or_zero_int (row : pluto_row) (key : string) (z : Z) :
  get_or_zero row key = JInt z ->
  z = 0%Z \/ get row (lit key) = Some (JInt z).
Proof.
  unfold get_or_zero, get_default.
  destruct (get row (lit key)) as [v|]; simpl.
  - destruct (truthy v); intros H; [right|left]; congruence.
  - intros H. left. congruence.
Qed.

Lemma float_field_error (row : pluto_row) (key : string) (e : exn) :
  float_field row key = Raise e ->
  e = OverflowError
  /\ exists z, get row (lit key) = Some (JInt z)
               /\ float_of_int z = Raise OverflowError.
Proof.
  unfold float_field.
  destruct (float_of (get_or_zero row key)) as [f|e'] eqn:E;
    simpl; [discriminate|].
  destruct (float_of_error _ _ E) as [->|[->|[-> [z Hz]]]];
    simpl; try discriminate.
  intros H. split; [congruence|]. exists z. rewrite Hz in E.
  destruct (get_or_zero_int _ _ _ Hz) as [->|Hg];
    [vm_compute in E; discriminate|].
  split; [exact Hg|exact E].
Qed.

(** X12. A numeric field never fails a row for being missing, empty or not
    a number.  [float(row.get(key, 0) or 0)] under its [try] gives a float,
    or leaves the integer [0] that the variable held: a missing field
    gives [0.0]; a text that [float] rejects leaves the integer [0].  The
    one error that gets through is the [OverflowError] of an integer
    beyond the floats, which the [except] clause does not name. *)
Theorem float_field_outcomes (row : pluto_row) (key : string) :
  (forall v, float_field row key = Ok v ->
             v = JInt 0 \/ exists f, v = JFloat f)
  /\ (forall e, float_field row key = Raise e ->
                e = OverflowError
                /\ exists z, get row (lit key) = Some (JInt z)
                             /\ float_of_int z = Raise OverflowError)
  /\ (get row (lit key) = None -> float_field row key = Ok (JFloat 0))
  /\ (forall s e, get row (lit key) = Some (JStr s) -> s <> [] ->
                  float_of_str s = Raise e ->
                  float_field row key = Ok (JInt 0)).
Proof.
  split; [|split; [|split]]; [| |unfold float_field..].
  - intros v. unfold float_field.
    destruct (float_of (get_or_zero row key)) as [f|e]; simpl.
    + intros H. right. exists f. congruence.
    + destruct e; simpl; intros H; try discriminate; left; congruence.
  - intros e. apply float_field_error.
  - intros Hg. unfold get_or_zero, get_default. rewrite Hg. reflexivity.
  - intros s e Hg Hs He. unfold get_or_zero, get_default. rewrite Hg.
    destruct s as [|c s]; [contradiction|]. cbn [truthy List.length Nat.eqb negb].
    cbn [float_of]. rewrite He, (float_of_str_error _ _ He). reflexivity.
Qed.

Lemma int_of_float_error (f : float) (e : exn) :
  int_of_float f = Raise e -> e = ValueError \/ e = OverflowError.
Proof.
  unfold int_of_float. destruct (Prim2SF f); intros H; try discriminate;
    [right|left]; congruence.
Qed.

Lemma int_field_error (row : pluto_row) (key : string) (e : exn) :
  int_field row key = Raise e -> e = OverflowError.
Proof.
  unfold int_field.
  destruct (float_of (get_or_zero row key)) as [f|e'] eqn:E; simpl.
  - destruct (int_of_float f) as [n|e'] eqn:En; simpl; [discriminate|].
    destruct (int_of_float_error _ _ En) as [->| ->]; simpl;
      [discriminate|congruence].
  - destruct (float_of_error _ _ E) as [->|[->|[-> _]]]; simpl;
      try discriminate; congruence.
Qed.

(** X13. [int(float(row.get("yearbuilt", 0) or 0))] under its [try] gives
    an integer, [0] when the field is missing, is rejected by [float] or
    reads as the float that is not a number.  A field that reads as an
    infinity is not caught: [int] raises [OverflowError], which the
    [except] clause does not name, and the run ends there. *)
Theorem int_field_outcomes (row : pluto_row) (key : string) :
  (forall v, int_field row key = Ok v -> exists n, v = JInt n)
  /\ (forall e, int_field row key = Raise e -> e = OverflowError)
  /\ (get row (lit key) = None -> int_field row key = Ok (JInt 0))
  /\ (forall v, get row (lit key) = Some v -> truthy v = true ->
                float_of v = Ok nan -> int_field row key = Ok (JInt 0))
  /\ (forall v f, get row (lit key) = Some v -> truthy v = true ->
                  float_of v = Ok f -> f = infinity \/ f = neg_infinity ->
                  int_field row key = Raise OverflowError).
Proof.
  split; [|split; [|split; [|split]]]; [| |unfold int_field..].
  - intros v. unfold int_field.
    destruct (float_of (get_or_zero row key)) as [f|e]; simpl.
    + destruct (int_of_float f) as [n|e]; simpl.
      * intros H. exists n. congruence.
      * destruct e; simpl; intros H; try discriminate; exists 0%Z;
          congruence.
    + destruct e; simpl; intros H; try discriminate; exists 0%Z; congruence.
  - intros e. apply int_field_error.
  - intros Hg. unfold get_or_zero, get_default. rewrite Hg. reflexivity.
  - intros v Hg Ht Hf. unfold get_or_zero, get_default. rewrite Hg, Ht, Hf.
    reflexivity.
  - intros v f Hg Ht Hf Hinf. unfold get_or_zero, get_default.
    rewrite Hg, Ht, Hf. destruct Hinf as [-> | ->]; reflexivity.
Qed.

(** *** Errors of the whole run *)

Lemma row_coords_error (row : pluto_row) (e : exn) :
  row_coords row = Raise e -> e = OverflowError.
Proof.
  unfold row_coords.
  destruct (float_of (get_default row (lit "longitude") (JInt 0)))
    as [lon|e1] eqn:E1.
  - destruct (float_of (get_default row (lit "latitude") (JInt 0)))
      as [lat|e2] eqn:E2.
    + destruct (_ || _); discriminate.
    + destruct (float_of_error _ _ E2) as [->|[->|[-> _]]];
        try discriminate; congruence.
  - destruct (float_of_error _ _ E1) as [->|[->|[-> _]]];
      try discriminate; congruence.
Qed.

Lemma row_parcel_error (bs : boundaries) (row : pluto_row) (e : exn) :
  row_parcel bs row = Raise e -> e = OverflowError.
Proof.
  unfold row_parcel. intros H.
  destruct (row_coords row) as [[[lon lat]|]|e1] eqn:E1; simpl in H;
    try discriminate;
    [|inversion H; subst; apply (row_coords_error _ _ E1)].
  destruct (find_bid_ok lon lat bs) as [[name|] Hf]; rewrite Hf in H;
    simpl in H; [|discriminate].
  pose proof (float_field_error row "assesstot") as F1.
  pose proof (float_field_error row "assessland") as F2.
  pose proof (float_field_error row "numfloors") as F3.
  pose proof (int_field_error row "yearbuilt") as F4.
  pose proof (float_field_error row "lotarea") as F5.
  destruct (float_field row "assesstot") as [v1|e1]; simpl in H;
    [|inversion H; subst; apply (F1 _ eq_refl)].
  destruct (float_field row "assessland") as [v2|e2]; simpl in H;
    [|inversion H; subst; apply (F2 _ eq_refl)].
  destruct (float_field row "numfloors") as [v3|e3]; simpl in H;
    [|inversion H; subst; apply (F3 _ eq_refl)].
  destruct (int_field row "yearbuilt") as [v4|e4]; simpl in H;
    [|inversion H; subst; apply (F4 _ eq_refl)].
  destruct (float_field row "lotarea") as [v5|e5]; simpl in H;
    [|inversion H; subst; apply (F5 _ eq_refl)].
  discriminate.
Qed.

Lemma assemble_error (bs : boundaries) (raw_lots : list pluto_row) :
  forall acc e,
    assemble bs raw_lots acc = Raise e ->
    e = OverflowError
    /\ Exists (fun row => row_parcel bs row = Raise OverflowError) raw_lots.
Proof.
  induction raw_lots as [|row rest IH]; intros acc e H; simpl in H;
    [discriminate|].
  destruct (row_parcel bs row) as [p|e'] eqn:E; simpl in H.
  - destruct (IH _ _ H) as [He Hex]. split; [exact He|right; exact Hex].
  - inversion H; subst. pose proof (row_parcel_error _ _ _ E) as He.
    split; [exact He|]. left. rewrite <- He. exact E.
Qed.

(** X14. The computation of [main] on the rows of the CSV and on the
    fetched rows can fail in three ways only.  In step A the parser raises
    [ValueError] on the geometry of a row of the target set, or a row
    shorter than the header gives [None] for a cell and [.strip()] on it
    raises [AttributeError].  In the loop over the fetched rows an
    [OverflowError] gets past the [except] clauses: an integer beyond the
    floats in a numeric field or a coordinate, or a year that reads as an
    infinity.  The test of the point never raises. *)
Theorem main_raises (rows : list csv_row) (raw_lots : list pluto_row)
    (e : exn) :
  main rows raw_lots = Raise e ->
  (e = ValueError /\ load_stage rows = Raise ValueError)
  \/ (e = AttributeError
      /\ load_stage rows = Raise AttributeError /\ Exists short rows)
  \/ (e = OverflowError
      /\ exists bs,
           load_stage rows = Ok bs
           /\ Exists (fun row => row_parcel bs row = Raise OverflowError)
                raw_lots).
Proof.
  unfold main. intros H.
  destruct (load_stage rows) as [bs|e1] eqn:E1; simpl in H.
  - right. right.
    destruct (assemble bs raw_lots []) as [ps|e2] eqn:E2; simpl in H;
      [discriminate|].
    inversion H; subst. destruct (assemble_error _ _ _ _ E2) as [He Hex].
    split; [exact He|]. exists bs. auto.
  - inversion H; subst.
    destruct (load_stage_error _ _ E1) as [_ [He|[He Hs]]]; subst e.
    + left. auto.
    + right. left. auto.
Qed.

(** A year that reads as an infinity ends the run, and so does a line of
    the CSV that stops before the column of the names. *)
Lemma main_raises_witness :
  main [] [endless_lot] = Raise OverflowError
  /\ main [short_row] [] = Raise AttributeError.
Proof.
  split.
  - destruct (main [] [endless_lot]) as [out|e] eqn:E;
      [vm_compute in E; discriminate E|].
    destruct (main_raises _ _ _ E) as [[_ H]|[[_ [H _]]|[-> _]]];
      [vm_compute in H; discriminate H..|reflexivity].
  - destruct (main [short_row] []) as [out|e] eqn:E;
      [vm_compute in E; discriminate E|].
    destruct (main_raises _ _ _ E) as [[_ H]|[[-> _]|[_ (bs & H & _)]]];
      [vm_compute in H; discriminate H|reflexivity
      |vm_compute in H; discriminate H].
Defined.

(** *** The tally *)

Lemma sum_count_bid (d : dict Z) (k : str) :
  fold_right Z.add 0%Z (map snd (count_bid d k))
  = (fold_right Z.add 0 (map snd d) + 1)%Z.
Proof.
  unfold count_bid, get_default. induction d as [|[k' v'] d IH]; simpl.
  - reflexivity.
  - destruct (str_eqb k k'); simpl; [lia|]. rewrite IH. lia.
Qed.

Lemma get_default_count_same (d : dict Z) (k : str) :
  get_default (count_bid d k) k 0%Z = (get_default d k 0 + 1)%Z.
Proof.
  unfold count_bid. unfold get_default at 1. rewrite get_set_same.
  reflexivity.
Qed.

Lemma get_default_count_other (d : dict Z) (k k' : str) :
  k <> k' -> get_default (count_bid d k) k' 0%Z = get_default d k' 0%Z.
Proof.
  intros H. unfold count_bid, get_default. rewrite get_set_other by exact H.
  reflexivity.
Qed.

Lemma filter_snoc (A : Type) (f : A -> bool) (l : list A) (x : A) :
  filter f (l ++ [x]) = (filter f l ++ if f x then [x] else [])%list.
Proof. rewrite filter_app. reflexivity. Qed.

Lemma tally_step (ps : list parcel) (counts : dict Z) (p : parcel)
    (name : str) :
  p_bid_name p = Some name -> tally_ok ps counts ->
  tally_ok (ps ++ [p]) (count_bid counts name).
Proof.
  intros Hp (Hnd & Hpos & Hget & Hsum). split; [|split; [|split]].
  - apply NoDup_keys_set. exact Hnd.
  - apply Forall_set; [exact Hpos|]. simpl. rewrite Hget. lia.
  - intros k. rewrite filter_snoc, length_app. unfold named at 2.
    rewrite Hp. destruct (str_eqb name k) eqn:E.
    + apply str_eqb_eq in E. subst k. rewrite get_default_count_same, Hget.
      simpl. lia.
    + rewrite get_default_count_other, Hget; [simpl; lia|].
      intros ->. assert (str_eqb k k = true) by (apply str_eqb_eq; reflexivity).
      congruence.
  - rewrite sum_count_bid, Hsum, length_app. simpl. lia.
Qed.

Lemma assemble_counts_tally (bs : boundaries) (raw_lots : list pluto_row) :
  forall ps counts ps' counts',
    assemble_counts bs raw_lots ps counts = Ok (ps', counts') ->
    tally_ok ps counts ->
    assemble bs raw_lots ps = Ok ps' /\ tally_ok ps' counts'.
Proof.
  induction raw_lots as [|row rest IH]; intros ps counts ps' counts' H Hok;
    simpl in H.
  - inversion H; subst. split; [reflexivity|exact Hok].
  - simpl. destruct (row_parcel bs row) as [[p|]|e] eqn:E; simpl in *;
      try discriminate; [|apply (IH _ _ _ _ H Hok)].
    destruct (row_parcel_assigned _ _ _ E) as [(name & Hname & _) _].
    rewrite Hname in H. apply (IH _ _ _ _ H).
    apply tally_step; assumption.
Qed.

Lemma assemble_counts_total (bs : boundaries) (raw_lots : list pluto_row) :
  forall ps counts ps',
    assemble bs raw_lots ps = Ok ps' ->
    exists counts', assemble_counts bs raw_lots ps counts = Ok (ps', counts').
Proof.
  induction raw_lots as [|row rest IH]; intros ps counts ps' H; simpl in *.
  - inversion H; subst. eauto.
  - destruct (row_parcel bs row) as [[p|]|e]; simpl in *;
      try discriminate; apply IH; exact H.
Qed.

(** X15. The tally that [main] prints agrees with the records.  When the
    loop completes, the names counted are distinct and are the names that
    the records carry; the count of a name is the number of records that
    carry it, at least one; and the counts add up to the number of
    records.  Counting changes nothing else: the records are those of the
    loop without the tally, and the loop with the tally completes whenever
    that one does. *)
Theorem bid_counts_tally (bs : boundaries) (raw_lots : list pluto_row) :
  (forall ps counts,
      assemble_counts bs raw_lots [] [] = Ok (ps, counts) ->
      assemble bs raw_lots [] = Ok ps
      /\ NoDup (keys counts)
      /\ (forall name,
             get_default counts name 0%Z
             = Z.of_nat (List.length (filter (named name) ps)))
      /\ (forall name,
             In name (keys counts)
             <-> exists p, In p ps /\ p_bid_name p = Some name)
      /\ fold_right Z.add 0%Z (map snd counts) = Z.of_nat (List.length ps))
  /\ (forall ps,
         assemble bs raw_lots [] = Ok ps ->
         exists counts, assemble_counts bs raw_lots [] [] = Ok (ps, counts)).
Proof.
  split; [|intros ps; apply assemble_counts_total].
  intros ps counts H.
  destruct (assemble_counts_tally _ _ _ _ _ _ H) as (Ha & Hnd & Hpos & Hget & Hsum).
  { repeat split; try constructor. }
  repeat split; auto.
  - intros Hk. apply get_keys in Hk. destruct Hk as [v Hv].
    pose proof (Hget name) as Hn. unfold get_default in Hn. rewrite Hv in Hn.
    apply get_in in Hv. rewrite Forall_forall in Hpos.
    specialize (Hpos _ Hv). simpl in Hpos.
    destruct (filter (named name) ps) as [|p l] eqn:Ef; [simpl in Hn; lia|].
    assert (Hin : In p (filter (named name) ps))
      by (rewrite Ef; left; reflexivity).
    apply filter_In in Hin. destruct Hin as [Hin Hnamed].
    exists p. split; [exact Hin|]. unfold named in Hnamed.
    destruct (p_bid_name p) as [n|]; [|discriminate].
    apply str_eqb_eq in Hnamed. congruence.
  - intros (p & Hin & Hp). apply get_keys.
    assert (Hf : In p (filter (named name) ps)).
    { apply filter_In. split; [exact Hin|]. unfold named. rewrite Hp.
      apply str_eqb_eq. reflexivity. }
    pose proof (Hget name) as Hn. unfold get_default in Hn.
    destruct (get counts name) as [v|]; [eauto|].
    destruct (filter (named name) ps); [contradiction|simpl in Hn; lia].
Qed.

(** *** The features *)

Lemma position_round_trip (r : ring) :
  map position_coord (map (fun c : coord => [fst c; snd c]) r) = r.
Proof.
  rewrite map_map. rewrite <- (map_id r) at 2. apply map_ext.
  intros [x y]. reflexivity.
Qed.

(** X16. The boundaries can be read back from the features: the names and
    the rings recovered from the coordinates of the exported collection
    are the mapping itself, in its order.  Every ring is written as a
    polygon of its own with that one ring, so no polygon has a hole, and
    every position is a pair [lon, lat]. *)
Theorem features_round_trip (bs : boundaries) :
  map (fun f => (feature_name f, coordinates_rings (feature_coordinates f)))
    (build_geojson_boundaries bs) = bs
  /\ Forall (fun f =>
       Forall (fun poly =>
         List.length poly = 1
         /\ Forall (Forall (fun pos : list float => List.length pos = 2))
              poly)
         (feature_coordinates f))
       (build_geojson_boundaries bs).
Proof.
  unfold build_geojson_boundaries. split.
  - rewrite map_map. rewrite <- (map_id bs) at 2. apply map_ext.
    intros [name rings]. simpl. f_equal. unfold coordinates_rings.
    rewrite map_map. rewrite <- (map_id rings) at 2. apply map_ext.
    intros r. simpl. apply position_round_trip.
  - apply Forall_forall. intros f Hf. apply in_map_iff in Hf.
    destruct Hf as ([name rings] & <- & _). simpl.
    apply Forall_forall. intros poly Hp. apply in_map_iff in Hp.
    destruct Hp as (r & <- & _). split; [reflexivity|].
    constructor; [|constructor]. apply Forall_forall. intros pos Hpos.
    apply in_map_iff in Hpos. destruct Hpos as (c & <- & _). reflexivity.
Qed.

(** *** The injected boundary *)

Lemma find_bid_app (lon lat : float) (bs more : boundaries) :
  find_bid lon lat (bs ++ more)
  = (v <- find_bid lon lat bs ;;
     match v with
     | Some name => Ok (Some name)
     | None => find_bid lon lat more
     end).
Proof.
  induction bs as [|[k rings] bs IH]; simpl.
  - destruct (find_bid lon lat more) as [[name|]|e]; reflexivity.
  - destruct (in_rings lon lat rings) as [[|]|e]; simpl; auto.
Qed.

(** X17. A boundary added under a new name comes last and so takes no
    point from the boundaries that were there: a point that had a name
    keeps it, and a point that had none gets the new name exactly when one
    of the new rings contains it.  This is what the injection of the
    Gowanus boundary does when the CSV has no row of that name. *)
Theorem new_boundary_comes_last (lon lat : float) (bs : boundaries)
    (k : str) (rings : list ring) :
  mem k (keys bs) = false ->
  (forall name,
      find_bid lon lat bs = Ok (Some name) ->
      find_bid lon lat (set bs k rings) = Ok (Some name))
  /\ (find_bid lon lat bs = Ok None ->
      find_bid lon lat (set bs k rings)
      = (b <- in_rings lon lat rings ;; Ok (if b then Some k else None))).
Proof.
  intros Hk. rewrite (set_fresh bs k rings Hk), find_bid_app. split.
  - intros name ->. reflexivity.
  - intros ->. simpl.
    destruct (in_rings lon lat rings) as [[|]|e]; reflexivity.
Qed.

Lemma new_boundary_comes_last_witness :
  find_bid 0.5 0.5
    (set [(lit "A", [unit_square])] (lit "B") [unit_square])
  = Ok (Some (lit "A")).
Proof.
  apply (proj1 (new_boundary_comes_last 0.5 0.5 [(lit "A", [unit_square])]
                  (lit "B") [unit_square] eq_refl)).
  vm_compute. reflexivity.
Defined.

End Records.

(** ** The fetch loop against any server *)

Module FetchFacts.
Import Py Deckgl Spec Samples Fetch.

Lemma offsets_length (n : nat) (off : Z) : List.length (offsets n off) = n.
Proof.
  revert off. induction n as [|n IH]; intros off; simpl; [reflexivity|].
  rewrite IH. reflexivity.
Qed.

(** A loop that ends has asked for consecutive offsets and returns what was
    served at them. *)
Lemma fetch_loop_served (srv : server) (fuel : nat) :
  forall st res reqs,
    fetch_loop fuel srv st = Some (res, reqs) ->
    exists n,
      1 <= n <= fuel
      /\ reqs = (requests st ++ offsets n (offset st))%list
      /\ forall rows,
           res = Ok rows ->
           rows = (all_rows st
                   ++ flat_map (served srv) (offsets n (offset st)))%list.
Proof.
  induction fuel as [|fuel IH]; intros st res reqs H; [discriminate|].
  cbn [fetch_loop] in H. unfold fetch_step in H.
  destruct (srv (offset st)) as [batch|e] eqn:Es.
  - destruct batch as [|r batch].
    + inversion H; subst. exists 1. split; [lia|]. split; [reflexivity|].
      intros rows Hr. inversion Hr; subst. cbn [offsets flat_map].
      unfold served. rewrite Es. rewrite !app_nil_r. reflexivity.
    + destruct (Z.of_nat (List.length (r :: batch)) <? PAGE_SIZE)%Z.
      * inversion H; subst. exists 1. split; [lia|]. split; [reflexivity|].
        intros rows Hr. inversion Hr; subst. cbn [offsets flat_map].
        unfold served. rewrite Es. rewrite app_nil_r. reflexivity.
      * apply IH in H. cbn [all_rows offset requests] in H.
        destruct H as (n & Hn & Hreqs & Hrows). exists (S n).
        split; [lia|]. split.
        -- rewrite Hreqs, <- app_assoc. reflexivity.
        -- intros rows Hr. rewrite (Hrows rows Hr), <- app_assoc.
           cbn [offsets flat_map]. unfold served at 2. rewrite Es.
           reflexivity.
  - inversion H; subst. exists 1. split; [lia|]. split; [reflexivity|].
    intros rows Hr. discriminate Hr.
Qed.

(** X18. Against any server, a fetch that ends has asked for the offsets
    0, 50000, 100000, ..., each once and in this order, and at least for
    the first; when it returns rows, these are the pages served at those
    offsets, one after the other. *)
Theorem fetch_pages_in_order (srv : server) (fuel : nat)
    (res : result (list pluto_row)) (reqs : list Z) :
  fetch_pluto fuel srv = Some (res, reqs) ->
  reqs = offsets (List.length reqs) 0
  /\ 1 <= List.length reqs <= fuel
  /\ forall rows, res = Ok rows -> rows = flat_map (served srv) reqs.
Proof.
  unfold fetch_pluto. intros H. apply fetch_loop_served in H.
  cbn [all_rows offset requests app] in H.
  destruct H as (n & Hn & -> & Hrows). rewrite offsets_length.
  split; [reflexivity|]. split; [exact Hn|exact Hrows].
Qed.

Lemma fetch_pages_in_order_witness :
  fetch_pluto 3 (paged source_120001)
  = Some (Ok (flat_map (served (paged source_120001)) [0; 50000; 100000]%Z),
          [0; 50000; 100000]%Z).
Proof.
  assert (H : fetch_pluto 3 (paged source_120001)
              = Some (Ok source_120001, [0; 50000; 100000]%Z)).
  { assert (Hdiv : List.length source_120001 / page = 2).
    { assert (Hlen : Z.of_nat (List.length source_120001) = 120001%Z)
        by (unfold source_120001; rewrite repeat_length; lia).
      symmetry.
      apply (Nat.div_unique _ _ _ (List.length source_120001 - 2 * page));
        pose proof page_Z; unfold PAGE_SIZE in *; lia. }
    pose proof (fetch_loop_paged 3 [] source_120001 []) as Hp.
    rewrite Hdiv in Hp. apply Hp; lia. }
  rewrite H.
  rewrite <- (proj2 (proj2 (fetch_pages_in_order _ _ _ _ H)) _ eq_refl).
  reflexivity.
Defined.

Lemma fetch_loop_error (srv : server) (pages : list (list pluto_row))
    (e : exn) :
  forall (st : fetch_state) (fuel : nat),
    Forall (fun pg => page <= List.length pg) pages ->
    (forall i pg, nth_error pages i = Some pg ->
                  srv (offset st + Z.of_nat i * PAGE_SIZE)%Z = Ok pg) ->
    srv (offset st + Z.of_nat (List.length pages) * PAGE_SIZE)%Z = Raise e ->
    List.length pages < fuel ->
    fetch_loop fuel srv st
    = Some (Raise e,
            (requests st ++ offsets (S (List.length pages)) (offset st))%list).
Proof.
  induction pages as [|pg pages IH]; intros st fuel Hfull Hsrv He Hfuel;
    (destruct fuel as [|fuel]; [simpl in Hfuel; lia|]); simpl fetch_loop.
  - simpl in He. rewrite Z.add_0_r in He.
    rewrite (fetch_step_error srv st e He). reflexivity.
  - inversion Hfull as [|? ? Hpg Hrest]; subst.
    rewrite (fetch_step_full srv st pg); auto.
    + rewrite IH; cbn [all_rows offset requests List.length]; auto.
      * rewrite <- !app_assoc. reflexivity.
      * intros i p Hi. specialize (Hsrv (S i) p Hi).
        rewrite <- Hsrv. f_equal. lia.
      * rewrite <- He. f_equal. cbn [List.length]. lia.
      * simpl in Hfuel. lia.
    + specialize (Hsrv 0 pg eq_refl).
      rewrite Z.mul_0_l, Z.add_0_r in Hsrv. exact Hsrv.
Qed.

(** X19. An error of the server ends the fetch with that error, and the
    pages fetched before it are not returned: after any number of full
    pages, the request that fails is the last one made and its error is
    the outcome. *)
Theorem fetch_error_aborts (srv : server) (pages : list (list pluto_row))
    (e : exn) (fuel : nat) :
  Forall (fun pg => page <= List.length pg) pages ->
  (forall i pg, nth_error pages i = Some pg ->
                srv (Z.of_nat i * PAGE_SIZE)%Z = Ok pg) ->
  srv (Z.of_nat (List.length pages) * PAGE_SIZE)%Z = Raise e ->
  List.length pages < fuel ->
  fetch_pluto fuel srv
  = Some (Raise e, offsets (S (List.length pages)) 0).
Proof.
  intros Hfull Hsrv He Hfuel.
  apply (fetch_loop_error srv pages e (mk_fetch [] 0 []) fuel); auto.
Qed.

Lemma fetch_error_aborts_witness :
  fetch_pluto 5 failing_server = Some (Raise HTTPError, [0; 50000]%Z).
Proof.
  apply (fetch_error_aborts failing_server [repeat [] page] HTTPError 5).
  - constructor; [rewrite repeat_length; apply le_n|constructor].
  - intros [|[|i]] pg Hi; cbn [nth_error] in Hi; try discriminate Hi.
    apply (f_equal (fun o => match o with
                             | Some pg' => Ok pg'
                             | None => Raise HTTPError
                             end)) in Hi.
    exact Hi.
  - reflexivity.
  - cbn [List.length]. lia.
Defined.

Lemma fetch_loop_stuck (srv : server) (fuel : nat) :
  (forall off, exists batch,
      srv off = Ok batch /\ page <= List.length batch) ->
  forall st, fetch_loop fuel srv st = None.
Proof.
  intros Hsrv. induction fuel as [|fuel IH]; intros st; [reflexivity|].
  cbn [fetch_loop]. destruct (Hsrv (offset st)) as (batch & Hb & Hlen).
  rewrite (fetch_step_full srv st batch Hb Hlen). apply IH.
Qed.

(** X20. The loop has no bound of its own: against a server that answers
    every offset with a full page, for instance one that ignores the
    offset, it never leaves, however many turns it is given. *)
Theorem fetch_never_ends (srv : server) :
  (forall off, exists batch,
      srv off = Ok batch /\ page <= List.length batch) ->
  forall fuel, fetch_pluto fuel srv = None.
Proof.
  intros Hsrv fuel. apply fetch_loop_stuck. exact Hsrv.
Qed.

Lemma fetch_never_ends_witness : fetch_pluto 1000 stuck_server = None.
Proof.
  apply (fetch_never_ends stuck_server). intros off.
  exists (repeat [] page). split; [reflexivity|].
  rewrite repeat_length. apply le_n.
Defined.

End FetchFacts.

(** ** The formatters of the overview table *)

Module TableFacts.
Import Py BidsTable Spec FloatFacts Currency.
Local Open Scope string_scope.
Local Open Scope float_scope.

(** *** Currency *)

Lemma leb_not_nan (a b : float) : (a <=? b) = true -> is_nan b = false.
Proof.
  unfold is_nan. rewrite leb_spec, eqb_spec. unfold SFleb, SFeqb.
  destruct (SFcompare_refl (Prim2SF b)) as [-> | H]; [reflexivity|].
  destruct (Prim2SF b) as [s|s| |s m e]; simpl in H;
    try discriminate; try (destruct s; discriminate).
  destruct (Prim2SF a) as [s'|s'| |s' m' e']; simpl; discriminate.
Qed.

Lemma leb_1000_nonzero (val : float) :
  (1000 <=? val) = true -> (val =? 0) = false.
Proof.
  intros H. destruct (val =? 0) eqn:E; [exfalso|reflexivity].
  apply eqb_zero in E. destruct E as [s E]. rewrite leb_spec, E in H.
  destruct s; vm_compute in H; discriminate H.
Qed.

(** X21. The two currency formatters differ for the thousands only, where
    [format_currency_large] keeps one decimal and [format_currency] keeps
    none: below 1000, from 1,000,000 on, for zero and for a missing value
    they return the same text. *)
Theorem format_currency_large_differs (val : float) :
  (ge val 1000 = false -> format_currency_large val = format_currency val)
  /\ (ge val 1000000 = true ->
      format_currency_large val = format_currency val)
  /\ (ge val 1000 = true -> ge val 1000000 = false ->
      format_currency_large val = "$" ++ format_fixed 1 (val / 1000) ++ "K"
      /\ format_currency val = "$" ++ format_fixed 0 (val / 1000) ++ "K").
Proof.
  unfold format_currency_large, format_currency, ge. split; [|split].
  - intros H. destruct (is_nan val || (val =? 0)); [reflexivity|].
    destruct (1000000 <=? val) eqn:E; [reflexivity|]. rewrite H.
    reflexivity.
  - intros H. rewrite H. reflexivity.
  - intros H1 H2.
    rewrite (leb_not_nan _ _ H1), (leb_1000_nonzero _ H1), H1, H2.
    split; reflexivity.
Qed.

(** *** Numbers with commas *)

Local Close Scope float_scope.

Lemma uint_digits (d : Decimal.uint) :
  Forall (fun c => is_comma c = false)
    (list_ascii_of_string (NilEmpty.string_of_uint d)).
Proof.
  induction d; simpl; constructor; auto.
Qed.

Lemma decimal_digits (n : N) :
  Forall (fun c => is_comma c = false) (list_ascii_of_string (decimal n)).
Proof.
  unfold decimal, NilZero.string_of_uint.
  destruct (N.to_uint n) eqn:E;
    try (rewrite <- E; apply uint_digits).
  repeat constructor.
Qed.

Lemma commas_rev_filter (l : list ascii) :
  Forall (fun c => is_comma c = false) l ->
  forall k, filter (fun c => negb (is_comma c)) (commas_rev l k) = l.
Proof.
  induction 1 as [|d l Hd _ IH]; intros k; simpl; [reflexivity|].
  destruct (Nat.eqb k 3); simpl; rewrite Hd; simpl; rewrite IH; reflexivity.
Qed.

(** With [k] digits written since the last comma, the commas are at the
    places [i] with [(i + k) mod 4 = 3]. *)
Lemma commas_rev_places (l : list ascii) :
  Forall (fun c => is_comma c = false) l ->
  forall k i c,
    k <= 3 -> nth_error (commas_rev l k) i = Some c ->
    (is_comma c = true <-> (i + k) mod 4 = 3).
Proof.
  induction 1 as [|d l Hd _ IH]; intros k i c Hk Hi; simpl in Hi.
  - destruct i; discriminate.
  - destruct (Nat.eqb k 3) eqn:E.
    + apply Nat.eqb_eq in E. subst k.
      destruct i as [|[|i]]; simpl in Hi.
      * inversion Hi; subst. split; reflexivity.
      * inversion Hi; subst. rewrite Hd. split; discriminate.
      * rewrite (IH 1 i c ltac:(lia) Hi).
        replace (S (S i) + 3) with (i + 1 + 1 * 4) by lia.
        rewrite Nat.Div0.mod_add. reflexivity.
    + apply Nat.eqb_neq in E. destruct i as [|i]; simpl in Hi.
      * inversion Hi; subst. rewrite Hd. split; [discriminate|].
        rewrite Nat.add_0_l. intros H. exfalso.
        rewrite Nat.mod_small in H by lia. contradiction.
      * rewrite (IH (S k) i c ltac:(lia) Hi).
        replace (S i + k) with (i + S k) by lia. reflexivity.
Qed.

Lemma ungroup_grouped (l : list ascii) :
  Forall (fun c => is_comma c = false) l ->
  ungroup (string_of_list_ascii (rev (commas_rev (rev l) 0)))
  = string_of_list_ascii l.
Proof.
  intros H. unfold ungroup.
  rewrite list_ascii_of_string_of_list_ascii, filter_rev.
  rewrite commas_rev_filter by (apply Forall_rev; exact H).
  rewrite rev_involutive. reflexivity.
Qed.

Lemma format_number_error (val : float) (e : exn) :
  format_number val = Raise e -> e = OverflowError.
Proof.
  unfold format_number, int_of_float.
  destruct (is_nan val || (val =? 0)%float) eqn:Ez; [discriminate|].
  destruct (Prim2SF val) as [s|s| |s m ex] eqn:E; try discriminate.
  - congruence.
  - exfalso. apply orb_false_iff in Ez. destruct Ez as [Hn _].
    unfold is_nan in Hn. rewrite eqb_spec, E in Hn. discriminate Hn.
Qed.

(** X22. [format_number] writes the dash for zero and for a missing value,
    and otherwise the whole part of the value, the sign first, with a
    comma before every group of three digits counted from the end: without
    its commas the text is the decimal writing of the integer, and
    counting from the end every fourth character is a comma and no other
    one is.  The one error it can raise is the [OverflowError] of [int]
    on an infinite value. *)
Theorem format_number_grouping (val : float) :
  (is_nan val || (val =? 0)%float = true -> format_number val = Ok "—")
  /\ (forall e, format_number val = Raise e -> e = OverflowError)
  /\ (forall s,
         is_nan val || (val =? 0)%float = false -> format_number val = Ok s ->
         exists n g,
           int_of_float val = Ok n
           /\ s = (if (n <? 0)%Z then "-" else "") ++ g
           /\ ungroup g = decimal (Z.abs_N n)
           /\ forall i c, from_end g i = Some c ->
                          (c = ch "," <-> i mod 4 = 3)).
Proof.
  split; [|split].
  - intros H. unfold format_number. rewrite H. reflexivity.
  - apply format_number_error.
  - intros s Hz H. unfold format_number in H. rewrite Hz in H.
    destruct (int_of_float val) as [n|e]; [|discriminate].
    inversion H; subst; clear H. unfold format_grouped.
    set (ds := list_ascii_of_string (decimal (Z.abs_N n))).
    pose proof (decimal_digits (Z.abs_N n)) as Hds. fold ds in Hds.
    exists n, (string_of_list_ascii (rev (commas_rev (rev ds) 0))).
    split; [reflexivity|]. split; [reflexivity|]. split.
    + rewrite (ungroup_grouped ds Hds). unfold ds.
      apply string_of_list_ascii_of_string.
    + intros i c Hi. unfold from_end in Hi.
      rewrite list_ascii_of_string_of_list_ascii, rev_involutive in Hi.
      pose proof (commas_rev_places (rev ds) (Forall_rev Hds) 0 i c
                    ltac:(lia) Hi) as Hc.
      rewrite Nat.add_0_r in Hc. rewrite <- Hc. unfold is_comma.
      split; [intros ->; reflexivity|apply Ascii.eqb_eq].
Qed.

End TableFacts.

(** ** The box and the coordinates *)

Module BoxFacts.
Import Py Deckgl Spec Samples FloatFacts BBox RayCast RingFacts.

(** *** Rounding next to a float *)

(** The mantissa of a float above the least exponent has 53 bits. *)
Lemma bounded_normal (m : positive) (e : Z) :
  bounded prec emax m e = true -> (-1074 < e)%Z -> (2 ^ 52 <= Zpos m)%Z.
Proof.
  intros Hb He. destruct (bounded_facts m e Hb) as (_ & _ & Hc & _).
  rewrite fexp64 in Hc. destruct (digits2_bounds m) as [Hlo _].
  replace (Zpos (digits2_pos m)) with 53%Z in Hlo by lia. exact Hlo.
Qed.

(** The exponent at which a positive integer [p * 2^ez] is rounded,
    compared with the exponent of a float [m * 2^e] on either side. *)
Lemma digits_above (m p : positive) (k : Z) :
  (0 <= k)%Z -> (Zpos m * 2 ^ k <= Zpos p)%Z ->
  (Zpos (digits2_pos m) + k <= Zpos (digits2_pos p))%Z.
Proof.
  intros Hk H. destruct (digits2_bounds m) as [Hlo _].
  destruct (digits2_bounds p) as [_ Hhi].
  destruct (Z_lt_le_dec (Zpos (digits2_pos p)) (Zpos (digits2_pos m) + k))
    as [Hlt|Hle]; [exfalso|exact Hle].
  assert (Hp : (2 ^ Zpos (digits2_pos p)
                <= 2 ^ (Zpos (digits2_pos m) - 1 + k))%Z)
    by (apply Z.pow_le_mono_r; lia).
  rewrite Z.pow_add_r in Hp by lia.
  pose proof (pow2_pos k Hk). nia.
Qed.

Lemma digits_below (m p : positive) (k : Z) :
  (0 <= k)%Z -> (Zpos p < Zpos m * 2 ^ k)%Z ->
  (Zpos (digits2_pos p) <= Zpos (digits2_pos m) + k)%Z.
Proof.
  intros Hk H. destruct (digits2_bounds m) as [_ Hhi].
  change (Zpos (digits2_pos p)) with (Zdigits2 (Zpos p)).
  apply Zdigits2_le; [lia|]. rewrite Z.pow_add_r by lia.
  pose proof (pow2_pos k Hk). nia.
Qed.

(** What [binary_round_aux] returns, when it is finite, from the two
    shifts it makes. *)
Lemma binary_round_aux_parts (s s' : bool) (p : positive) (e : Z)
    (m' : positive) (e' : Z) :
  (-1074 <= e)%Z ->
  let F := fexp prec emax (Zpos (digits2_pos p) + e) in
  (e <= F)%Z ->
  binary_round_aux prec emax s (Zpos p) e loc_Exact = S754_finite s' m' e' ->
  exists m1 n2,
    (Zpos p / 2 ^ (F - e) <= m1 <= Zpos p / 2 ^ (F - e) + 1)%Z
    /\ (0 < m1)%Z
    /\ n2 = Z.max 0 (fexp prec emax (Zdigits2 m1 + F) - F)
    /\ e' = (F + n2)%Z
    /\ Zpos m' = (m1 / 2 ^ n2)%Z.
Proof.
  intros He F HF H. unfold binary_round_aux in H.
  destruct (shr_fexp prec emax (Zpos p) e loc_Exact) as [mrs e1] eqn:E1.
  destruct (shr_fexp_facts _ _ _ _ _ (Pos2Z.is_pos p) He E1)
    as (He1 & Hm1 & Hpos1 & _).
  change (Zdigits2 (Zpos p)) with (Zpos (digits2_pos p)) in He1, Hm1.
  fold F in He1, Hm1.
  replace (Z.max 0 (F - e)) with (F - e)%Z in * by lia.
  replace (e + (F - e))%Z with F in He1 by lia. subst e1.
  pose proof (rne_bounds (shr_m mrs) (loc_of_shr_record mrs)) as Hr.
  set (m1 := round_nearest_even (shr_m mrs) (loc_of_shr_record mrs)) in *.
  assert (HF' : (-1074 <= F)%Z) by (unfold F; rewrite fexp64; lia).
  destruct (shr_fexp prec emax m1 F loc_Exact) as [mrs2 e2] eqn:E2.
  assert (Hm1pos : (0 < m1)%Z) by lia.
  destruct (shr_fexp_facts _ _ _ _ _ Hm1pos HF' E2)
    as (He2 & Hm2 & Hpos2 & _).
  exists m1, (Z.max 0 (fexp prec emax (Zdigits2 m1 + F) - F)).
  rewrite <- Hm1.
  destruct (shr_m mrs2) as [|q|q]; try discriminate H.
  destruct (e2 <=? emax - prec)%Z; [|discriminate H].
  inversion H; subst. repeat split; lia.
Qed.

(** Rounding an integer that is not below a float gives a float that is
    not below it. *)
Lemma binary_round_above (s s' : bool) (p mx : positive) (ex ez : Z)
    (m' : positive) (e' : Z) :
  bounded prec emax mx ex = true -> (-1074 <= ez <= ex)%Z ->
  (Zpos mx * 2 ^ (ex - ez) <= Zpos p)%Z ->
  binary_round prec emax s p ez = S754_finite s' m' e' ->
  (ex < e')%Z \/ (ex = e' /\ (Zpos mx <= Zpos m')%Z).
Proof.
  intros Hb Hez HX H.
  destruct (bounded_facts mx ex Hb) as (Hex & Hmx & Hcx & _).
  rewrite fexp64 in Hcx.
  destruct (binary_round_aligned s p ez ltac:(lia)) as (p' & e0 & Hr & He0 & Hp' & Hd).
  rewrite Hr in H. clear Hr.
  pose proof (digits_above mx p (ex - ez) ltac:(lia) HX) as Hdig.
  rewrite fexp64 in He0.
  assert (He0' : e0 = ez) by lia. clear He0. subst e0.
  rewrite Z.sub_diag, Z.mul_1_r in Hp'. injection Hp' as ->.
  destruct (binary_round_aux_parts s s' p ez m' e' ltac:(lia)
              ltac:(rewrite fexp64; lia) H)
    as (m1 & n2 & Hm1 & Hpos & Hn2 & He' & Hm').
  rewrite !fexp64 in *.
  set (F := Z.max (Zpos (digits2_pos p) + ez - 53) (-1074)) in *.
  assert (HF : (ex <= F)%Z) by (unfold F; lia).
  destruct (Z_lt_le_dec ex e') as [Hlt|Hle]; [left; exact Hlt|right].
  assert (HFe : F = ex) by lia.
  assert (Hn0 : n2 = 0%Z) by lia.
  split; [lia|]. rewrite Hm', Hn0, Z.div_1_r.
  apply Z.le_trans with (Zpos p / 2 ^ (F - ez))%Z; [|lia].
  apply Z.div_le_lower_bound; [apply pow2_pos; lia|].
  rewrite HFe. lia.
Qed.

(** Rounding a positive integer below a float gives a float that is not
    above it. *)
Lemma binary_round_below (s s' : bool) (p mx : positive) (ex ez : Z)
    (m' : positive) (e' : Z) :
  bounded prec emax mx ex = true -> (-1074 <= ez <= ex)%Z ->
  (Zpos p < Zpos mx * 2 ^ (ex - ez))%Z ->
  binary_round prec emax s p ez = S754_finite s' m' e' ->
  (e' < ex)%Z \/ (e' = ex /\ (Zpos m' <= Zpos mx)%Z).
Proof.
  intros Hb Hez HX H.
  destruct (bounded_facts mx ex Hb) as (Hex & Hmx & Hcx & _).
  rewrite fexp64 in Hcx.
  destruct (binary_round_aligned s p ez ltac:(lia))
    as (p' & e0 & Hr & He0 & Hp' & Hd).
  rewrite Hr in H. clear Hr.
  pose proof (digits_below mx p (ex - ez) ltac:(lia) HX) as Hdig.
  rewrite fexp64 in He0.
  destruct (binary_round_aux_parts s s' p' e0 m' e' ltac:(lia)
              ltac:(rewrite Hd, fexp64; lia) H)
    as (m1 & n2 & Hm1 & Hpos & Hn2 & He' & Hm').
  rewrite Hd in *. rewrite !fexp64 in *.
  set (F := Z.max (Zpos (digits2_pos p) + ez - 53) (-1074)) in *.
  assert (HF : (F <= ex)%Z) by (unfold F; lia).
  assert (Hlow : (-1074 <= F)%Z) by (unfold F; lia).
  assert (He0F : (e0 <= F)%Z) by lia.
  (* the first shift leaves fewer than 54 bits *)
  assert (Hq : (Zpos p' / 2 ^ (F - e0) < 2 ^ 53)%Z).
  { apply Z.div_lt_upper_bound; [apply pow2_pos; lia|].
    destruct (digits2_bounds p') as [_ Hhi].
    eapply Z.lt_le_trans; [exact Hhi|].
    rewrite <- Z.pow_add_r by lia. apply Z.pow_le_mono_r; lia. }
  assert (Hm1' : (m1 <= 2 ^ 53)%Z) by lia.
  destruct (Z_lt_le_dec F ex) as [Hlt|Hge].
  - (* a lower binade *)
    destruct (Z_lt_le_dec m1 (2 ^ 53)) as [Hsmall|Hbig].
    + assert (Hd1 : (Zdigits2 m1 <= 53)%Z) by (apply Zdigits2_le; lia).
      left. lia.
    + assert (Hm1e : m1 = (2 ^ 53)%Z) by lia.
      assert (Hd1 : Zdigits2 m1 = 54%Z) by (rewrite Hm1e; reflexivity).
      assert (Hn1 : n2 = 1%Z) by lia.
      destruct (Z_lt_le_dec (F + 1) ex) as [Hlt'|Hge]; [left; lia|right].
      split; [lia|]. rewrite Hm', Hn1, Hm1e.
      change (2 ^ 53 / 2 ^ 1)%Z with (2 ^ 52)%Z.
      apply (bounded_normal mx ex Hb). lia.
  - (* the binade of the float *)
    assert (HFe : F = ex) by lia.
    assert (Hlt : (Zpos p' / 2 ^ (F - e0) < Zpos mx)%Z).
    { apply Z.div_lt_upper_bound; [apply pow2_pos; lia|].
      rewrite Hp', HFe.
      replace (ex - e0)%Z with ((ex - ez) + (ez - e0))%Z by lia.
      rewrite Z.pow_add_r by lia.
      pose proof (pow2_pos (ez - e0) ltac:(lia)). nia. }
    assert (Hd1 : (Zdigits2 m1 <= 53)%Z) by (apply Zdigits2_le; lia).
    assert (Hn0 : n2 = 0%Z) by lia.
    right. split; [lia|]. rewrite Hm', Hn0, Z.div_1_r. lia.
Qed.

(** *** The order of the specification floats *)

Lemma SFleb_finite_pos (m1 m2 : positive) (e1 e2 : Z) :
  (e1 < e2)%Z \/ (e1 = e2 /\ (Zpos m1 <= Zpos m2)%Z) ->
  SFleb (S754_finite false m1 e1) (S754_finite false m2 e2) = true.
Proof.
  intros H. unfold SFleb. simpl.
  destruct (Z.compare_spec e1 e2); try reflexivity; try lia.
  rewrite Pos.compare_cont_spec. simpl.
  destruct (Pos.compare_spec m1 m2); try reflexivity. lia.
Qed.

Lemma SFleb_finite_neg (m1 m2 : positive) (e1 e2 : Z) :
  (e2 < e1)%Z \/ (e2 = e1 /\ (Zpos m2 <= Zpos m1)%Z) ->
  SFleb (S754_finite true m1 e1) (S754_finite true m2 e2) = true.
Proof.
  intros H. unfold SFleb. simpl.
  destruct (Z.compare_spec e1 e2); try reflexivity; try lia.
  rewrite Pos.compare_cont_spec. simpl.
  destruct (Pos.compare_spec m1 m2); try reflexivity. lia.
Qed.

Ltac order_cases :=
  repeat match goal with
         | s : bool |- _ => destruct s
         end;
  simpl; try discriminate; try reflexivity;
  repeat match goal with
         | |- context [Z.compare ?a ?b] => destruct (Z.compare_spec a b)
         end;
  simpl; try discriminate; try reflexivity; try lia; subst;
  rewrite ?Pos.compare_cont_spec; simpl;
  repeat match goal with
         | |- context [Pos.compare ?a ?b] => destruct (Pos.compare_spec a b)
         end;
  simpl; try discriminate; try reflexivity; try lia.

(** Below a number that a finite one is not below. *)
Lemma SFleb_trans_nlt (a b x : spec_float) :
  SFleb a b = true -> SFltb x b = false -> finite_sf x = true ->
  SFleb a x = true.
Proof.
  unfold SFleb, SFltb.
  destruct a as [sa|sa| |sa ma ea], b as [sb|sb| |sb mb eb],
    x as [sx|sx| |sx mx ex]; simpl; try discriminate; intros H1 H2 _;
    revert H1 H2; order_cases.
Qed.

(** Above a number that is not below a finite one. *)
Lemma SFleb_trans_ngt (a b x : spec_float) :
  SFleb b a = true -> SFltb b x = false -> finite_sf x = true ->
  SFleb x a = true.
Proof.
  unfold SFleb, SFltb.
  destruct a as [sa|sa| |sa ma ea], b as [sb|sb| |sb mb eb],
    x as [sx|sx| |sx mx ex]; simpl; try discriminate; intros H1 H2 _;
    revert H1 H2; order_cases.
Qed.

(** *** The buffer *)

(** Subtracting the buffer does not raise a float and adding it does not
    lower it, whatever the rounding. *)
Lemma buf_sum_order (s sb : bool) (m : positive) (e : Z) :
  bounded prec emax m e = true ->
  let ez := Z.min e (-61) in
  let r :=
    binary_normalize prec emax
      (cond_Zopp s (Zpos (fst (shl_align m e ez)))
       + cond_Zopp sb (Zpos (fst (shl_align buf_m (-61) ez))))
      ez false in
  if sb then SFleb r (S754_finite s m e) = true
  else SFleb (S754_finite s m e) r = true.
Proof.
  intros Hb ez r. pose proof (buf_sum_finite s sb m e Hb) as Hfin.
  cbv zeta in Hfin. fold ez in Hfin. fold r in Hfin.
  destruct (bounded_facts m e Hb) as (He & Hm & _ & _).
  destruct (shl_align_spec m e ez) as [_ HX].
  destruct (shl_align_spec buf_m (-61) ez) as [_ HY].
  replace (Z.min e ez) with ez in HX by lia.
  replace (Z.min (-61) ez) with ez in HY by lia.
  unfold r in *. clear r. rewrite HX, HY in *. clear HX HY.
  set (X := (Zpos m * 2 ^ (e - ez))%Z) in *.
  set (Y := (Zpos buf_m * 2 ^ (-61 - ez))%Z) in *.
  assert (HXpos : (0 < X)%Z)
    by (unfold X; pose proof (pow2_pos (e - ez) ltac:(lia)); nia).
  assert (HYpos : (0 < Y)%Z)
    by (unfold Y; pose proof (pow2_pos (-61 - ez) ltac:(lia)); nia).
  assert (Hez : (-1074 <= ez <= e)%Z) by lia.
  remember (cond_Zopp s X + cond_Zopp sb Y)%Z as z eqn:Hz.
  destruct z as [|p|p]; cbn [binary_normalize] in *.
  - destruct s, sb; unfold cond_Zopp in Hz; try lia; reflexivity.
  - pose proof (binary_round_nonzero false p ez ltac:(lia)) as Hs.
    destruct (binary_round prec emax false p ez) as [s'|s'| |s' m' e'] eqn:Er;
      try contradiction; try discriminate Hfin. subst s'.
    destruct s, sb; unfold cond_Zopp in Hz; try lia; try reflexivity.
    + apply SFleb_finite_pos.
      apply (binary_round_below false false p m e ez m' e' Hb Hez);
        [fold X; lia|exact Er].
    + apply SFleb_finite_pos.
      apply (binary_round_above false false p m e ez m' e' Hb Hez);
        [fold X; lia|exact Er].
  - pose proof (binary_round_nonzero true p ez ltac:(lia)) as Hs.
    destruct (binary_round prec emax true p ez) as [s'|s'| |s' m' e'] eqn:Er;
      try contradiction; try discriminate Hfin. subst s'.
    destruct s, sb; unfold cond_Zopp in Hz; try lia; try reflexivity.
    + apply SFleb_finite_neg.
      apply (binary_round_above true true p m e ez m' e' Hb Hez);
        [fold X; lia|exact Er].
    + apply SFleb_finite_neg.
      apply (binary_round_below true true p m e ez m' e' Hb Hez);
        [fold X; lia|exact Er].
Qed.

Lemma SF_buf_order (x : spec_float) :
  valid_binary x = true -> finite_sf x = true ->
  SFleb (SFsub prec emax x buf_sf) x = true
  /\ SFleb x (SFadd prec emax x buf_sf) = true.
Proof.
  intros Hv Hf. destruct x as [s|s| |s m e]; try discriminate.
  - destruct s; split; reflexivity.
  - simpl in Hv. split.
    + unfold SFsub, buf_sf.
      pose proof (buf_sum_order s true m e Hv) as H.
      cbv zeta in *. unfold cond_Zopp at 2 in H.
      unfold cond_Zopp at 2. rewrite <- Z.add_opp_r. exact H.
    + unfold SFadd, buf_sf. apply (buf_sum_order s false m e Hv).
Qed.

Lemma buf_order (x : float) :
  finite x = true ->
  (x - 0.002 <=? x)%float = true /\ (x <=? x + 0.002)%float = true.
Proof.
  intros H. unfold finite in H. rewrite !leb_spec, sub_spec, add_spec.
  change (Prim2SF 0.002) with buf_sf.
  apply (SF_buf_order (Prim2SF x) (Prim2SF_valid x) H).
Qed.

Lemma leb_trans_nlt (a b x : float) :
  (a <=? b)%float = true -> (x <? b)%float = false -> finite x = true ->
  (a <=? x)%float = true.
Proof. unfold finite. rewrite !leb_spec, ltb_spec. apply SFleb_trans_nlt. Qed.

Lemma leb_trans_ngt (a b x : float) :
  (b <=? a)%float = true -> (b <? x)%float = false -> finite x = true ->
  (x <=? a)%float = true.
Proof. unfold finite. rewrite !leb_spec, ltb_spec. apply SFleb_trans_ngt. Qed.

(** *** The box *)

Lemma finite_in (cs : list coord) (f : coord -> float) (x : float) :
  (forall c, finite_coord c -> finite (f c) = true) ->
  Forall finite_coord cs -> In x (map f cs) -> finite x = true.
Proof.
  intros Hf Hfin Hx. apply in_map_iff in Hx. destruct Hx as (c & <- & Hc).
  rewrite Forall_forall in Hfin. apply Hf, Hfin, Hc.
Qed.

(** A coordinate pair of the boundaries, against the folded extremes moved
    by the buffer. *)
Lemma coord_within (bs : boundaries) (c : coord) :
  Forall finite_coord (coords_of bs) -> In c (coords_of bs) ->
  let cs := coords_of bs in
  (fold_left min2 (map fst cs) infinity - buf <=? fst c)%float = true
  /\ (fst c <=? fold_left max2 (map fst cs) neg_infinity + buf)%float = true
  /\ (fold_left min2 (map snd cs) infinity - buf <=? snd c)%float = true
  /\ (snd c <=? fold_left max2 (map snd cs) neg_infinity + buf)%float = true.
Proof.
  intros Hfin Hc cs. unfold cs. clear cs.
  assert (Hne : coords_of bs <> []) by (intros E; rewrite E in Hc; exact Hc).
  destruct (bounding_box_finite bs Hne Hfin) as (H1 & H2 & H3 & H4 & _).
  assert (Hx : forall x, In x (map fst (coords_of bs)) -> finite x = true).
  { intros x. apply (finite_in _ fst); [|exact Hfin]. intros c' Hc'.
    apply Hc'. }
  assert (Hy : forall y, In y (map snd (coords_of bs)) -> finite y = true).
  { intros y. apply (finite_in _ snd); [|exact Hfin]. intros c' Hc'.
    apply Hc'. }
  pose proof (in_map fst _ _ Hc) as Hcx. pose proof (in_map snd _ _ Hc) as Hcy.
  unfold buf. repeat split.
  - apply (leb_trans_nlt _ (fold_left min2 (map fst (coords_of bs)) infinity)).
    + apply buf_order, Hx, H1.
    + apply fold_min2_bound, Hcx.
    + apply Hx, Hcx.
  - apply (leb_trans_ngt _ (fold_left max2 (map fst (coords_of bs))
                              neg_infinity)).
    + apply buf_order, Hx, H3.
    + apply fold_max2_bound, Hcx.
    + apply Hx, Hcx.
  - apply (leb_trans_nlt _ (fold_left min2 (map snd (coords_of bs)) infinity)).
    + apply buf_order, Hy, H2.
    + apply fold_min2_bound, Hcy.
    + apply Hy, Hcy.
  - apply (leb_trans_ngt _ (fold_left max2 (map snd (coords_of bs))
                              neg_infinity)).
    + apply buf_order, Hy, H4.
    + apply fold_max2_bound, Hcy.
    + apply Hy, Hcy.
Qed.

(** X23. The box encloses the boundaries: when every coordinate is a
    finite number, each coordinate pair of each ring lies between the west
    and east bounds in longitude and between the south and north bounds in
    latitude, in the order of the floats; the rounding of the subtraction
    and of the addition of the buffer never brings a bound inside. *)
Theorem bounding_box_encloses (bs : boundaries) :
  Forall finite_coord (coords_of bs) ->
  let '(w, s, e, n) := bounding_box bs in
  Forall (fun c : coord =>
            (w <=? fst c)%float = true /\ (fst c <=? e)%float = true
            /\ (s <=? snd c)%float = true /\ (snd c <=? n)%float = true)
    (coords_of bs).
Proof.
  intros Hfin. rewrite bounding_box_folds.
  apply Forall_forall. intros c Hc.
  apply (coord_within bs c Hfin Hc).
Qed.

Lemma bounding_box_encloses_witness :
  let '(w, s, e, n) := bounding_box gowanus_only in
  Forall (fun c : coord =>
            (w <=? fst c)%float = true /\ (fst c <=? e)%float = true
            /\ (s <=? snd c)%float = true /\ (snd c <=? n)%float = true)
    GOWANUS_BOUNDARY.
Proof.
  pose proof (bounding_box_encloses gowanus_only) as H.
  destruct (bounding_box gowanus_only) as [[[w s] e] n].
  change (coords_of gowanus_only) with (GOWANUS_BOUNDARY ++ [])%list in H.
  rewrite app_nil_r in H. apply H. repeat constructor.
Defined.

(** *** The latitude of a point that is assigned *)

Lemma SFltb_leb_trans (x y n : spec_float) :
  SFltb x y = true -> SFleb y n = true -> SFleb x n = true.
Proof.
  unfold SFleb, SFltb.
  destruct x as [sx|sx| |sx mx ex], y as [sy|sy| |sy my ey],
    n as [sn|sn| |sn mn en]; simpl; try discriminate; intros H1 H2;
    revert H1 H2; order_cases.
Qed.

Lemma SF_between_finite (x y1 y2 : spec_float) :
  SFltb x y1 = true -> SFltb x y2 = false -> finite_sf y2 = true ->
  finite_sf x = true.
Proof.
  unfold SFltb.
  destruct x as [sx|sx| |sx mx ex], y1 as [s1|s1| |s1 m1 e1],
    y2 as [s2|s2| |s2 m2 e2]; simpl; try discriminate; try reflexivity;
    intros H1 H2 _; revert H1 H2; order_cases.
Qed.

Lemma in_coords_of (bs : boundaries) (name : str) (rings : list ring)
    (r : ring) (v : coord) :
  In (name, rings) bs -> In r rings -> In v r -> In v (coords_of bs).
Proof.
  intros Hb Hr Hv. unfold coords_of. apply in_flat_map.
  exists (name, rings). split; [exact Hb|]. simpl. apply in_concat.
  exists r. auto.
Qed.

(** A ring that contains the point has a vertex above its latitude and a
    vertex that is not. *)
Lemma contains_between (lon lat : float) (r : ring) :
  contains lon lat r ->
  exists v1 v2,
    In v1 r /\ In v2 r
    /\ (lat <? snd v1)%float = true /\ (lat <? snd v2)%float = false.
Proof.
  unfold contains. rewrite point_in_ring_edges. intros H.
  assert (Ht : toggles lon lat (ring_edges r) false <> false) by congruence.
  destruct (toggles_some _ _ _ _ Ht) as ([vi vj] & Hin & Hc).
  apply ring_edges_in in Hin. destruct Hin as [Hi Hj].
  unfold crossing, gt in Hc. simpl in Hc. apply andb_true_iff in Hc.
  destruct Hc as [Hg _].
  destruct (lat <? snd vi)%float eqn:Ei, (lat <? snd vj)%float eqn:Ej;
    try discriminate Hg.
  - exists vi, vj. auto.
  - exists vj, vi. auto.
Qed.

(** X24. A point that [find_bid] assigns to a boundary has its latitude
    within the south and north bounds of the box, when every coordinate of
    the boundaries is a finite number: the ring that contains the point
    has a vertex above the latitude of the point and a vertex that is not,
    and the box encloses both. *)
Theorem assigned_latitude_in_box (bs : boundaries) (lon lat : float)
    (name : str) :
  Forall finite_coord (coords_of bs) ->
  find_bid lon lat bs = Ok (Some name) ->
  let '(w, s, e, n) := bounding_box bs in
  (s <=? lat)%float = true /\ (lat <=? n)%float = true.
Proof.
  intros Hfin Hf. pose proof (coord_within bs) as Hbox.
  rewrite bounding_box_folds. cbv zeta in Hbox.
  set (s := (fold_left min2 (map snd (coords_of bs)) infinity - buf)%float)
    in *.
  set (n := (fold_left max2 (map snd (coords_of bs)) neg_infinity
             + buf)%float) in *.
  apply find_bid_some in Hf.
  destruct Hf as (pre & rings & post & Hbs & _ & Hc). unfold covers in Hc.
  apply Exists_exists in Hc. destruct Hc as (r & Hr & Hc).
  destruct (contains_between _ _ _ Hc) as (v1 & v2 & H1 & H2 & Hlt & Hge).
  assert (Hin : In (name, rings) bs)
    by (rewrite Hbs; apply in_or_app; right; left; reflexivity).
  pose proof (in_coords_of _ _ _ _ _ Hin Hr H1) as Hc1.
  pose proof (in_coords_of _ _ _ _ _ Hin Hr H2) as Hc2.
  destruct (Hbox v1 Hfin Hc1) as (_ & _ & _ & Hn1).
  destruct (Hbox v2 Hfin Hc2) as (_ & _ & Hs2 & _).
  rewrite Forall_forall in Hfin.
  destruct (Hfin v2 Hc2) as [_ Hf2].
  assert (Hlat : finite lat = true).
  { unfold finite in *. rewrite ltb_spec in Hlt, Hge.
    apply (SF_between_finite _ _ _ Hlt Hge Hf2). }
  split.
  - apply (leb_trans_nlt s (snd v2) lat Hs2 Hge Hlat).
  - rewrite leb_spec in *. rewrite ltb_spec in Hlt.
    apply (SFltb_leb_trans _ _ _ Hlt Hn1).
Qed.

Lemma assigned_latitude_in_box_witness :
  let '(w, s, e, n) := bounding_box gowanus_only in
  (s <=? 40.679)%float = true /\ (40.679 <=? n)%float = true.
Proof.
  apply (assigned_latitude_in_box gowanus_only (-73.9885) 40.679
           (lit "Gowanus BID (Proposed)")).
  - change (coords_of gowanus_only) with (GOWANUS_BOUNDARY ++ [])%list.
    rewrite app_nil_r. repeat constructor.
  - vm_compute. reflexivity.
Defined.

End BoxFacts.
